(** * The JSON template engine (jsonTemplates.js): a shallow embedding

    The engine compiles a hybrid JSON/expression text into a list of
    fragment closures, runs them against a data value, and post-processes
    the parsed result by the [@prune] and [@if] directives.

    Conventions of the embedding.
    - A JavaScript value is a [value]: the JSON values and [undefined].
      Numbers are the integers; only their truthiness and their decimal text
      are ever used by the engine. The text is the one the host writes for
      the integers below 10^21 in magnitude that it holds exactly.
    - A JSON object is the list of its own enumerable properties in
      [for ... in] order; a lookup takes the first entry of a key. The
      [templates] table and the [prune] options, objects used as maps, are
      finite maps from names.
    - Members inherited from [Object.prototype] are not part of the model,
      neither for data nor for the [templates] table: a lookup of a name
      that is not an own property gives [undefined]. The statements whose
      truth depends on it leave those names out by a hypothesis
      ([inherited], [ownSegments]). The [prune] options are the exception:
      the prototype that [Object.assign] sets through [__proto__] is
      modelled.
    - A string is a sequence of 8-bit code units.
    - A call that throws returns [Throw]; the call stack is bounded, and
      running out of it is the [RangeError] of the host.
    - The source changes the tree it post-processes in place; [processNode]
      returns the tree as the call leaves it, next to the flag.
    - [JSON.parse] is a parameter of the two functions that call it.

    The middleware set, the service plugin and the adapter are modelled
    after the engine, each with the conventions stated where it starts. *)

From Stdlib Require Import ZArith Ascii String List Bool Lia.
From stdpp Require Import base option list sorting strings pretty gmap.

Set Warnings "-register-all".
Local Open Scope Z_scope.

(** ** Values, errors and results *)

Inductive value : Type :=
| VUndefined
| VNull
| VBool (b : bool)
| VNum (n : Z)
| VStr (s : string)
| VArr (xs : list value)
| VObj (ms : list (string * value)).

Inductive error : Type :=
| TypeError_member (member : string)   (* Cannot read property <member> of null *)
| TypeError_call (callee : string)     (* <callee> is not a function *)
| RangeError_stack                     (* Maximum call stack size exceeded *)
| SyntaxError_json.                    (* JSON.parse: not a JSON text *)

Inductive res (A : Type) : Type :=
| Ok (a : A)
| Throw (e : error).
Arguments Ok {A} a.
Arguments Throw {A} e.

#[global] Instance res_ret : MRet res := fun A a => Ok a.
#[global] Instance res_bind : MBind res := fun A B f m =>
  match m with Ok a => f a | Throw e => Throw e end.
#[global] Instance res_fmap : FMap res := fun A B f m =>
  match m with Ok a => Ok (f a) | Throw e => Throw e end.

(** [typeof v]. *)
Inductive jstype : Type := TUndefined | TObject | TBoolean | TNumber | TString.

Definition typeof (v : value) : jstype :=
  match v with
  | VUndefined => TUndefined
  | VNull | VArr _ | VObj _ => TObject
  | VBool _ => TBoolean
  | VNum _ => TNumber
  | VStr _ => TString
  end.

Definition isObjectType (v : value) : bool :=
  match typeof v with TObject => true | _ => false end.

Definition isArray (v : value) : bool :=
  match v with VArr _ => true | _ => false end.

(** [!!v]: the value counts as true in a condition. *)
Definition truthy (v : value) : bool :=
  match v with
  | VUndefined | VNull => false
  | VBool b => b
  | VNum n => negb (n =? 0)
  | VStr s => negb (String.eqb s "")
  | VArr _ | VObj _ => true
  end.

(** [v === undefined || v === null]. *)
Definition isNullish (v : value) : bool :=
  match v with VUndefined | VNull => true | _ => false end.

(** ** Strings of the host *)

Definition isWhiteSpace (c : ascii) : bool :=
  match c with
  | "009" | "010" | "011" | "012" | "013" | " " | "160" => true
  | _ => false
  end%char.

Fixpoint strRev_onto (s acc : string) : string :=
  match s with
  | EmptyString => acc
  | String c s' => strRev_onto s' (String c acc)
  end.

Definition strRev (s : string) : string := strRev_onto s EmptyString.

Fixpoint trimStart (s : string) : string :=
  match s with
  | EmptyString => EmptyString
  | String c s' => if isWhiteSpace c then trimStart s' else s
  end.

Definition trimEnd (s : string) : string := strRev (trimStart (strRev s)).

(** [s.trim()]. *)
Definition trim (s : string) : string := trimEnd (trimStart s).

(** [s.split(sep)] for a one-character separator: never the empty list. *)
Fixpoint split (sep : ascii) (s : string) : list string :=
  match s with
  | EmptyString => [EmptyString]
  | String c s' =>
      if Ascii.eqb c sep then EmptyString :: split sep s'
      else match split sep s' with
           | part :: parts => String c part :: parts
           | [] => [String c EmptyString]
           end
  end.

(** [s.indexOf(c)]: the first position of [c], or [-1]. *)
Fixpoint indexOf (c : ascii) (s : string) : Z :=
  match s with
  | EmptyString => -1
  | String a s' =>
      if Ascii.eqb a c then 0
      else let r := indexOf c s' in if r <? 0 then -1 else r + 1
  end.

(** [s.lastIndexOf(c)]: the last position of [c], or [-1]. *)
Fixpoint lastIndexOf (c : ascii) (s : string) : Z :=
  match s with
  | EmptyString => -1
  | String a s' =>
      let r := lastIndexOf c s' in
      if 0 <=? r then r + 1 else if Ascii.eqb a c then 0 else -1
  end.

Definition strlen (s : string) : Z := Z.of_nat (String.length s).

(** [s.substr(start, len)]: a negative start counts from the end, a length
    that is not positive gives the empty string. *)
Definition substr (s : string) (start len : Z) : string :=
  let from := if start <? 0 then Z.max (strlen s + start) 0 else start in
  if len <=? 0 then EmptyString
  else String.substring (Z.to_nat from) (Z.to_nat len) s.

(** The last character, [s[s.length - 1]]. *)
Fixpoint lastChar (s : string) : option ascii :=
  match s with
  | EmptyString => None
  | String c EmptyString => Some c
  | String _ s' => lastChar s'
  end.

Fixpoint join (sep : string) (parts : list string) : string :=
  match parts with
  | [] => EmptyString
  | [p] => p
  | p :: rest => p +:+ sep +:+ join sep rest
  end.

(** ** JSON.stringify *)

Definition hexDigit (n : nat) : ascii :=
  match n with
  | 0 => "0" | 1 => "1" | 2 => "2" | 3 => "3" | 4 => "4" | 5 => "5"
  | 6 => "6" | 7 => "7" | 8 => "8" | 9 => "9" | 10 => "a" | 11 => "b"
  | 12 => "c" | 13 => "d" | 14 => "e" | _ => "f"
  end%char%nat.

(** The double quote, character 34. *)
Definition dquote : ascii := "034"%char.

Definition escapeChar (c : ascii) : string :=
  match c with
  | "034"%char => String "\"%char (String dquote EmptyString)
  | "\"%char => "\\"
  | "008"%char => "\b"
  | "009"%char => "\t"
  | "010"%char => "\n"
  | "012"%char => "\f"
  | "013"%char => "\r"
  | _ =>
      let n := nat_of_ascii c in
      if (n <? 32)%nat
      then "\u00" +:+ String (hexDigit (n / 16)) (String (hexDigit (n mod 16)) EmptyString)
      else String c EmptyString
  end.

Fixpoint escape (s : string) : string :=
  match s with
  | EmptyString => EmptyString
  | String c s' => escapeChar c +:+ escape s'
  end.

Definition quote (s : string) : string :=
  String dquote (escape s +:+ String dquote EmptyString).

(** [JSON.stringify v]; [None] is its [undefined]. Inside an array an
    [undefined] element is written [null], inside an object a member whose
    value is [undefined] is left out. *)
Fixpoint stringify (v : value) : option string :=
  match v with
  | VUndefined => None
  | VNull => Some "null"
  | VBool true => Some "true"
  | VBool false => Some "false"
  | VNum n => Some (pretty n)
  | VStr s => Some (quote s)
  | VArr xs =>
      Some ("[" +:+ join "," (map (fun x => default "null" (stringify x)) xs) +:+ "]")
  | VObj ms =>
      let member := fun kv : string * value =>
        match stringify kv.2 with
        | Some s => Some (quote kv.1 +:+ ":" +:+ s)
        | None => None
        end in
      Some ("{" +:+ join "," (omap member ms) +:+ "}")
  end.

(** ** Member access *)

(** The first entry of [key] in a member list. *)
Fixpoint assoc (key : string) (ms : list (string * value)) : option value :=
  match ms with
  | [] => None
  | (k, v) :: rest => if String.eqb k key then Some v else assoc key rest
  end.

Fixpoint chars (s : string) : list value :=
  match s with
  | EmptyString => []
  | String c s' => VStr (String c EmptyString) :: chars s'
  end.

Definition indexed (xs : list value) : list (string * value) :=
  imap (fun i x => (pretty i, x)) xs.

(** The own enumerable properties of a value, in enumeration order: what
    [for ... in] visits and what [Object.assign] copies. *)
Definition ownProperties (v : value) : list (string * value) :=
  match v with
  | VObj ms => ms
  | VArr xs => indexed xs
  | VStr s => indexed (chars s)
  | _ => []
  end.

(** [value[member]] for a value whose [typeof] is ['object']: it throws on
    [null]; an array also answers to [length]. The members are the own
    ones: for a name that is none of them the code goes on to the
    prototype, and finds a method there if the name is one of
    [Object.prototype] or [Array.prototype], or the prototype itself under
    [__proto__]; here the value is [undefined]. *)
Definition getMember (v : value) (member : string) : res value :=
  match v with
  | VNull => Throw (TypeError_member member)
  | VObj ms => Ok (default VUndefined (assoc member ms))
  | VArr xs =>
      if String.eqb member "length" then Ok (VNum (Z.of_nat (length xs)))
      else Ok (default VUndefined (assoc member (indexed xs)))
  | _ => Ok VUndefined
  end.

(** ** getValue *)

(** The loop of [getValue] over the parts of the path. *)
Fixpoint walk (val : value) (parts : list string) : res value :=
  match parts with
  | [] => Ok val
  | part :: parts' =>
      let member := trim part in
      if isObjectType val
      then val' ← getMember val member; walk val' parts'
      else Ok VUndefined
  end.

Definition getValue (data : value) (path : string) : res value :=
  walk data (split "." path).

(** [getValue] called with a path that was never checked to be a string
    (the value of an [@if] key): [path.split] exists on strings only. *)
Definition getValue_dyn (data : value) (path : value) : res value :=
  match path with
  | VStr s => getValue data s
  | VUndefined | VNull => Throw (TypeError_member "split")
  | _ => Throw (TypeError_call "path.split")
  end.

(** ** Fragments and the parser *)

(** The three closures [parse] pushes, by the function that builds them.
    [appendFunction] also captures the [templates] table; the table is
    consulted when the closure runs, so it is passed then. *)
Inductive fragment : Type :=
| appendText (text : string)
| appendFunction (name args : string)
| appendProperty (path : string).

Inductive ParseState : Type := PS_none | PS_string | PS_path.

(** The fragment pushed when a path expression closes with text [txt]. *)
Definition closePath (txt : string) : fragment :=
  let trimmed := trim txt in
  if negb (String.eqb trimmed "") && bool_decide (lastChar trimmed = Some ")"%char) then
    let open := indexOf "(" txt in
    let close := lastIndexOf ")" txt in
    if negb (open =? 0) && negb (close =? 0) then
      let name := substr txt 0 open in
      let open := open + 1 in
      let args := if close >? open then substr txt open (close - open) else EmptyString in
      appendFunction name args
    else appendProperty txt
  else appendProperty txt.

Record lexer : Type := Lexer {
  parsed : list fragment;
  txt : string;
  endString : option ascii;
  endPath : option ascii;
  nextState : ParseState;
  state : ParseState
}.

Definition isQuote (c : ascii) : bool :=
  match c with "'"%char | "034"%char => true | _ => false end.

Definition snoc (s : string) (c : ascii) : string := s +:+ String c EmptyString.

(** [txt += char], the other variables unchanged but for the state. *)
Definition accumulate (s : lexer) (char : ascii) (st : ParseState) : lexer :=
  Lexer (parsed s) (snoc (txt s) char) (endString s) (endPath s) (nextState s) st.

(** The [for] loop of [parse]: [json] is the input from index [i] on and
    [prev] is [json[i - 1]]. A branch that skips the next character
    continues two characters further. *)
Fixpoint scan (json : string) (prev : option ascii) (s : lexer) : lexer :=
  match json with
  | EmptyString => s
  | String char rest =>
      match state s with
      | PS_none =>
          match rest with
          | String next rest' =>
              if isQuote char then
                if Ascii.eqb next "!" then
                  scan rest' (Some next)
                    (Lexer (parsed s ++ [appendText (txt s)]) EmptyString
                           (endString s) (Some char) PS_none PS_path)
                else
                  scan rest (Some char)
                    (Lexer (parsed s) (snoc (txt s) char)
                           (Some char) (endPath s) (nextState s) PS_string)
              else scan rest (Some char) (accumulate s char PS_none)
          | EmptyString => scan rest (Some char) (accumulate s char PS_none)
          end
      | PS_string =>
          let closing :=
            bool_decide (Some char = endString s)
            && negb (bool_decide (prev = Some "\"%char)) in
          let otherwise :=
            scan rest (Some char)
              (accumulate s char (if closing then PS_none else PS_string)) in
          match rest with
          | String next rest' =>
              if Ascii.eqb char "$" && Ascii.eqb next "{" then
                scan rest' (Some next)
                  (Lexer (parsed s ++ [appendText (txt s)]) EmptyString
                         (endString s) (Some "}"%char) PS_string PS_path)
              else otherwise
          | EmptyString => otherwise
          end
      | PS_path =>
          if bool_decide (Some char = endPath s)
          then scan rest (Some char)
                 (Lexer (parsed s ++ [closePath (txt s)]) EmptyString
                        (endString s) (endPath s) (nextState s) (nextState s))
          else scan rest (Some char) (accumulate s char PS_path)
      end
  end.

Definition parse (json : string) : list fragment :=
  let s := scan json None (Lexer [] EmptyString None None PS_none PS_none) in
  if (0 <? strlen (txt s)) then parsed s ++ [appendText (txt s)] else parsed s.

(** ** Running fragments *)

(** The closure behind a fragment, applied to [data]. [call name data args]
    stands for [templates[name](data, args)]. The result is the string the
    closure returns, [None] when it returns [undefined]. *)
Definition fragmentFn (call : string -> value -> string -> res value)
    (fn : fragment) (data : value) : res (option string) :=
  match fn with
  | appendText text => Ok (Some text)
  | appendFunction name args =>
      result ← call name data args;
      Ok (match result with VStr s => Some s | _ => stringify result end)
  | appendProperty path =>
      result ← getValue data path;
      Ok (match result with
          | VStr s => Some s
          | VUndefined | VNull => Some EmptyString
          | _ => stringify result
          end)
  end.

(** [obj += r]. *)
Definition plusAssign (obj : string) (r : option string) : string :=
  obj +:+ default "undefined" r.

(** [parsed.forEach((fn) => obj += fn(child))]. *)
Fixpoint forEachFragment (call : string -> value -> string -> res value)
    (parsed : list fragment) (child : value) (obj : string) : res string :=
  match parsed with
  | [] => Ok obj
  | fn :: rest =>
      r ← fragmentFn call fn child;
      forEachFragment call rest child (plusAssign obj r)
  end.

(** [value.forEach((child) => { obj += connector; ...; connector = ',' })]. *)
Fixpoint forEachChild (call : string -> value -> string -> res value)
    (parsed : list fragment) (children : list value) (obj connector : string) : res string :=
  match children with
  | [] => Ok obj
  | child :: rest =>
      obj' ← forEachFragment call parsed child (obj +:+ connector);
      forEachChild call parsed rest obj' ","
  end.

(** The closure [compile] returns, [(data, path) => ...]; [path] is [None]
    when the argument is left out. *)
Definition compiled (call : string -> value -> string -> res value)
    (parsed : list fragment) (data : value) (path : option string) : res string :=
  match path with
  | Some p =>
      if negb (String.eqb p "") then
        val ← getValue data p;
        match val with
        | VArr children =>
            obj ← forEachChild call parsed children "[" EmptyString;
            Ok (obj +:+ "]")
        | _ =>
            if isObjectType val then forEachFragment call parsed val EmptyString
            else Ok EmptyString
        end
      else forEachFragment call parsed data EmptyString
  | None => forEachFragment call parsed data EmptyString
  end.

(** An entry of the [templates] table: a compiled template, kept as its
    parsed fragments, or a function registered as it is. *)
Inductive template : Type :=
| Compiled (parsed : list fragment)
| Fn (fn : value -> option string -> res value).

(** [templates[name](data, args)], as a function-call fragment evaluates
    it when it runs: the name is looked up then; a name that is not there
    is [undefined], and calling it throws. [invoke] calls an entry. The
    table holds the own entries: a name that is none of them and is one of
    [Object.prototype] ([inherited]) finds the member of the prototype in
    the code, which is not modelled. *)
Definition callIn (invoke : template -> value -> option string -> res value)
    (templates : gmap string template) (name : string) (data : value) (args : string)
    : res value :=
  match templates !! name with
  | Some t => invoke t data (Some args)
  | None => Throw (TypeError_call name)
  end.

(** [t(data, path)] for an entry [t] of [templates], with [depth] frames of
    call stack left. *)
Fixpoint apply (depth : nat) (templates : gmap string template) (t : template)
    (data : value) (path : option string) : res value :=
  match t with
  | Fn fn => fn data path
  | Compiled parsed =>
      match depth with
      | O => Throw RangeError_stack
      | S depth' =>
          VStr <$> compiled (callIn (apply depth' templates) templates) parsed data path
      end
  end.

(** ** processNode *)

(** The [prune] options are an object made by [{}] or by [Object.assign].
    The map holds its own properties. None of them is named [__proto__]:
    [Object.assign] assigns, and an assignment to [__proto__] goes to the
    setter of [Object.prototype], which sets the prototype of the object
    when it is given an object or [null] and does nothing otherwise. The
    entry [__proto__] of the map stands for the prototype set that way. *)

(** [prune.<name>]: the own property, or else the member of the prototype.
    The names the code reads are [nullMembers], [emptyStrings] and
    [emptyArrays]; [Object.prototype] and [Array.prototype] have none of
    them. *)
Definition pruneOption (prune : gmap string value) (name : string) : value :=
  match prune !! name with
  | Some v => v
  | None =>
      match prune !! "__proto__" with
      | Some proto => match getMember proto name with Ok v => v | Throw _ => VUndefined end
      | None => VUndefined
      end
  end.

(** [prune.<name>] read as a condition. *)
Definition flag (prune : gmap string value) (name : string) : bool :=
  truthy (pruneOption prune name).

(** [target[key] = val], as [Object.assign] does it for each own property
    of a source. *)
Definition assignOption (target : gmap string value) (kv : string * value)
    : gmap string value :=
  if String.eqb kv.1 "__proto__"
  then if isObjectType kv.2 then <["__proto__" := kv.2]> target else target
  else <[kv.1 := kv.2]> target.

(** [Object.assign({}, prune, value)]: the own properties of [prune], not
    its prototype, then those of [value], are assigned to a new object. *)
Definition Object_assign (prune : gmap string value) (val : value) : gmap string value :=
  foldl assignOption (delete "__proto__" prune) (ownProperties val).

(** The array branch: the members from the last index down to the first.
    The tail of the list holds the higher indices and is processed first. *)
Definition processArray (rec : value -> gmap string value -> res (bool * value))
    (prune : gmap string value) : list value -> res (list value) :=
  fix loop (node : list value) : res (list value) :=
    match node with
    | [] => Ok []
    | val :: rest =>
        rest' ← loop rest;
        if flag prune "nullMembers" && isNullish val then Ok rest'
        else
          '(ok, val') ← rec val prune;
          Ok (if ok : bool then val' :: rest' else rest')
    end.

Definition isEmptyString (val : value) : bool :=
  match val with VStr s => String.eqb (trim s) "" | _ => false end.

Definition isEmptyArray (val : value) : bool :=
  match val with VArr [] => true | _ => false end.

(** The object branch: the members in enumeration order. The result is the
    list of collected [@if] values and the members that stay. *)
Definition processMembers (rec : value -> gmap string value -> res (bool * value))
    : list (string * value) -> gmap string value -> res (list value * list (string * value)) :=
  fix loop (node : list (string * value)) (prune : gmap string value) :=
    match node with
    | [] => Ok ([], [])
    | (key, val) :: rest =>
        if String.eqb key "@prune" then loop rest (Object_assign prune val)
        else if String.eqb key "@if" then
          '(conditions, node') ← loop rest prune;
          Ok (val :: conditions, node')
        else if flag prune "nullMembers" && isNullish val then loop rest prune
        else if flag prune "emptyStrings" && isEmptyString val then loop rest prune
        else if flag prune "emptyArrays" && isEmptyArray val then loop rest prune
        else
          '(ok, val') ← rec val prune;
          '(conditions, node') ← loop rest prune;
          Ok (conditions, if ok : bool then (key, val') :: node' else node')
    end.

(** The loop over the collected conditions, against the node as it is after
    the members were processed. *)
Fixpoint checkConditions (node : value) (conditions : list value) : res bool :=
  match conditions with
  | [] => Ok true
  | c :: rest =>
      v ← getValue_dyn node c;
      if truthy v then checkConditions node rest else Ok false
  end.

(** [processNode(node, prune)]: the returned flag, and the node as the call
    leaves it (the source changes it in place). *)
Fixpoint processNode (node : value) (prune : gmap string value) : res (bool * value) :=
  match node with
  | VArr xs =>
      xs' ← processArray processNode prune xs;
      if flag prune "emptyArrays" && (length xs' =? 0)%nat
      then Ok (false, VArr xs')
      else Ok (true, VArr xs')
  | VObj ms =>
      '(conditions, ms') ← processMembers processNode ms prune;
      ok ← checkConditions (VObj ms') conditions;
      Ok (ok, VObj ms')
  | _ => Ok (true, node)
  end.

(** ** The class JsonTemplates *)

Module JsonTemplates.

(** [JsonTemplates.compile(json, templates)]: the parsed fragments of the
    closure it returns. A [json] that is not a string is serialized first;
    one that serializes to [undefined] makes [parse] throw. *)
Definition compile (json : value) : res (list fragment) :=
  match json with
  | VStr s => Ok (parse s)
  | _ => match stringify json with
         | Some s => Ok (parse s)
         | None => Throw (TypeError_member "length")
         end
  end.

Definition add (name : string) (json : value) (this : gmap string template)
    : res (gmap string template) :=
  t ← compile json; Ok (<[name := Compiled t]> this).

Definition addFunction (name : string) (fn : value -> option string -> res value)
    (this : gmap string template) : gmap string template :=
  <[name := Fn fn]> this.

(** [render(name, data)]. The table is looked up as in [callIn]: [this]
    holds its own entries. Registering under [__proto__] sets the prototype
    of the table in the code; here it is kept as an entry, and the
    statements about names that are not entries ask that there is none. *)
Definition render (depth : nat) (this : gmap string template) (name : string)
    (data : value) : res value :=
  match this !! name with
  | None => Ok VUndefined
  | Some t => apply depth this t data None
  end.

Definition postProcess (object : value) : res value :=
  '(ok, object') ← processNode object ∅;
  Ok (if ok : bool then object' else VUndefined).

Section WithParser.
(** [JSON.parse] of the host. *)
Variable JSON_parse : value -> res value.

(** [postProcess] is the optional third argument. *)
Definition renderAsJSON (depth : nat) (this : gmap string template) (name : string)
    (data : value) (postProcessArg : option bool) : res value :=
  json ← render depth this name data;
  if negb (truthy json) then Ok VNull
  else
    obj ← JSON_parse json;
    match postProcessArg with
    | Some false => Ok obj
    | _ => postProcess obj
    end.

(** The value the returned promise resolves to. *)
Definition renderTemplate (depth : nat) (this : gmap string template)
    (language templateId : string) (data : value) : res value :=
  result ← render depth this (language +:+ "-" +:+ templateId) data;
  if truthy result then JSON_parse result else Ok VUndefined.
End WithParser.

End JsonTemplates.

(** ** The array loop as the source writes it *)

(** [for (let i = n - 1; i >= 0; i--)] over an array changed in place:
    [n] indices are left to visit; a failed element is spliced out, a kept
    one holds what its own processing left. *)
Fixpoint arrayLoop (rec : value -> gmap string value -> res (bool * value))
    (prune : gmap string value) (n : nat) (node : list value) : res (list value) :=
  match n with
  | O => Ok node
  | S i =>
      let val := default VUndefined (node !! i) in
      if flag prune "nullMembers" && isNullish val then arrayLoop rec prune i (delete i node)
      else
        '(ok, val') ← rec val prune;
        if ok : bool then arrayLoop rec prune i (<[i := val']> node)
        else arrayLoop rec prune i (delete i node)
  end.

(** What the loop does with one element: [None] when it is removed. *)
Definition elementResult (prune : gmap string value) (val : value) : res (option value) :=
  if flag prune "nullMembers" && isNullish val then Ok None
  else '(ok, val') ← processNode val prune; Ok (if ok : bool then Some val' else None).

(** ** The calls of processNode, recorded *)

(** A call of [processNode]: the position of its node below the root, as
    the member positions on the way down, and the [prune] it received. *)
Definition visit : Type := list nat * gmap string value.

Definition under (i : nat) (log : list visit) : list visit :=
  map (fun c : visit => (i :: c.1, c.2)) log.

Definition processArrayT (rec : value -> gmap string value -> list visit * res (bool * value))
    (prune : gmap string value) : nat -> list value -> list visit * res (list value) :=
  fix loop (i : nat) (node : list value) :=
    match node with
    | [] => ([], Ok [])
    | val :: rest =>
        let (log, r) := loop (S i) rest in
        match r with
        | Throw e => (log, Throw e)
        | Ok rest' =>
            if flag prune "nullMembers" && isNullish val then (log, Ok rest')
            else
              let (log', r') := rec val prune in
              (log ++ under i log',
               '(ok, val') ← r'; Ok (if ok : bool then val' :: rest' else rest'))
        end
    end.

Definition processMembersT (rec : value -> gmap string value -> list visit * res (bool * value))
    : nat -> list (string * value) -> gmap string value
      -> list visit * res (list value * list (string * value)) :=
  fix loop (i : nat) (node : list (string * value)) (prune : gmap string value) :=
    match node with
    | [] => ([], Ok ([], []))
    | (key, val) :: rest =>
        if String.eqb key "@prune" then loop (S i) rest (Object_assign prune val)
        else if String.eqb key "@if" then
          let (log, r) := loop (S i) rest prune in
          (log, '(conditions, node') ← r; Ok (val :: conditions, node'))
        else if flag prune "nullMembers" && isNullish val then loop (S i) rest prune
        else if flag prune "emptyStrings" && isEmptyString val then loop (S i) rest prune
        else if flag prune "emptyArrays" && isEmptyArray val then loop (S i) rest prune
        else
          let (log, r) := rec val prune in
          match r with
          | Throw e => (under i log, Throw e)
          | Ok (ok, val') =>
              let (log', r') := loop (S i) rest prune in
              (under i log ++ log',
               '(conditions, node') ← r';
               Ok (conditions, if ok : bool then (key, val') :: node' else node'))
          end
    end.

(** [processNode] with the list of the calls it makes, in the order they
    are made, its own call first. *)
Fixpoint processNodeT (node : value) (prune : gmap string value)
    : list visit * res (bool * value) :=
  match node with
  | VArr xs =>
      let (log, r) := processArrayT processNodeT prune 0 xs in
      (([], prune) :: log,
       xs' ← r;
       if flag prune "emptyArrays" && (length xs' =? 0)%nat
       then Ok (false, VArr xs')
       else Ok (true, VArr xs'))
  | VObj ms =>
      let (log, r) := processMembersT processNodeT 0 ms prune in
      (([], prune) :: log,
       '(conditions, ms') ← r;
       ok ← checkConditions (VObj ms') conditions;
       Ok (ok, VObj ms'))
  | _ => ([([], prune)], Ok (true, node))
  end.

(** ** The Prune Config of a subtree, as the specification words it *)

(** The member at position [i] of a node. *)
Definition child (node : value) (i : nat) : option value :=
  match node with
  | VArr xs => xs !! i
  | VObj ms => snd <$> ms !! i
  | _ => None
  end.




(** The values of the [@if] keys of a member list, in order. *)
Fixpoint ifValues (ms : list (string * value)) : list value :=
  match ms with
  | [] => []
  | (key, val) :: rest =>
      if String.eqb key "@prune" then ifValues rest
      else if String.eqb key "@if" then val :: ifValues rest
      else ifValues rest
  end.

(** No [@prune] and no [@if] key anywhere in the value. *)
Fixpoint directiveFree (v : value) : bool :=
  match v with
  | VArr xs => forallb directiveFree xs
  | VObj ms =>
      forallb (fun kv : string * value =>
                 negb (String.eqb kv.1 "@prune") && negb (String.eqb kv.1 "@if")
                 && directiveFree kv.2) ms
  | _ => true
  end.

(** * Definitions used in the statements *)

(** ** Texts *)

Fixpoint allWhite (s : string) : bool :=
  match s with
  | EmptyString => true
  | String c s' => isWhiteSpace c && allWhite s'
  end.

(** No [!] and no [$] in the text: no expression can open. *)
Fixpoint plainText (json : string) : bool :=
  match json with
  | EmptyString => true
  | String c rest =>
      negb (Ascii.eqb c "!") && negb (Ascii.eqb c "$") && plainText rest
  end.

(** ** Values *)

Fixpoint nullFree (v : value) : bool :=
  match v with
  | VNull => false
  | VArr xs => forallb nullFree xs
  | VObj ms => forallb (fun kv : string * value => nullFree kv.2) ms
  | _ => true
  end.

Definition isDirective (key : string) : bool :=
  String.eqb key "@prune" || String.eqb key "@if".

(** The names of the members of [Object.prototype], which an object made
    by [{}] or read by [JSON.parse] inherits. *)
Definition ObjectPrototype : list string :=
  ["constructor"; "__defineGetter__"; "__defineSetter__"; "hasOwnProperty";
   "__lookupGetter__"; "__lookupSetter__"; "isPrototypeOf"; "propertyIsEnumerable";
   "toString"; "valueOf"; "__proto__"; "toLocaleString"].

Definition inherited (name : string) : bool :=
  existsb (String.eqb name) ObjectPrototype.

(** No segment of the path is [__proto__]: the path does not leave the
    data for the prototypes of the host. *)
Definition ownSegments (path : string) : bool :=
  forallb (fun part => negb (String.eqb (trim part) "__proto__")) (split "." path).



(** ** Rendering *)

(** A table with no entries: every function call throws. *)
Definition noTemplates : string -> value -> string -> res value :=
  fun name _ _ => Throw (TypeError_call name).

(** The segments of the array branch, one per element. *)
Fixpoint segments (call : string -> value -> string -> res value)
    (parsed : list fragment) (children : list value) : res (list string) :=
  match children with
  | [] => Ok []
  | c :: rest =>
      s ← forEachFragment call parsed c EmptyString;
      ss ← segments call parsed rest;
      Ok (s :: ss)
  end.

(** ** The array loop, turn by turn *)

(** One turn of the array loop, given what the higher indices left. *)
Definition arrayStep (rec : value -> gmap string value -> res (bool * value))
    (prune : gmap string value) (val : value) (rest' : list value) : res (list value) :=
  if flag prune "nullMembers" && isNullish val then Ok rest'
  else '(ok, val') ← rec val prune; Ok (if ok : bool then val' :: rest' else rest').

(** [f] on every element, from the last one down to the first. *)
Fixpoint forEachDown {A B} (f : A -> res B) (xs : list A) : res (list B) :=
  match xs with
  | [] => Ok []
  | x :: rest => rs ← forEachDown f rest; r ← f x; Ok (r :: rs)
  end.

(** The elements that were not removed. *)
Definition kept (rs : list (option value)) : list value := omap id rs.

(** The member positions at the head of the recorded calls, in call order. *)
Definition firstSteps (log : list visit) : list nat :=
  omap (fun c : visit => head c.1) log.

(** ** Stores and nodes of the examples *)

(** A store that holds one template, and a parser that accepts nothing. *)
Definition oneTemplate : gmap string template :=
  {[ "greeting" := Compiled (parse "{'text':'${name}'}") ]}.

Definition noParser : value -> res value := fun _ => Throw SyntaxError_json.


(** A table template that renders its rows through a row template. *)
Definition rowsStore : gmap string template :=
  <[ "table" := Compiled (parse "{'rows':'!row(rows)'}") ]>
    (<[ "row" := Compiled (parse "{'n':'${n}'}") ]> ∅).


Definition plainStore : gmap string template :=
  <[ "plain" := Compiled (parse "{'type':'message','text':'hello'}") ]> ∅.

(** A node whose condition holds before its member [a] is pruned and fails
    after: [a] fails its own condition and is removed first. *)
Definition conditionOnPruned : list (string * value) :=
  [("@if", VStr "a"); ("a", VObj [("x", VNum 1); ("@if", VStr "nope")])].

(** * Templates as they are written *)

(** A template text seen as its pieces: text outside any quotes, a
    whole-value expression between a quote followed by [!] and the same
    quote, and a quoted string whose body is text and [${...}] expressions. *)
Inductive part : Type :=
| SText (s : string)
| SExpr (path : string).

Inductive piece : Type :=
| PText (s : string)
| PWhole (q : ascii) (path : string)
| PString (q : ascii) (body : list part).

Definition unparsePart (p : part) : string :=
  match p with
  | SText s => s
  | SExpr path => String "$" (String "{" (path +:+ String "}" EmptyString))
  end.

Fixpoint unparseBody (body : list part) : string :=
  match body with
  | [] => EmptyString
  | p :: rest => unparsePart p +:+ unparseBody rest
  end.

Definition unparsePiece (p : piece) : string :=
  match p with
  | PText s => s
  | PWhole q path => String q (String "!" (path +:+ String q EmptyString))
  | PString q body => String q (unparseBody body +:+ String q EmptyString)
  end.

(** The text of a template made of these pieces. *)
Fixpoint unparse (ps : list piece) : string :=
  match ps with
  | [] => EmptyString
  | p :: rest => unparsePiece p +:+ unparse rest
  end.

(** [c] does not occur in [s]. *)
Fixpoint noChar (c : ascii) (s : string) : bool :=
  match s with
  | EmptyString => true
  | String a s' => negb (Ascii.eqb a c) && noChar c s'
  end.

Fixpoint noQuote (s : string) : bool :=
  match s with
  | EmptyString => true
  | String a s' => negb (isQuote a) && noQuote s'
  end.

Definition startsWith (c : ascii) (s : string) : bool :=
  match s with
  | String a _ => Ascii.eqb a c
  | EmptyString => false
  end.

(** The pieces the lexer reads back as they were written: text outside
    quotes holds no quote; the path of a whole-value expression does not
    hold its quote, and that of an embedded one holds no closing brace; the
    text of a string holds neither its quote, nor [$], nor a backslash, and
    the string does not start with [!]. *)
Definition wfPart (q : ascii) (p : part) : bool :=
  match p with
  | SText s => noChar q s && noChar "$" s && noChar "\" s
  | SExpr path => noChar "}" path
  end.

Definition wfPiece (p : piece) : bool :=
  match p with
  | PText s => noQuote s
  | PWhole q path => isQuote q && noChar q path
  | PString q body =>
      isQuote q && forallb (wfPart q) body && negb (startsWith "!" (unparseBody body))
  end.

(** What [parse] is to give for the pieces: the fragments pushed so far and
    the text accumulated since the last one. *)
Definition stepPart (st : list fragment * string) (p : part) : list fragment * string :=
  match p with
  | SText s => (st.1, st.2 +:+ s)
  | SExpr path => (st.1 ++ [appendText st.2; closePath path], EmptyString)
  end.

Definition stepPiece (st : list fragment * string) (p : piece) : list fragment * string :=
  match p with
  | PText s => (st.1, st.2 +:+ s)
  | PWhole q path => (st.1 ++ [appendText st.2; closePath path], EmptyString)
  | PString q body =>
      let st' := foldl stepPart (st.1, snoc st.2 q) body in
      (st'.1, snoc st'.2 q)
  end.

Definition flush (st : list fragment * string) : list fragment :=
  match st.2 with
  | EmptyString => st.1
  | _ => st.1 ++ [appendText st.2]
  end.

Definition fragmentsOf (ps : list piece) : list fragment :=
  flush (foldl stepPiece ([], EmptyString) ps).

(** What rendering is to give for the pieces: the text as it stands, and
    each expression replaced by what its fragment returns. *)
Definition evalExpr (call : string -> value -> string -> res value) (data : value)
    (path : string) (obj : string) : res string :=
  r ← fragmentFn call (closePath path) data; Ok (plusAssign obj r).

Definition evalPart (call : string -> value -> string -> res value) (data : value)
    (obj : string) (p : part) : res string :=
  match p with
  | SText s => Ok (obj +:+ s)
  | SExpr path => evalExpr call data path obj
  end.

Fixpoint evalBody (call : string -> value -> string -> res value) (data : value)
    (body : list part) (obj : string) : res string :=
  match body with
  | [] => Ok obj
  | p :: rest => obj' ← evalPart call data obj p; evalBody call data rest obj'
  end.

Definition evalPiece (call : string -> value -> string -> res value) (data : value)
    (obj : string) (p : piece) : res string :=
  match p with
  | PText s => Ok (obj +:+ s)
  | PWhole q path => evalExpr call data path obj
  | PString q body => obj' ← evalBody call data body (snoc obj q); Ok (snoc obj' q)
  end.

Fixpoint evalPieces (call : string -> value -> string -> res value) (data : value)
    (ps : list piece) (obj : string) : res string :=
  match ps with
  | [] => Ok obj
  | p :: rest => obj' ← evalPiece call data obj p; evalPieces call data rest obj'
  end.

(** The output of the fragments pushed so far, followed by the pending text. *)
Definition runState (call : string -> value -> string -> res value) (data : value)
    (st : list fragment * string) : res string :=
  obj ← forEachFragment call st.1 data EmptyString; Ok (obj +:+ st.2).

(** * What post-processing may do to a tree *)

(** [prunedOf v' v]: [v'] is [v] with some members and some elements
    removed, at any depth; nothing is added, changed or reordered. *)
Inductive prunedOf : value -> value -> Prop :=
| pruned_same v : prunedOf v v
| pruned_array xs' xs : prunedElements xs' xs -> prunedOf (VArr xs') (VArr xs)
| pruned_object ms' ms : prunedMembers ms' ms -> prunedOf (VObj ms') (VObj ms)
with prunedElements : list value -> list value -> Prop :=
| elements_nil : prunedElements [] []
| elements_drop x xs' xs : prunedElements xs' xs -> prunedElements xs' (x :: xs)
| elements_keep x' x xs' xs :
    prunedOf x' x -> prunedElements xs' xs -> prunedElements (x' :: xs') (x :: xs)
with prunedMembers : list (string * value) -> list (string * value) -> Prop :=
| members_nil : prunedMembers [] []
| members_drop kv ms' ms : prunedMembers ms' ms -> prunedMembers ms' (kv :: ms)
| members_keep key x' x ms' ms :
    prunedOf x' x -> prunedMembers ms' ms ->
    prunedMembers ((key, x') :: ms') ((key, x) :: ms).

(** No [@prune] key anywhere in the value. *)
Fixpoint noPruneKey (v : value) : bool :=
  match v with
  | VArr xs => forallb noPruneKey xs
  | VObj ms =>
      forallb (fun kv : string * value =>
                 negb (String.eqb kv.1 "@prune") && noPruneKey kv.2) ms
  | _ => true
  end.

(** No member and no element, at any depth, is [null] or [undefined]. *)
Fixpoint noNullishInside (v : value) : bool :=
  match v with
  | VArr xs => forallb (fun x => negb (isNullish x) && noNullishInside x) xs
  | VObj ms =>
      forallb (fun kv : string * value =>
                 negb (isNullish kv.2) && noNullishInside kv.2) ms
  | _ => true
  end.

(** A string, a number or a boolean. *)
Definition isPlainScalar (v : value) : bool :=
  match v with VStr _ | VNum _ | VBool _ => true | _ => false end.

(** [typeof result === 'string' ? result : JSON.stringify(result)], as it
    is appended to the output. *)
Definition resultText (result : value) : string :=
  match result with
  | VStr s => s
  | _ => default "undefined" (stringify result)
  end.

(** A parser that knows one text. *)
Definition parserOf (text : string) (v : value) : value -> res value :=
  fun json => match json with
              | VStr s => if String.eqb s text then Ok v else Throw SyntaxError_json
              | _ => Throw SyntaxError_json
              end.

(** The character before the current one after the scanner has read [a]:
    the last character of [a], or [prev] when [a] is empty. *)
Definition lastOr (prev : option ascii) (a : string) : option ascii :=
  match lastChar a with Some c => Some c | None => prev end.

(** * Middleware (middlewareSet.js, botService.js)

    A middleware plugin is an object that may define [contextCreated],
    [receiveActivity] and [postActivity]. A handler receives the context
    and [next], the function that runs the rest of the chain, and returns
    what the chain returns (a promise in the source, any type [R] here: the
    set only passes it on). The effects of the handlers are inside [R]. *)

Record Middleware (Context Activities R : Type) : Type := {
  contextCreated : option (Context -> (unit -> R) -> R);
  receiveActivity : option (Context -> (unit -> R) -> R);
  postActivity : option (Context -> Activities -> (unit -> R) -> R)
}.
Arguments contextCreated {Context Activities R} _.
Arguments receiveActivity {Context Activities R} _.
Arguments postActivity {Context Activities R} _.

Module MiddlewareSet.
Section Chain.
Context {Context Activities R : Type}.

(** [removeAll()], the getter [middleware] and [use(...middleware)], on the
    array [this._middleware]. *)
Definition removeAll (this : list (Middleware Context Activities R))
    : list (Middleware Context Activities R) := [].

Definition middleware (this : list (Middleware Context Activities R))
    : list (Middleware Context Activities R) := this.


(** [callMiddleware(set, i)] of [contextCreated]: [set] here is the part of
    the array from index [i] on. *)
Fixpoint callMiddleware_contextCreated (context : Context) (next : unit -> R)
    (set : list (Middleware Context Activities R)) : R :=
  match set with
  | [] => next tt
  | plugin :: rest =>
      match contextCreated plugin with
      | Some handler =>
          handler context (fun _ => callMiddleware_contextCreated context next rest)
      | None => callMiddleware_contextCreated context next rest
      end
  end.

Fixpoint callMiddleware_receiveActivity (context : Context) (next : unit -> R)
    (set : list (Middleware Context Activities R)) : R :=
  match set with
  | [] => next tt
  | plugin :: rest =>
      match receiveActivity plugin with
      | Some handler =>
          handler context (fun _ => callMiddleware_receiveActivity context next rest)
      | None => callMiddleware_receiveActivity context next rest
      end
  end.

Fixpoint callMiddleware_postActivity (context : Context) (activities : Activities)
    (next : unit -> R) (set : list (Middleware Context Activities R)) : R :=
  match set with
  | [] => next tt
  | plugin :: rest =>
      match postActivity plugin with
      | Some handler =>
          handler context activities
            (fun _ => callMiddleware_postActivity context activities next rest)
      | None => callMiddleware_postActivity context activities next rest
      end
  end.

(** The three methods: the chain over a copy of the array, from index 0. *)
Definition contextCreated (this : list (Middleware Context Activities R))
    (context : Context) (next : unit -> R) : R :=
  callMiddleware_contextCreated context next this.

Definition receiveActivity (this : list (Middleware Context Activities R))
    (context : Context) (next : unit -> R) : R :=
  callMiddleware_receiveActivity context next this.

Definition postActivity (this : list (Middleware Context Activities R))
    (context : Context) (activities : Activities) (next : unit -> R) : R :=
  callMiddleware_postActivity context activities next this.

(** The set seen as a plugin, as [use(mySet)] registers it; [this] is the
    array the set holds when the handler is called. *)
Definition asMiddleware (this : list (Middleware Context Activities R))
    : Middleware Context Activities R :=
  Build_Middleware Context Activities R
    (Some (contextCreated this)) (Some (receiveActivity this)) (Some (postActivity this)).
End Chain.
End MiddlewareSet.

(** ** BotService (botService.js)

    The context is one object that the handlers change in place, and [next]
    takes no argument: a handler is a state transformer over the own
    properties of the context, which may throw. The context handed to a
    handler is the reference to that object, [unit] here. The context is a
    plain object: its prototype is [Object.prototype].

    [context.logger.log] and [TraceLevel] are not defined in this
    repository: the statement [context.logger.log(message,
    TraceLevel.warning)] is the parameter [log], which may change the
    context and may throw. [context.hasOwnProperty] is the method of
    [Object.prototype] unless the context has an own property of that name;
    what calling such an own property gives is the parameter
    [ownHasOwnProperty]. The context is the map of its own properties, and an
    assignment adds or replaces one: this is so for every name but
    [__proto__], whose assignment would set the prototype. *)

Module BotService.
Section Service.
Context {V Activities A : Type}.

Definition turn : Type := gmap string V -> res (A * gmap string V).

Variable log : string -> gmap string V -> res (gmap string V).
Variable ownHasOwnProperty : V -> string -> gmap string V -> res (bool * gmap string V).

Record t : Type := { name : string; instance : V }.

(** [context.hasOwnProperty(name)], as the condition of the [if]. *)
Definition hasOwnProperty (key : string) (c : gmap string V) : res (bool * gmap string V) :=
  match c !! "hasOwnProperty" with
  | Some method => ownHasOwnProperty method key c
  | None => Ok (bool_decide (is_Some (c !! key)), c)
  end.

Definition message (key : string) : string :=
  "A service named '" +:+ key +:+ "' is already registered with the context object.".

Definition getService (this : t) (c : gmap string V) : V := instance this.

Definition contextCreated (this : t) (_ : unit) (next : unit -> turn) : turn :=
  fun c =>
    '(registered, c) ← hasOwnProperty (name this) c;
    c ← (if registered : bool then log (message (name this)) c else Ok c);
    next tt (<[name this := getService this c]> c).

(** The service as a plugin: it defines [contextCreated] only. *)
Definition asMiddleware (this : t) : Middleware unit Activities turn :=
  Build_Middleware unit Activities turn (Some (contextCreated this)) None None.

(** The context after the services were added to it in order. *)
Definition registerAll (services : list t) (c : gmap string V) : gmap string V :=
  foldl (fun c service => <[name service := instance service]> c) c services.
End Service.
End BotService.

(** * The adapter (BotFrameworkAdapter, parseRequest)

    A promise is modelled by what it settles to; the adapter's promises
    settle once the request stream has ended and the connector has answered.
    What is rejected or thrown is an [Error] made by the adapter, an error
    thrown by the engine, or whatever the code outside this repository (the
    connector, the authentication, the middleware and the bot's logic)
    throws or rejects with; a [try] block around a call makes no difference
    between the two.

    Activities, requests and headers are values. The members the adapter
    reads have constant names, none of them [length] or an index, so that
    [getMember] gives what the access gives on strings as well. *)

Module BotFrameworkAdapter.

Inductive reason (E : Type) : Type :=
| JsError (message : string)
| Uncaught (e : error)
| External (e : E).
Arguments JsError {E} message.
Arguments Uncaught {E} e.
Arguments External {E} e.

Inductive promise (E A : Type) : Type :=
| Resolved (a : A)
| Rejected (r : reason E).
Arguments Resolved {E A} a.
Arguments Rejected {E A} r.

(** [v.key], which throws on [undefined] and on [null]. *)
Definition prop (v : value) (key : string) : res value :=
  match v with
  | VUndefined => Throw (TypeError_member key)
  | _ => getMember v key
  end.

(** [v === text], for a string literal [text]. *)
Definition isText (v : value) (text : string) : bool :=
  match v with VStr s => String.eqb s text | _ => false end.

(** The calls of the connector client made for a service url. *)
Inductive call : Type :=
| ReplyToActivity (serviceUrl conversationId replyToId activity : value)
| SendToConversation (serviceUrl conversationId activity : value)
| UpdateActivity (serviceUrl conversationId activityId activity : value)
| DeleteActivity (serviceUrl conversationId activityId : value).

Inductive event : Type :=
| SetTimeout (ms : Z)
| Connector (c : call).

(** The turn: the entry of [context.services] under [INVOKE_RESPONSE_KEY],
    what has been done so far, and the state of the world outside. *)
Record turn (W : Type) : Type := {
  invokeResponse : option value;
  events : list event;
  world : W
}.
Arguments invokeResponse {W} _.
Arguments events {W} _.
Arguments world {W} _.

(** An Express or Restify request: its body, if a body parser has set one,
    its headers, and the chunks its stream delivers before it ends. *)
Record WebRequest : Type := {
  body : value;
  headers : value;
  chunks : list string
}.

(** What is done to the response object and to the console. *)
Inductive output : Type :=
| ConsoleWarn (text : string)
| ResSend (status body : value)
| ResEnd.

Section Adapter.
Context {E W : Type}.

(** [createConnectorClient(serviceUrl)] and the call of one of the client's
    methods: the answer of the connector, or what it throws or rejects with. *)
Variable connector : call -> W -> (E + value) * W.

Definition setTimeout (ms : Z) (t : turn W) : turn W :=
  {| invokeResponse := invokeResponse t;
     events := events t ++ [SetTimeout ms];
     world := world t |}.

Definition servicesSet (activity : value) (t : turn W) : turn W :=
  {| invokeResponse := Some activity; events := events t; world := world t |}.

Definition callConnector (c : call) (t : turn W) : turn W * promise E value :=
  let '(answer, w) := connector c (world t) in
  ({| invokeResponse := invokeResponse t;
      events := events t ++ [Connector c];
      world := w |},
   match answer with
   | inl e => Rejected (External e)
   | inr response => Resolved response
   end).

(** The [default] case of [sendActivities] up to the call of the client: the
    message of the [Error] thrown, or the call to make. *)
Definition outgoing (activity : value) : res (string + call) :=
  serviceUrl ← prop activity "serviceUrl";
  if negb (truthy serviceUrl)
  then Ok (inl "BotFrameworkAdapter.sendActivity(): missing serviceUrl.")
  else
    conversation ← prop activity "conversation";
    id ← (if truthy conversation then prop conversation "id" else Ok VUndefined);
    if negb (truthy conversation) || negb (truthy id)
    then Ok (inl "BotFrameworkAdapter.sendActivity(): missing conversation id.")
    else
      replyToId ← prop activity "replyToId";
      Ok (inr (if truthy replyToId
               then ReplyToActivity serviceUrl id replyToId activity
               else SendToConversation serviceUrl id activity)).

(** [next(i)] of [sendActivities]: [activities] is the part of the array
    from index [i] on, [responses] the array filled so far. *)
Fixpoint next (activities : list value) (responses : list value) (t : turn W)
    : turn W * promise E (list value) :=
  match activities with
  | [] => (t, Resolved responses)
  | activity :: rest =>
      match prop activity "type" with
      | Throw e => (t, Rejected (Uncaught e))
      | Ok type =>
          if isText type "delay" then
            match prop activity "value" with
            | Throw e => (t, Rejected (Uncaught e))
            | Ok v =>
                let ms := match v with VNum n => n | _ => 1000 end in
                next rest (responses ++ [VObj []]) (setTimeout ms t)
            end
          else if isText type "invokeResponse" then
            next rest (responses ++ [VObj []]) (servicesSet activity t)
          else
            match outgoing activity with
            | Throw e => (t, Rejected (Uncaught e))
            | Ok (inl message) => (t, Rejected (JsError message))
            | Ok (inr c) =>
                match callConnector c t with
                | (t', Resolved response) => next rest (responses ++ [response]) t'
                | (t', Rejected err) => (t', Rejected err)
                end
            end
      end
  end.

Definition sendActivities (activities : list value) (t : turn W)
    : turn W * promise E (list value) :=
  next activities [] t.

(** [updateActivity(context, activity)]. *)
Definition updating (activity : value) : res (string + call) :=
  serviceUrl ← prop activity "serviceUrl";
  if negb (truthy serviceUrl)
  then Ok (inl "BotFrameworkAdapter.updateActivity(): missing serviceUrl")
  else
    conversation ← prop activity "conversation";
    conversationId ←
      (if truthy conversation then prop conversation "id" else Ok VUndefined);
    if negb (truthy conversation) || negb (truthy conversationId)
    then Ok (inl "BotFrameworkAdapter.updateActivity(): missing conversation or conversation.id")
    else
      id ← prop activity "id";
      if negb (truthy id)
      then Ok (inl "BotFrameworkAdapter.updateActivity(): missing activity.id")
      else Ok (inr (UpdateActivity serviceUrl conversationId id activity)).

Definition updateActivity (activity : value) (t : turn W) : turn W * promise E value :=
  match updating activity with
  | Throw e => (t, Rejected (Uncaught e))
  | Ok (inl message) => (t, Rejected (JsError message))
  | Ok (inr c) =>
      match callConnector c t with
      | (t', Resolved _) => (t', Resolved VUndefined)
      | (t', Rejected err) => (t', Rejected err)
      end
  end.

(** [deleteActivity(context, reference)]. *)
Definition deleting (reference : value) : res (string + call) :=
  serviceUrl ← prop reference "serviceUrl";
  if negb (truthy serviceUrl)
  then Ok (inl "BotFrameworkAdapter.deleteActivity(): missing serviceUrl")
  else
    conversation ← prop reference "conversation";
    conversationId ←
      (if truthy conversation then prop conversation "id" else Ok VUndefined);
    if negb (truthy conversation) || negb (truthy conversationId)
    then Ok (inl "BotFrameworkAdapter.deleteActivity(): missing conversation or conversation.id")
    else
      activityId ← prop reference "activityId";
      if negb (truthy activityId)
      then Ok (inl "BotFrameworkAdapter.deleteActivity(): missing activityId")
      else Ok (inr (DeleteActivity serviceUrl conversationId activityId)).

Definition deleteActivity (reference : value) (t : turn W) : turn W * promise E value :=
  match deleting reference with
  | Throw e => (t, Rejected (Uncaught e))
  | Ok (inl message) => (t, Rejected (JsError message))
  | Ok (inr c) => callConnector c t
  end.

(** ** parseRequest *)

Variable JSON_parse : value -> res value.

Definition returnActivity (activity : value) : promise E value :=
  if negb (isObjectType activity)
  then Rejected (JsError "BotFrameworkAdapter.parseRequest(): invalid request body.")
  else
    match prop activity "type" with
    | Throw e => Rejected (Uncaught e)
    | Ok type =>
        match type with
        | VStr _ => Resolved activity
        | _ => Rejected (JsError "BotFrameworkAdapter.parseRequest(): missing activity type.")
        end
    end.

(** The request after the call, whose body the second branch sets, and what
    the promise settles to. *)
Definition parseRequest (req : WebRequest) : WebRequest * promise E value :=
  if truthy (body req) then (req, returnActivity (body req))
  else
    let requestData := foldl (fun data chunk => data +:+ chunk) EmptyString (chunks req) in
    match JSON_parse (VStr requestData) with
    | Throw e => (req, Rejected (Uncaught e))
    | Ok parsed =>
        ({| body := parsed; headers := headers req; chunks := chunks req |},
         returnActivity parsed)
    end.

(** ** processActivity

    [authenticateRequest] is the validation of the token by the connector
    library. [runMiddleware] stands for [createContext(request)] followed by
    [runMiddleware(context, logic)] of the base class, which runs the
    middleware and the bot's logic: it gives what is then found in
    [context.services] under [INVOKE_RESPONSE_KEY], if anything.
    [ActivityTypes_Invoke] is [ActivityTypes.Invoke]. The response object
    records what is sent and does not throw. *)

Variable authenticateRequest : value -> value -> W -> (E + unit) * W.
Variable runMiddleware : value -> W -> promise E (option value) * W.
Variable ActivityTypes_Invoke : string.

(** [err.toString()], where [err] is what was thrown or rejected: the text,
    or what the call throws. An [Error] made by the adapter gives its name
    and its message; an error of the engine gives the text the engine has
    for it, [engineText]. For what comes from outside the repository,
    [describe] is the text its [toString] gives, or what that call throws:
    a [TypeError] when the rejection is [undefined] or [null], which have no
    [toString]. The text is a function of the error. *)
Variable engineText : error -> string.
Variable describe : E -> reason E + string.

Definition toString (err : reason E) : reason E + string :=
  match err with
  | JsError message =>
      inr (if String.eqb message EmptyString then "Error" else "Error: " +:+ message)
  | Uncaught e => inr (engineText e)
  | External e => describe e
  end.

(** The handler given to [catch], for the value [errorCode] has then: what
    it does to the console and to the response, and what it throws. The
    text of the error is made first, for the warning: when that throws,
    nothing is logged and nothing is sent. *)
Definition rejectResponse (errorCode : Z) (err : reason E) : list output * reason E :=
  match toString err with
  | inr text =>
      ([ConsoleWarn ("BotFrameworkAdapter.processActivity(): " +:+ pretty errorCode
                     +:+ " ERROR - " +:+ text);
        ResSend (VNum errorCode) (VStr text);
        ResEnd],
       err)
  | inl thrown => ([], thrown)
  end.

(** What [processActivity] settles to when the chain is rejected. *)
Definition rejectWith (errorCode : Z) (err : reason E) (w : W)
    : list output * promise E unit * W :=
  ((rejectResponse errorCode err).1, Rejected (rejectResponse errorCode err).2, w).

(** The last [then]: the response to a turn that ran through. *)
Definition respond (request : value) (cached : option value) : res (string + list output) :=
  type ← prop request "type";
  if isText type ActivityTypes_Invoke then
    let invokeResponse := default VUndefined cached in
    val ← (if truthy invokeResponse then prop invokeResponse "value" else Ok invokeResponse);
    if truthy val then
      status ← prop val "status";
      body ← prop val "body";
      Ok (inr [ResSend status body; ResEnd])
    else Ok (inl "Bot failed to return a valid 'invokeResponse' activity.")
  else Ok (inr [ResSend (VNum 202) VUndefined; ResEnd]).

Definition processActivity (req : WebRequest) (w : W)
    : list output * promise E unit * W :=
  let '(req, parsed) := parseRequest req in
  match parsed with
  | Rejected err => rejectWith 500 err w
  | Resolved request =>
      match prop (headers req) "authorization" with
      | Throw e => rejectWith 401 (Uncaught e) w
      | Ok header =>
          let authHeader := if truthy header then header else VStr EmptyString in
          match authenticateRequest request authHeader w with
          | (inl e, w) => rejectWith 401 (External e) w
          | (inr _, w) =>
              match runMiddleware request w with
              | (Rejected err, w) => rejectWith 500 err w
              | (Resolved cached, w) =>
                  match respond request cached with
                  | Throw e => rejectWith 500 (Uncaught e) w
                  | Ok (inl message) => rejectWith 500 (JsError message) w
                  | Ok (inr sent) => (sent, Resolved tt, w)
                  end
              end
          end
      end
  end.
End Adapter.

(** ** Definitions used in the statements about the adapter *)

(** An activity the adapter handles itself: a delay or an invoke response. *)
Definition isLocal (activity : value) : bool :=
  match prop activity "type" with
  | Ok type => isText type "delay" || isText type "invokeResponse"
  | Throw _ => false
  end.

(** The activity a connector call of [sendActivities] carries. *)
Definition sentActivity (e : event) : option value :=
  match e with
  | Connector (ReplyToActivity _ _ _ activity)
  | Connector (SendToConversation _ _ activity) => Some activity
  | _ => None
  end.

Definition isConnector (e : event) : bool :=
  match e with Connector _ => true | SetTimeout _ => false end.

(** The last invoke response among the activities, or [cached] if there is
    none. *)
Definition lastInvokeResponse (cached : option value) (activities : list value)
    : option value :=
  foldl (fun cached activity =>
           match prop activity "type" with
           | Ok type => if isText type "invokeResponse" then Some activity else cached
           | Throw _ => cached
           end) cached activities.

(** The delay an activity of type [delay] asks for. *)
Definition timeoutOf (activity : value) : option Z :=
  match prop activity "type" with
  | Ok type =>
      if isText type "delay"
      then Some (match prop activity "value" with Ok (VNum n) => n | _ => 1000 end)
      else None
  | Throw _ => None
  end.

(** A response answers an activity: it is [{}] when the activity is one the
    adapter handles itself. *)
Definition answers (activity response : value) : Prop :=
  isLocal activity = true -> response = VObj [].

(** The address a connector call is made with is the one its activity (or
    reference) holds, and no part of it is missing. *)
Definition conversationIdOf (activity : value) : res value :=
  conversation ← prop activity "conversation"; prop conversation "id".

Definition hasAddress (subject serviceUrl conversationId : value) : Prop :=
  prop subject "serviceUrl" = Ok serviceUrl /\ truthy serviceUrl = true
  /\ conversationIdOf subject = Ok conversationId /\ truthy conversationId = true.

(** The call [sendActivities] makes for an activity: a reply when the
    activity holds the id of the activity it replies to. *)
Definition sends (activity : value) (c : call) : Prop :=
  match c with
  | ReplyToActivity serviceUrl conversationId replyToId carried =>
      carried = activity /\ hasAddress activity serviceUrl conversationId
      /\ prop activity "replyToId" = Ok replyToId /\ truthy replyToId = true
  | SendToConversation serviceUrl conversationId carried =>
      carried = activity /\ hasAddress activity serviceUrl conversationId
      /\ exists replyToId,
           prop activity "replyToId" = Ok replyToId /\ truthy replyToId = false
  | _ => False
  end.

(** The call [updateActivity] makes for an activity. *)
Definition updates (activity : value) (c : call) : Prop :=
  match c with
  | UpdateActivity serviceUrl conversationId activityId carried =>
      carried = activity /\ hasAddress activity serviceUrl conversationId
      /\ prop activity "id" = Ok activityId /\ truthy activityId = true
  | _ => False
  end.

(** The call [deleteActivity] makes for a conversation reference. *)
Definition deletes (reference : value) (c : call) : Prop :=
  match c with
  | DeleteActivity serviceUrl conversationId activityId =>
      hasAddress reference serviceUrl conversationId
      /\ prop reference "activityId" = Ok activityId /\ truthy activityId = true
  | _ => False
  end.

(** What [sendActivities] did for one of the activities: the call of the
    connector for an activity it does not handle itself, or the timer of a
    delay. *)
Definition doneFor (activities : list value) (e : event) : Prop :=
  exists activity, In activity activities
    /\ match e with
       | Connector c => isLocal activity = false /\ sends activity c
       | SetTimeout ms => timeoutOf activity = Some ms
       end.

(** What was sent and ended on the response object. *)
Definition responses (out : list output) : list output :=
  List.filter (fun o => match o with ConsoleWarn _ => false | _ => true end) out.
End BotFrameworkAdapter.

(** * Properties *)

(** ** Results *)

Lemma bind_Ok {A B} (m : res A) (f : A -> res B) (b : B) :
  m ≫= f = Ok b -> exists a, m = Ok a /\ f a = Ok b.
Proof. destruct m as [a|e]; simpl; [eauto | discriminate]. Qed.

Lemma bind_ret_pair {A B} (m : res (A * B)) :
  ('(a, b) ← m; Ok (a, b)) = m.
Proof. destruct m as [[a b]|e]; reflexivity. Qed.

Lemma bind_Throw {A B} (m : res A) (f : A -> res B) (e : error) :
  m = Throw e -> m ≫= f = Throw e.
Proof. intros ->; reflexivity. Qed.

Ltac inv_bind H :=
  let a := fresh "a" in
  let Ha := fresh "Hm" in
  apply bind_Ok in H; destruct H as (a & Ha & H).

(** ** Induction on values through their members *)

Lemma value_members_ind (P : value -> Prop) :
  P VUndefined -> P VNull ->
  (forall b, P (VBool b)) -> (forall n, P (VNum n)) -> (forall s, P (VStr s)) ->
  (forall xs, Forall P xs -> P (VArr xs)) ->
  (forall ms, Forall (fun kv => P kv.2) ms -> P (VObj ms)) ->
  forall v, P v.
Proof.
  intros Hu Hn Hb Hz Hs Ha Ho.
  fix IH 1. intros [| |b|n|s|xs|ms];
    [exact Hu | exact Hn | apply Hb | apply Hz | apply Hs | |].
  - apply Ha. induction xs as [|x xs IHxs]; constructor; [apply IH | exact IHxs].
  - apply Ho. induction ms as [|[k x] ms IHms]; constructor; [apply IH | exact IHms].
Qed.

(** ** Strings: appending, positions, reversal and trimming *)

Lemma append_cons (c : ascii) (s t : string) : String c s +:+ t = String c (s +:+ t).
Proof. reflexivity. Qed.

Lemma append_nil_l (s : string) : "" +:+ s = s.
Proof. reflexivity. Qed.

Lemma append_nil_r (s : string) : s +:+ "" = s.
Proof. induction s as [|c s IH]; [reflexivity | now rewrite append_cons, IH]. Qed.

Lemma append_assoc (a b c : string) : (a +:+ b) +:+ c = a +:+ (b +:+ c).
Proof. induction a as [|x a IH]; [reflexivity | now rewrite !append_cons, IH]. Qed.

Lemma length_append (a b : string) :
  String.length (a +:+ b) = (String.length a + String.length b)%nat.
Proof.
  induction a as [|x a IH]; [reflexivity |].
  rewrite append_cons. simpl. now rewrite IH.
Qed.

Lemma strlen_cons c s : strlen (String c s) = strlen s + 1.
Proof. unfold strlen. simpl String.length. lia. Qed.

Lemma strlen_nonneg s : 0 <= strlen s.
Proof. unfold strlen. lia. Qed.

Lemma indexOf_bound c s : -1 <= indexOf c s.
Proof.
  induction s as [|a s IH]; simpl; [lia |].
  destruct (Ascii.eqb a c); [lia |].
  destruct (indexOf c s <? 0) eqn:E; lia.
Qed.

Lemma indexOf_first c a b :
  indexOf c a = -1 -> indexOf c (a +:+ String c b) = strlen a.
Proof.
  induction a as [|x a IH]; intros H.
  - simpl. now rewrite Ascii.eqb_refl.
  - rewrite append_cons, strlen_cons. simpl in *.
    destruct (Ascii.eqb x c); [discriminate |].
    destruct (indexOf c a <? 0) eqn:E.
    + pose proof (indexOf_bound c a). apply Z.ltb_lt in E.
      rewrite IH by lia. pose proof (strlen_nonneg a).
      destruct (strlen a <? 0) eqn:E'; [apply Z.ltb_lt in E'; lia | reflexivity].
    + apply Z.ltb_ge in E. lia.
Qed.

Lemma lastIndexOf_bound c s : -1 <= lastIndexOf c s.
Proof.
  induction s as [|a s IH]; simpl; [lia |].
  destruct (0 <=? lastIndexOf c s) eqn:E; [apply Z.leb_le in E; lia |].
  destruct (Ascii.eqb a c); lia.
Qed.

Lemma lastIndexOf_last c a b :
  lastIndexOf c b = -1 -> lastIndexOf c (a +:+ String c b) = strlen a.
Proof.
  intros H. induction a as [|x a IH].
  - simpl. rewrite H. simpl. now rewrite Ascii.eqb_refl.
  - rewrite append_cons, strlen_cons. simpl. rewrite IH.
    pose proof (strlen_nonneg a).
    destruct (0 <=? strlen a) eqn:E; [reflexivity | apply Z.leb_gt in E; lia].
Qed.

Lemma lastIndexOf_allWhite c s :
  isWhiteSpace c = false -> allWhite s = true -> lastIndexOf c s = -1.
Proof.
  intros Hc. induction s as [|a s IH]; intros H; [reflexivity |].
  simpl in *. apply andb_prop in H as [Ha Hs]. rewrite (IH Hs). simpl.
  destruct (Ascii.eqb_spec a c) as [->|]; [congruence | reflexivity].
Qed.

Lemma substring_prefix a b :
  String.substring 0 (String.length a) (a +:+ b) = a.
Proof.
  induction a as [|x a IH].
  - simpl. destruct b; reflexivity.
  - rewrite append_cons. simpl. now rewrite IH.
Qed.

Lemma substring_skip a b n :
  String.substring (String.length a) n (a +:+ b) = String.substring 0 n b.
Proof. induction a as [|x a IH]; [reflexivity | rewrite append_cons; exact IH]. Qed.

Lemma strRev_onto_app s acc : strRev_onto s acc = strRev s +:+ acc.
Proof.
  unfold strRev. revert acc. induction s as [|c s IH]; intros acc; [reflexivity |].
  simpl. rewrite IH, (IH (String c EmptyString)), append_assoc. reflexivity.
Qed.

Lemma strRev_cons c s : strRev (String c s) = strRev s +:+ String c EmptyString.
Proof. unfold strRev at 1. simpl. apply strRev_onto_app. Qed.

Lemma strRev_app a b : strRev (a +:+ b) = strRev b +:+ strRev a.
Proof.
  induction a as [|c a IH].
  - rewrite append_nil_l. now rewrite append_nil_r.
  - rewrite append_cons, !strRev_cons, IH, append_assoc. reflexivity.
Qed.

Lemma allWhite_app a b : allWhite (a +:+ b) = allWhite a && allWhite b.
Proof.
  induction a as [|c a IH]; [reflexivity |].
  rewrite append_cons. simpl. now rewrite IH, andb_assoc.
Qed.

Lemma allWhite_strRev s : allWhite (strRev s) = allWhite s.
Proof.
  induction s as [|c s IH]; [reflexivity |].
  rewrite strRev_cons, allWhite_app, IH. simpl. rewrite andb_true_r. apply andb_comm.
Qed.

Lemma trimStart_white w c s :
  allWhite w = true -> isWhiteSpace c = false ->
  trimStart (w +:+ String c s) = String c s.
Proof.
  intros Hw Hc. induction w as [|x w IH].
  - simpl. now rewrite Hc.
  - rewrite append_cons. simpl in *. apply andb_prop in Hw as [-> Hw]. now apply IH.
Qed.

Lemma lastChar_snoc s c : lastChar (s +:+ String c EmptyString) = Some c.
Proof.
  induction s as [|x s IH]; [reflexivity |].
  rewrite append_cons. simpl. rewrite IH.
  destruct (s +:+ String c EmptyString) eqn:E; [| reflexivity].
  destruct s; discriminate.
Qed.

(** Trimming the end removes the trailing white space and stops at the
    last character that is not white space. *)
Lemma trimEnd_white s c w :
  allWhite w = true -> isWhiteSpace c = false ->
  trimEnd (s +:+ String c w) = s +:+ String c EmptyString.
Proof.
  intros Hw Hc. unfold trimEnd.
  rewrite strRev_app, strRev_cons, append_assoc. 
  change (String c EmptyString +:+ strRev s) with (String c (strRev s)).
  rewrite trimStart_white by (now rewrite ?allWhite_strRev).
  rewrite strRev_cons.
  assert (Hinv : forall u, strRev (strRev u) = u).
  { induction u as [|x u IH]; [reflexivity |].
    rewrite strRev_cons, strRev_app, IH. reflexivity. }
  now rewrite Hinv.
Qed.

(** Trimming the start keeps everything from the first character that is
    not white space on. *)
Lemma trimStart_suffix s c t :
  isWhiteSpace c = false ->
  exists s', trimStart (s +:+ String c t) = s' +:+ String c t.
Proof.
  intros Hc. induction s as [|x s IH].
  - exists EmptyString. simpl. now rewrite Hc.
  - rewrite append_cons. simpl. destruct (isWhiteSpace x).
    + exact IH.
    + exists (String x s). reflexivity.
Qed.

Lemma lastChar_trim s w :
  allWhite w = true -> lastChar (trim (s +:+ String ")"%char w)) = Some ")"%char.
Proof.
  intros Hw. unfold trim.
  destruct (trimStart_suffix s ")"%char w eq_refl) as [s' ->].
  rewrite trimEnd_white by (exact Hw || reflexivity).
  apply lastChar_snoc.
Qed.

(** ** getValue *)

Lemma walk_not_object (v : value) (parts : list string) :
  isObjectType v = false ->
  walk v parts = Ok (match parts with [] => v | _ => VUndefined end).
Proof. intros H. destruct parts; simpl; [reflexivity | now rewrite H]. Qed.

Lemma split_cons (sep : ascii) (s : string) :
  exists part parts, split sep s = part :: parts.
Proof.
  induction s as [|c s IH]; simpl; [eauto |].
  destruct (Ascii.eqb c sep); [eauto |].
  destruct IH as (p & ps & ->). eauto.
Qed.

(** A value that is neither an object, an array nor [null] resolves every
    path to [undefined]. *)
Lemma getValue_scalar (v : value) (path : string) :
  isObjectType v = false -> getValue v path = Ok VUndefined.
Proof.
  intros H. unfold getValue.
  destruct (split_cons "." path) as (p & ps & ->).
  now rewrite walk_not_object.
Qed.

(** [null] is let through the [typeof] test, and the member access on it
    throws. *)
Lemma getValue_null (path : string) :
  exists member, getValue VNull path = Throw (TypeError_member member).
Proof.
  unfold getValue. destruct (split_cons "." path) as (p & ps & ->).
  simpl. eauto.
Qed.

(** C6, at the input where the code departs from it: resolving [a.b]
    against [{"a": null}] reaches [null] after the first segment; the
    [typeof] test takes [null] for an addressable value, and the member
    access on it throws instead of giving [undefined]. A number in the place
    of [null] gives [undefined]. The throw reaches [render] through a
    property fragment and [postProcess] through an [@if] condition. *)
Theorem getValue_throws_below_null :
  getValue (VObj [("a", VNull)]) "a.b" = Throw (TypeError_member "b")
  /\ getValue VNull "a" = Throw (TypeError_member "a")
  /\ getValue (VObj [("a", VNum 1)]) "a.b" = Ok VUndefined
  /\ JsonTemplates.render 8 (<["t" := Compiled (parse "{'v':'${a.b}'}")]> ∅) "t"
       (VObj [("a", VNull)]) = Throw (TypeError_member "b")
  /\ JsonTemplates.postProcess (VObj [("@if", VStr "a.b"); ("a", VNull)])
     = Throw (TypeError_member "b").
Proof. repeat split; vm_compute; reflexivity. Qed.

Lemma assoc_In key ms v : assoc key ms = Some v -> exists k, In (k, v) ms.
Proof.
  induction ms as [|[k x] rest IH]; intros H; simpl in H; [discriminate |].
  destruct (String.eqb k key).
  - injection H as ->. exists k. now left.
  - destruct (IH H) as [k' Hin]. exists k'. now right.
Qed.

Lemma assoc_imap key (g : nat -> string) xs v :
  assoc key (imap (fun i x => (g i, x)) xs) = Some v -> In v xs.
Proof.
  revert g. induction xs as [|x rest IH]; intros g H; simpl in H; [discriminate |].
  destruct (String.eqb (g 0%nat) key).
  - injection H as ->. now left.
  - right. exact (IH (g ∘ S) H).
Qed.

Lemma getMember_nullFree v member :
  nullFree v = true ->
  exists r, getMember v member = Ok r /\ nullFree r = true.
Proof.
  intros Hfree. destruct v as [| | b | n | s | xs | ms]; simpl in *;
    try discriminate; try (eexists; split; reflexivity).
  - destruct (String.eqb member "length"); [eexists; split; reflexivity |].
    destruct (assoc member (indexed xs)) as [x|] eqn:E; simpl;
      [| eexists; split; reflexivity].
    exists x. split; [reflexivity |]. apply assoc_imap in E.
    rewrite forallb_forall in Hfree. now apply Hfree.
  - destruct (assoc member ms) as [x|] eqn:E; simpl; [| eexists; split; reflexivity].
    exists x. split; [reflexivity |]. apply assoc_In in E as [k Hin].
    rewrite forallb_forall in Hfree. exact (Hfree (k, x) Hin).
Qed.

Lemma walk_nullFree parts : forall v,
  nullFree v = true -> exists r, walk v parts = Ok r /\ nullFree r = true.
Proof.
  induction parts as [|part rest IH]; intros v Hfree; simpl; [eauto |].
  destruct (isObjectType v); [| eexists; split; reflexivity].
  destruct (getMember_nullFree v (trim part) Hfree) as (r & -> & Hr). simpl.
  now apply IH.
Qed.

(** X3: on data that holds no [null], along a path none of whose segments
    is [__proto__], [getValue] never throws, and what it resolves to holds
    no [null] either: a member access on [null] is the only way it throws,
    and on such data the end of a chain of prototypes is the only [null] it
    can reach. Where a segment names an inherited method the code resolves
    to that function, or to [undefined] below it; here the value is
    [undefined]. *)
Theorem getValue_null_free (data : value) (path : string) :
  nullFree data = true -> ownSegments path = true ->
  exists r, getValue data path = Ok r /\ nullFree r = true.
Proof. intros Hfree _. now apply walk_nullFree. Qed.

Lemma getValue_null_free_witness :
  exists r, getValue (VObj [("a", VArr [VNum 1; VStr "x"]); ("b", VObj [])]) "a.1.z.y" = Ok r
            /\ nullFree r = true.
Proof.
  apply (getValue_null_free (VObj [("a", VArr [VNum 1; VStr "x"]); ("b", VObj [])]) "a.1.z.y");
    reflexivity.
Defined.

(** ** parse *)

Lemma closePath_property (txt : string) :
  lastChar (trim txt) <> Some ")"%char -> closePath txt = appendProperty txt.
Proof.
  intros H. unfold closePath.
  rewrite (bool_decide_eq_false_2 _ H), andb_false_r. reflexivity.
Qed.

(** The positions of the first [(] and of the last [)] of a text
    [name(args)] cut it into the name and the arguments. *)
Lemma closePath_name_args (name args w : string) :
  name <> EmptyString -> indexOf "(" name = -1 -> allWhite w = true ->
  closePath (name +:+ String "("%char (args +:+ String ")"%char w))
  = appendFunction name args.
Proof.
  intros Hname Hopen Hw. unfold closePath.
  set (txt := name +:+ String "("%char (args +:+ String ")"%char w)).
  assert (Hlast : lastChar (trim txt) = Some ")"%char).
  { unfold txt. change (String "("%char (args +:+ String ")"%char w))
      with (String "("%char args +:+ String ")"%char w).
    rewrite <- append_assoc. now apply lastChar_trim. }
  assert (Hne : String.eqb (trim txt) "" = false).
  { destruct (trim txt); [discriminate | reflexivity]. }
  rewrite Hne, (bool_decide_eq_true_2 _ Hlast). simpl negb. simpl andb.
  assert (Ho : indexOf "(" txt = strlen name) by now apply indexOf_first.
  assert (Hc : lastIndexOf ")" txt = strlen name + 1 + strlen args).
  { unfold txt. change (String "("%char (args +:+ String ")"%char w))
      with (String "("%char args +:+ String ")"%char w).
    rewrite <- append_assoc, lastIndexOf_last.
    - unfold strlen. rewrite length_append. simpl String.length. lia.
    - now apply lastIndexOf_allWhite. }
  rewrite Ho, Hc.
  assert (Hpos : 0 < strlen name).
  { unfold strlen. destruct name; [congruence | simpl; lia]. }
  pose proof (strlen_nonneg args) as Hargs.
  replace (strlen name =? 0) with false by (symmetry; apply Z.eqb_neq; lia).
  replace (strlen name + 1 + strlen args =? 0) with false
    by (symmetry; apply Z.eqb_neq; lia).
  simpl negb. simpl andb. f_equal.
  - unfold substr. simpl (0 <? 0).
    replace (strlen name <=? 0) with false by (symmetry; apply Z.leb_gt; lia).
    unfold strlen. rewrite Nat2Z.id. apply substring_prefix.
  - destruct (strlen name + 1 + strlen args >? strlen name + 1) eqn:E.
    + unfold substr.
      replace (strlen name + 1 <? 0) with false by (symmetry; apply Z.ltb_ge; lia).
      replace (strlen name + 1 + strlen args - (strlen name + 1)) with (strlen args) by lia.
      replace (strlen args <=? 0) with false by (symmetry; apply Z.leb_gt; lia).
      replace (Z.to_nat (strlen name + 1))
        with (String.length (name +:+ String "("%char EmptyString))
        by (rewrite length_append; unfold strlen; simpl; lia).
      unfold txt. change (String "("%char (args +:+ String ")"%char w))
        with (String "("%char EmptyString +:+ (args +:+ String ")"%char w)).
      rewrite <- append_assoc, substring_skip.
      unfold strlen. rewrite Nat2Z.id. apply substring_prefix.
    + assert (strlen args = 0) by lia.
      unfold strlen in *. destruct args; [reflexivity | simpl in *; lia].
Qed.

(** X4: a text [name(args)], possibly followed by white space, whose name
    is not empty and holds no opening parenthesis, closes as the call of
    [name] with [args]. *)
Theorem closePath_call (name args w : string) :
  name <> EmptyString -> indexOf "(" name = -1 -> allWhite w = true ->
  closePath (name +:+ String "("%char (args +:+ String ")"%char w))
  = appendFunction name args.
Proof.
  intros Hname Hopen Hw. now apply closePath_name_args.
Qed.

Lemma closePath_call_witness :
  closePath " card(user.items) " = appendFunction " card" "user.items".
Proof.
  apply (closePath_call " card" "user.items" " "); [discriminate | reflexivity | reflexivity].
Defined.

(** A text that ends in a closing parenthesis and holds no opening one
    closes as a call of the empty name: [-1] passes the test on [open]. *)
Lemma closePath_unopened (txt : string) :
  lastChar (trim txt) = Some ")"%char -> indexOf "(" txt = -1 ->
  lastIndexOf ")" txt <> 0 ->
  closePath txt = appendFunction "" (substr txt 0 (lastIndexOf ")" txt)).
Proof.
  intros Hlast Ho Hc. unfold closePath.
  assert (Hne : String.eqb (trim txt) "" = false).
  { destruct (trim txt); [discriminate | reflexivity]. }
  rewrite Hne, (bool_decide_eq_true_2 _ Hlast), Ho.
  apply Z.eqb_neq in Hc. rewrite Hc.
  change (negb (-1 =? 0) && negb false) with true. cbv iota.
  change (-1 + 1) with 0. rewrite Z.sub_0_r.
  change (substr txt 0 (-1)) with EmptyString.
  pose proof (lastIndexOf_bound ")" txt).
  destruct (lastIndexOf ")" txt >? 0) eqn:E; [reflexivity |].
  apply Z.eqb_neq in Hc. assert (lastIndexOf ")" txt = -1) as -> by lia. reflexivity.
Qed.

(** C1, at the inputs where the code departs from it. The test
    [open && close] reads the two positions as conditions: for [foo)],
    which holds no opening parenthesis, [open] is [-1] and passes, and the
    lexer emits a function call of the empty name with arguments [foo]; for
    [(x)], whose opening parenthesis is at position [0], the test fails and
    the lexer emits a property fragment. A text with its opening
    parenthesis further in is split as described. Both forms of expression
    close the same way, and rendering the template of [foo)] calls the entry
    of the empty name, which no store holds. *)
Theorem parse_paren_positions :
  parse "'!foo)'" = [appendText ""; appendFunction "" "foo"]
  /\ parse "'!(x)'" = [appendText ""; appendProperty "(x)"]
  /\ parse "'!f(x)'" = [appendText ""; appendFunction "f" "x"]
  /\ parse "{'a':'${foo)}'}" = [appendText "{'a':'"; appendFunction "" "foo"; appendText "'}"]
  /\ JsonTemplates.render 8 (<["t" := Compiled (parse "'!foo)'")]> ∅) "t"
       (VObj [("foo)", VNum 1)]) = Throw (TypeError_call "").
Proof. repeat split; vm_compute; reflexivity. Qed.

Lemma snoc_app txt c rest : snoc txt c +:+ rest = txt +:+ String c rest.
Proof. unfold snoc. now rewrite append_assoc. Qed.

Lemma scan_plain (json : string) :
  forall prev s,
    plainText json = true -> state s <> PS_path ->
    parsed (scan json prev s) = parsed s
    /\ txt (scan json prev s) = txt s +:+ json.
Proof.
  induction json as [|char rest IH]; intros prev s Hplain Hstate.
  - simpl. now rewrite append_nil_r.
  - simpl in Hplain. apply andb_prop in Hplain as [Hc Hrest].
    apply andb_prop in Hc as [Hbang Hdollar].
    apply negb_true_iff in Hbang, Hdollar.
    assert (Hstep : forall p s', parsed s' = parsed s -> txt s' = snoc (txt s) char ->
              state s' <> PS_path ->
              parsed (scan rest p s') = parsed s
              /\ txt (scan rest p s') = txt s +:+ String char rest).
    { intros p s' Hp Ht Hs. destruct (IH p s' Hrest Hs) as [-> ->].
      now rewrite Hp, Ht, snoc_app. }
    simpl. destruct (state s) eqn:Es; [| | congruence].
    + destruct rest as [|next rest']; [now apply Hstep |].
      destruct (isQuote char); [| now apply Hstep].
      simpl in Hrest. apply andb_prop in Hrest as [Hn _].
      apply andb_prop in Hn as [Hn _]. apply negb_true_iff in Hn. rewrite Hn.
      now apply Hstep.
    + rewrite Hdollar. simpl.
      assert (Hother : parsed (scan rest (Some char)
                         (accumulate s char
                            (if bool_decide (Some char = endString s)
                                && negb (bool_decide (prev = Some "\"%char))
                             then PS_none else PS_string))) = parsed s
                       /\ txt (scan rest (Some char)
                         (accumulate s char
                            (if bool_decide (Some char = endString s)
                                && negb (bool_decide (prev = Some "\"%char))
                             then PS_none else PS_string))) = txt s +:+ String char rest).
      { apply Hstep; [reflexivity | reflexivity |].
        simpl. now destruct (_ && _). }
      destruct rest; exact Hother.
Qed.

(** A text with no [!] and no [$] parses to itself as one text fragment. *)
Lemma parse_plain (json : string) :
  plainText json = true ->
  parse json = match json with EmptyString => [] | _ => [appendText json] end.
Proof.
  intros Hplain. unfold parse.
  destruct (scan_plain json None (Lexer [] EmptyString None None PS_none PS_none)
              Hplain) as [Hp Ht]; [discriminate |].
  rewrite Hp, Ht. simpl. destruct json; reflexivity.
Qed.

(** ** Compiled templates *)

(** The fragments run in order, and the first one that throws ends the run. *)
Lemma forEachFragment_app call pre post child obj :
  forEachFragment call (pre ++ post) child obj =
  forEachFragment call pre child obj ≫= forEachFragment call post child.
Proof.
  revert obj. induction pre as [|fn pre IH]; intros obj; simpl; [reflexivity |].
  destruct (fragmentFn call fn child) as [r|e]; simpl; [apply IH | reflexivity].
Qed.

Lemma forEachFragment_throws call parsed child obj fn e :
  In fn parsed -> fragmentFn call fn child = Throw e ->
  exists e', forEachFragment call parsed child obj = Throw e'.
Proof.
  intros Hin Hfn. revert obj.
  induction parsed as [|fn' rest IH]; intros obj; [destruct Hin |].
  simpl. destruct Hin as [->|Hin].
  - rewrite Hfn. simpl. eauto.
  - destruct (fragmentFn call fn' child) as [r|e0]; simpl; [apply IH, Hin | eauto].
Qed.

(** The output only grows, and a text fragment adds its text. *)
Lemma forEachFragment_length call parsed child obj s :
  forEachFragment call parsed child obj = Ok s ->
  (String.length obj <= String.length s)%nat
  /\ forall text, In (appendText text) parsed ->
       (String.length obj + String.length text <= String.length s)%nat.
Proof.
  revert obj. induction parsed as [|fn rest IH]; intros obj H; simpl in H.
  - injection H as ->. split; [lia | intros text []].
  - inv_bind H. destruct (IH _ H) as [Hle Htext].
    unfold plusAssign in Hle, Htext. rewrite length_append in Hle, Htext.
    split; [lia |]. intros text [->|Hin].
    + simpl in Hm. injection Hm as <-. simpl in *. lia.
    + specialize (Htext text Hin). lia.
Qed.

Lemma segments_length call parsed children ss :
  segments call parsed children = Ok ss -> length ss = length children.
Proof.
  revert ss. induction children as [|c rest IH]; intros ss H; simpl in H.
  - now injection H as <-.
  - inv_bind H. inv_bind H. injection H as <-. simpl. f_equal. now apply IH.
Qed.

Lemma forEachFragment_prefix call parsed child obj :
  forEachFragment call parsed child obj =
  (s ← forEachFragment call parsed child EmptyString; Ok (obj +:+ s)).
Proof.
  revert obj. induction parsed as [|fn rest IH]; intros obj; simpl.
  - now rewrite append_nil_r.
  - destruct (fragmentFn call fn child) as [r|e]; simpl; [| reflexivity].
    rewrite (IH (plusAssign obj r)), (IH (plusAssign "" r)).
    destruct (forEachFragment call rest child "") as [s|e]; simpl; [| reflexivity].
    unfold plusAssign. simpl. now rewrite append_assoc.
Qed.

Lemma forEachChild_join call parsed children obj connector :
  forEachChild call parsed children obj connector =
  (ss ← segments call parsed children;
   Ok (match ss with
       | [] => obj
       | _ => obj +:+ connector +:+ join "," ss
       end)).
Proof.
  revert obj connector.
  induction children as [|c rest IH]; intros obj connector; simpl; [reflexivity |].
  rewrite forEachFragment_prefix.
  destruct (forEachFragment call parsed c "") as [s|e]; simpl; [| reflexivity].
  rewrite IH.
  destruct (segments call parsed rest) as [ss|e]; simpl; [| reflexivity].
  destruct ss as [|s' ss]; simpl.
  - now rewrite append_assoc.
  - now rewrite !append_assoc.
Qed.

(** On a path that resolves to an array the output is the segments of the
    elements, joined by commas, between brackets. *)
Lemma compiled_array call parsed data path children :
  path <> EmptyString -> getValue data path = Ok (VArr children) ->
  compiled call parsed data (Some path) =
  (ss ← segments call parsed children; Ok ("[" +:+ join "," ss +:+ "]")).
Proof.
  intros Hp Hv. unfold compiled.
  apply String.eqb_neq in Hp. rewrite Hp, Hv. simpl.
  rewrite forEachChild_join.
  destruct (segments call parsed children) as [ss|e]; simpl; [| reflexivity].
  destruct ss; reflexivity.
Qed.

Lemma compiled_object call parsed data path ms :
  path <> EmptyString -> getValue data path = Ok (VObj ms) ->
  compiled call parsed data (Some path) = forEachFragment call parsed (VObj ms) EmptyString.
Proof.
  intros Hp Hv. unfold compiled.
  apply String.eqb_neq in Hp. now rewrite Hp, Hv.
Qed.

Lemma compiled_scalar call parsed data path v :
  path <> EmptyString -> getValue data path = Ok v -> isObjectType v = false ->
  compiled call parsed data (Some path) = Ok EmptyString.
Proof.
  intros Hp Hv Hs. unfold compiled.
  apply String.eqb_neq in Hp. rewrite Hp, Hv. simpl.
  destruct v; simpl in *; try reflexivity; discriminate.
Qed.

(** X1: on a path that resolves to a sequence the output is one segment
    per element, each the output of the fragments against that element, the
    segments joined by commas between brackets. *)
Theorem compiled_sequence call parsed data path children :
  path <> EmptyString -> getValue data path = Ok (VArr children) ->
  compiled call parsed data (Some path) =
    (ss ← segments call parsed children; Ok ("[" +:+ join "," ss +:+ "]"))
  /\ (forall ss, segments call parsed children = Ok ss ->
        length ss = length children).
Proof.
  intros Hp Hv. split; [now apply compiled_array |].
  intros ss. apply segments_length.
Qed.

Lemma compiled_sequence_witness :
  compiled noTemplates [appendText "{'n':"; appendProperty "n"; appendText "}"]
    (VObj [("rows", VArr [VObj [("n", VNum 1)]; VObj [("n", VNum 2)]; VObj [("n", VNum 3)]])])
    (Some "rows")
  = Ok "[{'n':1},{'n':2},{'n':3}]".
Proof.
  rewrite (proj1 (compiled_sequence noTemplates
             [appendText "{'n':"; appendProperty "n"; appendText "}"]
             (VObj [("rows", VArr [VObj [("n", VNum 1)]; VObj [("n", VNum 2)];
                                   VObj [("n", VNum 3)]])])
             "rows" [VObj [("n", VNum 1)]; VObj [("n", VNum 2)]; VObj [("n", VNum 3)]]
             ltac:(discriminate) eq_refl)).
  vm_compute. reflexivity.
Defined.

(** C2, at the input where the code departs from it: the path [a] resolves
    to [null] in [{"a": null}]; [null] is neither a sequence nor a mapping,
    yet the [typeof] test sends it to the branch of structured values, so a
    text fragment is emitted and a property fragment throws, where the claim
    gives the empty text; [undefined] and a number do give the empty text.
    A table template that renders its rows through a row template throws
    this way when the rows are [null]. *)
Theorem compiled_on_null_path :
  getValue (VObj [("a", VNull)]) "a" = Ok VNull
  /\ compiled noTemplates [appendText "x"] (VObj [("a", VNull)]) (Some "a") = Ok "x"
  /\ compiled noTemplates [appendProperty "y"] (VObj [("a", VNull)]) (Some "a")
     = Throw (TypeError_member "y")
  /\ compiled noTemplates [appendText "x"] (VObj [("a", VUndefined)]) (Some "a") = Ok ""
  /\ JsonTemplates.render 8 rowsStore "table" (VObj [("rows", VNull)])
     = Throw (TypeError_member "n")
  /\ JsonTemplates.render 8 rowsStore "table" (VObj [("rows", VNum 7)])
     = Ok (VStr "{'rows':}").
Proof. repeat split; vm_compute; reflexivity. Qed.

(** C10: a path that resolves to [null] takes the branch of structured
    values: the output is that of the fragments run against [null]. There a
    property fragment throws on its member access, so a template that holds
    one returns no text at all, and a template that holds a text fragment
    returns at least that text. *)
Theorem compiled_null_is_structured call parsed data path :
  path <> EmptyString -> getValue data path = Ok VNull ->
  compiled call parsed data (Some path) = forEachFragment call parsed VNull EmptyString
  /\ (forall p, exists member,
        fragmentFn call (appendProperty p) VNull = Throw (TypeError_member member))
  /\ (forall p, In (appendProperty p) parsed ->
        exists e, compiled call parsed data (Some path) = Throw e)
  /\ (forall text s, In (appendText text) parsed -> text <> EmptyString ->
        compiled call parsed data (Some path) = Ok s -> s <> EmptyString).
Proof.
  intros Hp Hv.
  assert (Hc : compiled call parsed data (Some path)
               = forEachFragment call parsed VNull EmptyString).
  { unfold compiled. apply String.eqb_neq in Hp. now rewrite Hp, Hv. }
  assert (Hprop : forall p, exists member,
             fragmentFn call (appendProperty p) VNull = Throw (TypeError_member member)).
  { intros p. destruct (getValue_null p) as [m Hm]. exists m. simpl. now rewrite Hm. }
  repeat split; [exact Hc | exact Hprop | |].
  - intros p Hin. rewrite Hc. destruct (Hprop p) as [m Hm].
    eapply forEachFragment_throws; eauto.
  - intros text s Hin Hne Hs. rewrite Hc in Hs.
    apply forEachFragment_length in Hs as [_ Hs]. specialize (Hs _ Hin).
    destruct text; [congruence |]. destruct s; simpl in *; [lia | discriminate].
Qed.

Lemma compiled_null_is_structured_witness :
  compiled noTemplates [appendText "{"; appendProperty "y"] (VObj [("a", VNull)]) (Some "a")
  = forEachFragment noTemplates [appendText "{"; appendProperty "y"] VNull EmptyString.
Proof.
  apply (compiled_null_is_structured noTemplates [appendText "{"; appendProperty "y"]
           (VObj [("a", VNull)]) "a"); [discriminate | reflexivity].
Defined.

(** C10 as stated fails: a template with no fragment returns the empty
    text on a path that resolves to [null], as on any other path. *)
Lemma empty_template_on_null_path :
  getValue (VObj [("a", VNull)]) "a" = Ok VNull
  /\ compiled noTemplates (parse "") (VObj [("a", VNull)]) (Some "a") = Ok EmptyString.
Proof. split; reflexivity. Qed.

(** ** The template store *)

(** C7, as the code has it: for a name that is not in the store and that
    the store does not inherit, [render] returns [undefined] and
    [renderAsJSON] returns [null], whatever the data, the stack left and the
    [postProcess] argument; neither throws. The store inherits the members
    of [Object.prototype], its prototype as long as nothing was registered
    as [__proto__]: what a lookup of one of their names gives is not
    modelled, and the statement leaves those names out. *)
Theorem render_unknown_name (JSON_parse : value -> res value) (depth : nat)
    (this : gmap string template) (name : string) (data : value)
    (postProcessArg : option bool) :
  this !! name = None -> this !! "__proto__" = None -> inherited name = false ->
  JsonTemplates.render depth this name data = Ok VUndefined
  /\ JsonTemplates.renderAsJSON JSON_parse depth this name data postProcessArg = Ok VNull.
Proof.
  intros Hmiss _ _. unfold JsonTemplates.renderAsJSON, JsonTemplates.render.
  rewrite Hmiss. split; reflexivity.
Qed.

Lemma render_unknown_name_witness :
  JsonTemplates.render 8 oneTemplate "missing-name" (VObj []) = Ok VUndefined
  /\ JsonTemplates.renderAsJSON noParser 8 oneTemplate "missing-name" (VObj []) None
     = Ok VNull.
Proof.
  apply (render_unknown_name noParser 8 oneTemplate "missing-name" (VObj []) None);
    reflexivity.
Defined.

(** C7 as stated fails: [renderAsJSON] of an unknown name is [null], not
    [undefined]. *)
Lemma renderAsJSON_unknown_name_is_null :
  ~ (JsonTemplates.render 8 oneTemplate "missing-name" (VObj []) = Ok VUndefined
     /\ JsonTemplates.renderAsJSON noParser 8 oneTemplate "missing-name" (VObj []) None
        = Ok VUndefined).
Proof. intros [_ H]. vm_compute in H. discriminate H. Qed.




(** X2: a template added from a text that holds no [!] and no [$], so no
    expression, renders to that text, whatever the data. *)
Theorem render_plain_template (depth : nat) (this this' : gmap string template)
    (name json : string) (data : value) :
  plainText json = true ->
  JsonTemplates.add name (VStr json) this = Ok this' ->
  JsonTemplates.render (S depth) this' name data = Ok (VStr json).
Proof.
  intros Hplain Hadd. unfold JsonTemplates.add in Hadd. simpl in Hadd.
  injection Hadd as <-.
  unfold JsonTemplates.render. rewrite lookup_insert_eq. simpl.
  rewrite (parse_plain _ Hplain). destruct json; reflexivity.
Qed.

Lemma render_plain_template_witness :
  JsonTemplates.render 1 plainStore "plain" (VObj [("x", VNum 1)])
  = Ok (VStr "{'type':'message','text':'hello'}").
Proof.
  apply (render_plain_template 0 ∅ plainStore "plain"
           "{'type':'message','text':'hello'}" (VObj [("x", VNum 1)]));
    reflexivity.
Defined.

(** ** processNode: the object branch *)

(** The collected conditions are the values of the [@if] keys; no
    directive key stays; a member that stays comes from a member of the
    node, processed with success. *)
Lemma processMembers_out rec ms prune conditions ms' :
  processMembers rec ms prune = Ok (conditions, ms') ->
  conditions = ifValues ms
  /\ Forall (fun kv : string * value =>
               isDirective kv.1 = false
               /\ exists v p, In (kv.1, v) ms /\ rec v p = Ok (true, kv.2)) ms'.
Proof.
  revert prune conditions ms'.
  induction ms as [|[key val] rest IH]; intros prune conditions ms' H; simpl in H.
  - injection H as <- <-. split; [reflexivity | constructor].
  - assert (Hweak : forall cs out p,
              processMembers rec rest p = Ok (cs, out) ->
              cs = ifValues rest
              /\ Forall (fun kv : string * value =>
                   isDirective kv.1 = false
                   /\ exists v p, In (kv.1, v) ((key, val) :: rest)
                                  /\ rec v p = Ok (true, kv.2)) out).
    { intros cs out p Hp. destruct (IH _ _ _ Hp) as [-> Hall]. split; [reflexivity |].
      eapply Forall_impl; [exact Hall |].
      intros kv (Hd & v & q & Hin & Hv). split; [exact Hd |].
      exists v, q. split; [right; exact Hin | exact Hv]. }
    simpl. destruct (String.eqb key "@prune") eqn:Ep; [now apply Hweak in H |].
    destruct (String.eqb key "@if") eqn:Ei.
    { inv_bind H. destruct a as [cs out]. injection H as <- <-.
      apply Hweak in Hm as [-> Hall]. now split. }
    destruct (flag prune "nullMembers" && isNullish val); [now apply Hweak in H |].
    destruct (flag prune "emptyStrings" && isEmptyString val); [now apply Hweak in H |].
    destruct (flag prune "emptyArrays" && isEmptyArray val); [now apply Hweak in H |].
    inv_bind H. destruct a as [ok val']. inv_bind H. destruct a as [cs out].
    injection H as <- <-. apply Hweak in Hm0 as [-> Hall]. split; [reflexivity |].
    destruct ok; [| exact Hall]. constructor; [| exact Hall]. simpl. split.
    + unfold isDirective. now rewrite Ep, Ei.
    + exists val, prune. split; [now left | exact Hm].
Qed.

(** The loop over the conditions stops with [false] at the first
    condition that resolves to a value counting as false. *)
Lemma checkConditions_false node conditions ok :
  checkConditions node conditions = Ok ok ->
  (ok = false <->
   exists c v, In c conditions /\ getValue_dyn node c = Ok v /\ truthy v = false).
Proof.
  revert ok. induction conditions as [|c rest IH]; intros ok H; simpl in H.
  - injection H as <-. split; [discriminate | intros (c & v & [] & _)].
  - inv_bind H. rename a into v. destruct (truthy v) eqn:Et.
    + rewrite (IH _ H). split.
      * intros (c' & v' & Hin & Hv & Hf). exists c', v'. split; [now right | now split].
      * intros (c' & v' & [<-|Hin] & Hv & Hf); [congruence |].
        exists c', v'. now split.
    + injection H as <-. split; [| reflexivity].
      intros _. exists c, v. split; [now left | now split].
Qed.

(** C3: an object node is processed in two steps. First every member is
    processed: the values of its [@if] keys are collected and the pruned
    member list is built, with no [@if] or [@prune] key left in it. Then the
    collected conditions are resolved against the node with that pruned
    member list. The call returns [false] exactly when one of them resolves
    to a value that counts as false; the directive keys are gone in either
    case. *)
Theorem processNode_object_conditions (ms : list (string * value))
    (prune : gmap string value) (ok : bool) (node' : value) :
  processNode (VObj ms) prune = Ok (ok, node') ->
  exists ms',
    processMembers processNode ms prune = Ok (ifValues ms, ms')
    /\ node' = VObj ms'
    /\ checkConditions (VObj ms') (ifValues ms) = Ok ok
    /\ (ok = false <->
        exists c v, In c (ifValues ms)
                    /\ getValue_dyn (VObj ms') c = Ok v /\ truthy v = false)
    /\ (forall k v, In (k, v) ms' -> k <> "@if" /\ k <> "@prune").
Proof.
  intros H. simpl in H. inv_bind H. destruct a as [conditions ms'].
  inv_bind H. injection H as <- <-.
  destruct (processMembers_out _ _ _ _ _ Hm) as [-> Hall].
  exists ms'. repeat split; try assumption.
  - now apply checkConditions_false.
  - now apply checkConditions_false.
  - intros ->. rewrite Forall_forall in Hall.
    apply list_elem_of_In in H. destruct (Hall _ H) as [Hd _]. discriminate Hd.
  - intros ->. rewrite Forall_forall in Hall.
    apply list_elem_of_In in H. destruct (Hall _ H) as [Hd _]. discriminate Hd.
Qed.

Lemma processNode_object_conditions_witness :
  processMembers processNode conditionOnPruned ∅ = Ok ([VStr "a"], [])
  /\ checkConditions (VObj []) [VStr "a"] = Ok false
  /\ getValue (VObj conditionOnPruned) "a" = Ok (VObj [("x", VNum 1); ("@if", VStr "nope")]).
Proof.
  assert (Hrun : processNode (VObj conditionOnPruned) ∅ = Ok (false, VObj []))
    by (vm_compute; reflexivity).
  destruct (processNode_object_conditions _ _ _ _ Hrun) as (ms' & H1 & H2 & H3 & _).
  injection H2 as <-. split; [exact H1 |]. split; [exact H3 | reflexivity].
Defined.

(** ** postProcess twice *)

Lemma flag_empty (name : string) : flag ∅ name = false.
Proof. unfold flag, pruneOption. now rewrite !lookup_empty. Qed.

(** What [processArray] keeps are results of successful calls of [rec]. *)
Lemma processArray_out rec prune xs xs' :
  processArray rec prune xs = Ok xs' ->
  Forall (fun x' => exists x, In x xs /\ rec x prune = Ok (true, x')) xs'.
Proof.
  revert xs'. induction xs as [|x rest IH]; intros xs' H; simpl in H.
  - injection H as <-. constructor.
  - inv_bind H. rename a into rest'.
    assert (Hrest : Forall (fun x' => exists x0, In x0 (x :: rest)
                                        /\ rec x0 prune = Ok (true, x')) rest').
    { eapply Forall_impl; [apply IH, Hm |].
      intros x' (x0 & Hin & Hx). exists x0. split; [now right | exact Hx]. }
    destruct (flag prune "nullMembers" && isNullish x).
    + now injection H as <-.
    + inv_bind H. destruct a as [ok x']. injection H as <-.
      destruct ok; [| exact Hrest]. constructor; [| exact Hrest].
      exists x. split; [now left | exact Hm0].
Qed.

(** Whatever the outcome, the node a call leaves holds no directive key. *)
Lemma processNode_directiveFree (v : value) :
  forall prune ok v', processNode v prune = Ok (ok, v') -> directiveFree v' = true.
Proof.
  induction v as [| | b | n | s | xs IH | ms IH] using value_members_ind;
    intros prune ok v' H; simpl in H; try (injection H as <- <-; reflexivity).
  - inv_bind H. rename a into xs'.
    assert (Hfree : forallb directiveFree xs' = true).
    { apply forallb_forall. intros x' Hin.
      pose proof (processArray_out _ _ _ _ Hm) as Hall.
      rewrite Forall_forall in Hall.
      destruct (Hall x' (proj2 (list_elem_of_In _ _) Hin)) as (x & Hx & Hrun).
      rewrite Forall_forall in IH.
      exact (IH x (proj2 (list_elem_of_In _ _) Hx) _ _ _ Hrun). }
    destruct (flag prune "emptyArrays" && (length xs' =? 0)%nat);
      injection H as <- <-; exact Hfree.
  - inv_bind H. destruct a as [conditions ms']. inv_bind H. injection H as <- <-.
    simpl. apply forallb_forall. intros [k x'] Hin.
    destruct (processMembers_out _ _ _ _ _ Hm) as [_ Hall].
    rewrite Forall_forall in Hall.
    destruct (Hall _ (proj2 (list_elem_of_In _ _) Hin)) as (Hd & x & p & Hx & Hrun).
    simpl in *. unfold isDirective in Hd. apply orb_false_elim in Hd as [-> ->]. simpl.
    rewrite Forall_forall in IH.
    exact (IH (k, x) (proj2 (list_elem_of_In _ _) Hx) _ _ _ Hrun).
Qed.

(** Under the empty config a node without directive keys is left as it is. *)
Lemma processNode_directiveFree_fixed (v : value) :
  directiveFree v = true -> processNode v ∅ = Ok (true, v).
Proof.
  induction v as [| | b | n | s | xs IH | ms IH] using value_members_ind;
    intros Hfree; try reflexivity.
  - simpl in Hfree.
    assert (Hloop : processArray processNode ∅ xs = Ok xs).
    { induction IH as [|x rest Hx _ IHrest]; [reflexivity |].
      simpl in Hfree. apply andb_prop in Hfree as [Hfx Hfrest].
      simpl. rewrite (IHrest Hfrest). simpl.
      rewrite flag_empty. simpl. now rewrite (Hx Hfx). }
    simpl. rewrite Hloop. simpl. now rewrite flag_empty.
  - simpl in Hfree.
    assert (Hloop : processMembers processNode ms ∅ = Ok ([], ms)).
    { induction IH as [|[k x] rest Hx _ IHrest]; [reflexivity |].
      simpl in Hfree. apply andb_prop in Hfree as [Hfx Hfrest].
      apply andb_prop in Hfx as [Hk Hfx]. apply andb_prop in Hk as [Hp Hi].
      apply negb_true_iff in Hp, Hi.
      simpl. rewrite Hp, Hi, !flag_empty. simpl.
      simpl in Hx. rewrite (Hx Hfx). simpl. now rewrite (IHrest Hfrest). }
    simpl. rewrite Hloop. reflexivity.
Qed.

(** C9: [postProcess] applied to its own result gives that result again;
    when the first application throws, so does the composition, with the
    same error. *)
Theorem postProcess_idempotent (v : value) :
  JsonTemplates.postProcess v ≫= JsonTemplates.postProcess = JsonTemplates.postProcess v
  /\ (forall v', JsonTemplates.postProcess v = Ok v' ->
                 JsonTemplates.postProcess v' = Ok v').
Proof.
  assert (Hfixed : forall v', JsonTemplates.postProcess v = Ok v' ->
                              JsonTemplates.postProcess v' = Ok v').
  { unfold JsonTemplates.postProcess. intros v' H.
    destruct (processNode v ∅) as [[ok w]|e] eqn:Hrun; [| discriminate].
    simpl in H. injection H as <-. destruct ok; [| reflexivity].
    apply processNode_directiveFree in Hrun.
    now rewrite (processNode_directiveFree_fixed _ Hrun). }
  split; [| exact Hfixed].
  destruct (JsonTemplates.postProcess v) as [v'|e] eqn:H; [| reflexivity].
  exact (Hfixed v' eq_refl).
Qed.

(** Two passes over a tree with directives leave what one pass leaves. *)
Example postProcess_twice :
  JsonTemplates.postProcess
    (VObj [("@prune", VObj [("nullMembers", VBool true); ("emptyStrings", VBool true)]);
           ("a", VNull); ("b", VStr "  ");
           ("c", VObj [("@if", VStr "d"); ("d", VNum 0)]);
           ("e", VArr [VNull; VNum 2])])
  = Ok (VObj [("e", VArr [VNum 2])])
  /\ JsonTemplates.postProcess (VObj [("e", VArr [VNum 2])])
     = Ok (VObj [("e", VArr [VNum 2])]).
Proof. split; vm_compute; reflexivity. Qed.

(** ** processNode: the array branch *)

Lemma processArray_cons rec prune val rest :
  processArray rec prune (val :: rest) =
  processArray rec prune rest ≫= arrayStep rec prune val.
Proof. reflexivity. Qed.

Lemma arrayStep_app rec prune val xs ys :
  arrayStep rec prune val (xs ++ ys) =
  (xs' ← arrayStep rec prune val xs; Ok (xs' ++ ys)).
Proof.
  unfold arrayStep. destruct (flag prune "nullMembers" && isNullish val); [reflexivity |].
  destruct (rec val prune) as [[[] val']|e]; reflexivity.
Qed.

(** The higher part of an array is processed before the lower part. *)
Lemma processArray_app rec prune lower higher :
  processArray rec prune (lower ++ higher) =
  (higher' ← processArray rec prune higher;
   lower' ← processArray rec prune lower;
   Ok (lower' ++ higher')).
Proof.
  induction lower as [|val lower IH].
  - simpl. destruct (processArray rec prune higher); reflexivity.
  - rewrite <- app_comm_cons, !processArray_cons, IH.
    destruct (processArray rec prune higher) as [higher'|e]; simpl; [| reflexivity].
    destruct (processArray rec prune lower) as [lower'|e]; simpl; [| reflexivity].
    apply arrayStep_app.
Qed.

(** The loop of the source, over the indices below [length lower] of an
    array whose higher part is done: splicing out an element or changing it
    in place leaves the indices still to visit where they are. *)
Lemma arrayLoop_lower rec prune lower done :
  arrayLoop rec prune (length lower) (lower ++ done) =
  (lower' ← processArray rec prune lower; Ok (lower' ++ done)).
Proof.
  revert done. induction lower as [|val lower IH] using rev_ind; intros done.
  - reflexivity.
  - rewrite length_app, Nat.add_comm. simpl.
    rewrite <- app_assoc. simpl.
    rewrite (list_lookup_middle lower done val (length lower) eq_refl). simpl.
    rewrite processArray_app. simpl. fold (arrayStep rec prune val []).
    unfold arrayStep.
    destruct (flag prune "nullMembers" && isNullish val).
    + rewrite delete_middle, IH. simpl.
      destruct (processArray rec prune lower) as [lower'|e]; simpl; [| reflexivity].
      now rewrite app_nil_r.
    + destruct (rec val prune) as [[[] val']|e]; simpl; [| | reflexivity].
      * replace (<[length lower := val']> (lower ++ val :: done))
          with (lower ++ val' :: done).
        2:{ rewrite insert_app_r_alt by lia. now rewrite Nat.sub_diag. }
        rewrite IH.
        destruct (processArray rec prune lower) as [lower'|e]; simpl; [| reflexivity].
        now rewrite <- app_assoc.
      * rewrite delete_middle, IH.
        destruct (processArray rec prune lower) as [lower'|e]; simpl; [| reflexivity].
        now rewrite app_nil_r.
Qed.

Lemma arrayLoop_processArray rec prune xs :
  arrayLoop rec prune (length xs) xs = processArray rec prune xs.
Proof.
  rewrite <- (app_nil_r xs) at 2. rewrite arrayLoop_lower.
  destruct (processArray rec prune xs) as [xs'|e]; simpl; [| reflexivity].
  now rewrite app_nil_r.
Qed.

Lemma processArray_elements prune xs :
  processArray processNode prune xs =
  (rs ← forEachDown (elementResult prune) xs; Ok (kept rs)).
Proof.
  induction xs as [|x rest IH]; [reflexivity |].
  rewrite processArray_cons, IH. simpl.
  destruct (forEachDown (elementResult prune) rest) as [rs|e]; simpl; [| reflexivity].
  unfold arrayStep, elementResult.
  destruct (flag prune "nullMembers" && isNullish x); [reflexivity |].
  destruct (processNode x prune) as [[[] x']|e]; reflexivity.
Qed.

(** A member whose processing fails is dropped by the object loop. *)
Lemma processMembers_failed_member key val rest prune val' :
  isDirective key = false -> processNode val prune = Ok (false, val') ->
  processMembers processNode ((key, val) :: rest) prune =
  processMembers processNode rest prune.
Proof.
  intros Hd Hfail. unfold isDirective in Hd. apply orb_false_elim in Hd as [Hp Hi].
  simpl. rewrite Hp, Hi.
  destruct (flag prune "nullMembers" && isNullish val); [reflexivity |].
  destruct (flag prune "emptyStrings" && isEmptyString val); [reflexivity |].
  destruct (flag prune "emptyArrays" && isEmptyArray val); [reflexivity |].
  rewrite Hfail. simpl. apply bind_ret_pair.
Qed.

(** ** The recorded calls *)

Section Recorded.
Variable recT : value -> gmap string value -> list visit * res (bool * value).
Variable rec : value -> gmap string value -> res (bool * value).





End Recorded.



Lemma firstSteps_app log log' :
  firstSteps (log ++ log') = firstSteps log ++ firstSteps log'.
Proof. apply omap_app. Qed.

Lemma firstSteps_under i log : Forall (fun a => a = i) (firstSteps (under i log)).
Proof. induction log as [|c log IH]; simpl; constructor; auto. Qed.

Lemma downward_constant i (l : list nat) :
  Forall (fun a => a = i) l -> StronglySorted (fun a b => (b <= a)%nat) l.
Proof.
  induction 1 as [|a l -> Hl IH]; constructor; [exact IH |].
  eapply Forall_impl; [exact Hl |]. intros b ->. simpl. lia.
Qed.

(** The array loop calls on its members from the last position down. *)
Lemma processArrayT_downward recT prune xs i :
  StronglySorted (fun a b => (b <= a)%nat) (firstSteps (processArrayT recT prune i xs).1)
  /\ Forall (fun a => (i <= a)%nat) (firstSteps (processArrayT recT prune i xs).1).
Proof.
  revert i. induction xs as [|x rest IH]; intros i; simpl.
  - split; constructor.
  - destruct (IH (S i)) as [Hsorted Hfrom].
    destruct (processArrayT recT prune (S i) rest) as [log r]. simpl in *.
    assert (Hfrom' : Forall (fun a => (i <= a)%nat) (firstSteps log)).
    { eapply Forall_impl; [exact Hfrom |]. simpl. intros. lia. }
    destruct r as [rest'|e]; [| now split].
    destruct (flag prune "nullMembers" && isNullish x); [now split |].
    destruct (recT x prune) as [log' r']. simpl.
    rewrite firstSteps_app. pose proof (firstSteps_under i log') as Hi. split.
    + apply StronglySorted_app_2; [| exact Hsorted | now apply (downward_constant i)].
      intros a b Ha Hb. rewrite Forall_forall in Hfrom, Hi.
      specialize (Hfrom _ Ha). specialize (Hi _ Hb). simpl in *. lia.
    + apply Forall_app. split; [exact Hfrom' |].
      eapply Forall_impl; [exact Hi |]. simpl. intros. lia.
Qed.

(** C5: the array branch of [processNode]. It is the loop of the source,
    from the last index down to the first, over the array changed in place.
    Its calls on the elements are made in that order. Each element is
    removed when it is [null] or [undefined] under [nullMembers], or when
    its own processing returns [false], and is kept as processed otherwise.
    The array fails when [emptyArrays] is set and nothing is kept, and a
    member or an element holding a failed array is dropped by its parent. *)
Theorem processNode_array (xs : list value) (prune : gmap string value) :
  processNode (VArr xs) prune =
    (xs' ← arrayLoop processNode prune (length xs) xs;
     Ok (negb (flag prune "emptyArrays" && (length xs' =? 0)%nat), VArr xs'))
  /\ processNode (VArr xs) prune =
    (rs ← forEachDown (elementResult prune) xs;
     Ok (negb (flag prune "emptyArrays" && (length (kept rs) =? 0)%nat), VArr (kept rs)))
  /\ StronglySorted (fun i j => (j <= i)%nat) (firstSteps (processNodeT (VArr xs) prune).1)
  /\ (forall key rest node',
        isDirective key = false ->
        processNode (VArr xs) prune = Ok (false, node') ->
        processMembers processNode ((key, VArr xs) :: rest) prune =
        processMembers processNode rest prune)
  /\ (forall rest node',
        processNode (VArr xs) prune = Ok (false, node') ->
        processArray processNode prune (VArr xs :: rest) =
        processArray processNode prune rest).
Proof.
  assert (Hfold : processNode (VArr xs) prune =
            (xs' ← processArray processNode prune xs;
             Ok (negb (flag prune "emptyArrays" && (length xs' =? 0)%nat), VArr xs'))).
  { simpl. destruct (processArray processNode prune xs) as [xs'|e]; simpl; [| reflexivity].
    now destruct (flag prune "emptyArrays" && (length xs' =? 0)%nat). }
  split; [now rewrite arrayLoop_processArray |]. split.
  { rewrite Hfold, processArray_elements.
    now destruct (forEachDown (elementResult prune) xs). }
  split.
  { simpl. pose proof (processArrayT_downward processNodeT prune xs 0) as [Hs _].
    destruct (processArrayT processNodeT prune 0 xs) as [log r]. exact Hs. }
  split.
  - intros key rest node' Hd Hfail. now apply (processMembers_failed_member _ _ _ _ node').
  - intros rest node' Hfail. rewrite processArray_cons.
    destruct (processArray processNode prune rest) as [rest'|e]; simpl; [| reflexivity].
    unfold arrayStep. rewrite andb_false_r, Hfail. reflexivity.
Qed.

(** An array that empties under [emptyArrays] takes its member with it. *)
Example emptied_array_drops_member :
  JsonTemplates.postProcess
    (VObj [("@prune", VObj [("nullMembers", VBool true); ("emptyArrays", VBool true)]);
           ("list", VArr [VNull; VObj [("@if", VStr "missing")]]);
           ("keep", VArr [VNum 1; VNull])])
  = Ok (VObj [("keep", VArr [VNum 1])]).
Proof. vm_compute. reflexivity. Qed.

(** ** The scope of a [@prune] directive *)







Lemma processMembers_cons rec key val rest prune :
  processMembers rec ((key, val) :: rest) prune =
  if String.eqb key "@prune" then processMembers rec rest (Object_assign prune val)
  else if String.eqb key "@if" then
    '(conditions, node') ← processMembers rec rest prune;
    Ok (val :: conditions, node')
  else if flag prune "nullMembers" && isNullish val then processMembers rec rest prune
  else if flag prune "emptyStrings" && isEmptyString val then processMembers rec rest prune
  else if flag prune "emptyArrays" && isEmptyArray val then processMembers rec rest prune
  else
    '(ok, val') ← rec val prune;
    '(conditions, node') ← processMembers rec rest prune;
    Ok (conditions, if ok : bool then (key, val') :: node' else node').
Proof. reflexivity. Qed.



(** The reading of a flag goes through the prototype that a [__proto__]
    property of a [@prune] value has set: here [a] is dropped as a null
    member. A later merge starts from the own properties only: inside [a]
    below, [b] is kept, while [c], under the config of the root, is not. *)
Example prune_through_prototype :
  JsonTemplates.postProcess
    (VObj [("@prune", VObj [("__proto__", VObj [("nullMembers", VBool true)])]);
           ("a", VNull)])
  = Ok (VObj [])
  /\ JsonTemplates.postProcess
       (VObj [("@prune", VObj [("__proto__", VObj [("nullMembers", VBool true)])]);
              ("a", VObj [("@prune", VObj [("emptyArrays", VBool true)]); ("b", VNull)]);
              ("c", VNull)])
     = Ok (VObj [("a", VObj [("b", VNull)])]).
Proof. split; vm_compute; reflexivity. Qed.

(** A [@prune] inside the member [a] is not seen by its sibling [b], and
    the one at the root is seen by [b] only, which comes after it. *)
Example sibling_prune_not_shared :
  JsonTemplates.postProcess
    (VObj [("a", VObj [("@prune", VObj [("nullMembers", VBool true)]); ("x", VNull)]);
           ("b", VObj [("y", VNull)]);
           ("c", VNull);
           ("@prune", VObj [("nullMembers", VBool true)]);
           ("d", VObj [("z", VNull)])])
  = Ok (VObj [("a", VObj []); ("b", VObj [("y", VNull)]); ("c", VNull); ("d", VObj [])]).
Proof. vm_compute. reflexivity. Qed.

(** ** The lexer on well-formed templates *)

Lemma isQuote_cases q : isQuote q = true -> q = "'"%char \/ q = dquote.
Proof.
  destruct q as [b0 b1 b2 b3 b4 b5 b6 b7].
  destruct b0, b1, b2, b3, b4, b5, b6, b7; simpl; intros H;
    try discriminate; auto.
Qed.

(** In the states [none] and [path] the previous character is not read. *)
Lemma scan_prev json p1 p2 s :
  state s <> PS_string -> scan json p1 s = scan json p2 s.
Proof.
  intros Hs. destruct json as [|char rest]; [reflexivity |].
  simpl. destruct (state s); [reflexivity | congruence | reflexivity].
Qed.

Lemma lastChar_cons c s : exists c', lastChar (String c s) = Some c'.
Proof.
  revert c. induction s as [|x s IH]; intros c; simpl; [eauto |].
  destruct (IH x) as [c' Hc]. simpl in Hc. eauto.
Qed.

Lemma lastOr_cons prev c a : lastOr (Some c) a = lastOr prev (String c a).
Proof.
  unfold lastOr. destruct a as [|x a]; [reflexivity |].
  destruct (lastChar_cons x a) as [c' Hc].
  change (lastChar (String c (String x a))) with (lastChar (String x a)).
  now rewrite Hc.
Qed.

(** Text without quotes, read in the state [none], is accumulated. *)
Lemma scan_text_none a : forall rest prev frs t es ep ns,
  noQuote a = true ->
  scan (a +:+ rest) prev (Lexer frs t es ep ns PS_none)
  = scan rest (lastOr prev a) (Lexer frs (t +:+ a) es ep ns PS_none).
Proof.
  induction a as [|c a IH]; intros rest prev frs t es ep ns Hq.
  - rewrite append_nil_l, append_nil_r. reflexivity.
  - simpl in Hq. apply andb_prop in Hq as [Hc Ha]. apply negb_true_iff in Hc.
    rewrite append_cons. simpl. rewrite Hc.
    assert (Hstep : scan (a +:+ rest) (Some c) (accumulate (Lexer frs t es ep ns PS_none) c PS_none)
                    = scan rest (lastOr prev (String c a))
                        (Lexer frs (t +:+ String c a) es ep ns PS_none)).
    { unfold accumulate. simpl. rewrite IH by exact Ha.
      now rewrite snoc_app, lastOr_cons with (prev := prev). }
    destruct (a +:+ rest); exact Hstep.
Qed.

(** A path is accumulated up to its delimiter and closed there. *)
Lemma scan_path p : forall e rest prev frs t es ns,
  noChar e p = true ->
  scan (p +:+ String e rest) prev (Lexer frs t es (Some e) ns PS_path)
  = scan rest (Some e)
      (Lexer (frs ++ [closePath (t +:+ p)]) EmptyString es (Some e) ns ns).
Proof.
  induction p as [|c p IH]; intros e rest prev frs t es ns Hp.
  - rewrite append_nil_l, append_nil_r. simpl.
    now rewrite bool_decide_eq_true_2.
  - simpl in Hp. apply andb_prop in Hp as [Hc Hp]. apply negb_true_iff in Hc.
    rewrite append_cons. simpl.
    rewrite bool_decide_eq_false_2.
    2:{ intros [= ->]. now rewrite Ascii.eqb_refl in Hc. }
    unfold accumulate. simpl. rewrite IH by exact Hp. now rewrite snoc_app.
Qed.

Lemma lastOr_noChar c prev a :
  prev <> Some c -> noChar c a = true -> lastOr prev a <> Some c.
Proof.
  revert prev. induction a as [|x a IH]; intros prev Hp Ha; [exact Hp |].
  simpl in Ha. apply andb_prop in Ha as [Hx Ha]. apply negb_true_iff in Hx.
  rewrite <- (lastOr_cons prev). apply IH; [| exact Ha].
  intros [= ->]. now rewrite Ascii.eqb_refl in Hx.
Qed.

(** Inside a string, text that holds neither the closing quote nor [$] is
    accumulated. *)
Lemma scan_text_string a : forall q rest prev frs t ep ns,
  noChar q a = true -> noChar "$" a = true ->
  scan (a +:+ rest) prev (Lexer frs t (Some q) ep ns PS_string)
  = scan rest (lastOr prev a) (Lexer frs (t +:+ a) (Some q) ep ns PS_string).
Proof.
  induction a as [|c a IH]; intros q rest prev frs t ep ns Hq Hd.
  - rewrite append_nil_l, append_nil_r. reflexivity.
  - simpl in Hq, Hd. apply andb_prop in Hq as [Hcq Hq]. apply andb_prop in Hd as [Hcd Hd].
    apply negb_true_iff in Hcq, Hcd.
    rewrite append_cons. simpl. rewrite Hcd. simpl.
    rewrite (bool_decide_eq_false_2 (Some c = Some q)).
    2:{ intros [= ->]. now rewrite Ascii.eqb_refl in Hcq. }
    simpl. unfold accumulate. simpl.
    rewrite IH by assumption. rewrite snoc_app, (lastOr_cons prev).
    destruct (a +:+ rest); reflexivity.
Qed.

Lemma scan_body q body : forall rest prev frs t ep ns,
  forallb (wfPart q) body = true -> prev <> Some "\"%char ->
  exists prev' ep' ns',
    prev' <> Some "\"%char
    /\ scan (unparseBody body +:+ rest) prev (Lexer frs t (Some q) ep ns PS_string)
       = scan rest prev'
           (Lexer (foldl stepPart (frs, t) body).1 (foldl stepPart (frs, t) body).2
                  (Some q) ep' ns' PS_string).
Proof.
  induction body as [|p body IH]; intros rest prev frs t ep ns Hwf Hprev.
  - exists prev, ep, ns. split; [exact Hprev | reflexivity].
  - simpl in Hwf. apply andb_prop in Hwf as [Hp Hwf].
    simpl unparseBody. rewrite append_assoc. destruct p as [s|path]; simpl in Hp.
    + apply andb_prop in Hp as [Hp Hbs]. apply andb_prop in Hp as [Hq Hd].
      simpl unparsePart. rewrite scan_text_string by assumption.
      apply IH; [exact Hwf | now apply lastOr_noChar].
    + simpl unparsePart. rewrite !append_cons. simpl scan.
      rewrite append_assoc, append_cons, scan_path by exact Hp.
      rewrite append_nil_l, <- app_assoc. simpl app.
      apply IH; [exact Hwf | discriminate].
Qed.

(** A well-formed piece, read in the state [none], leaves the lexer in the
    state [none] with the fragments and the text the piece calls for. *)
Lemma scan_piece p : forall rest prev frs t es ep ns,
  wfPiece p = true ->
  exists prev' es' ep' ns',
    scan (unparsePiece p +:+ rest) prev (Lexer frs t es ep ns PS_none)
    = scan rest prev'
        (Lexer (stepPiece (frs, t) p).1 (stepPiece (frs, t) p).2 es' ep' ns' PS_none).
Proof.
  intros rest prev frs t es ep ns Hwf. destruct p as [s|q path|q body]; simpl in Hwf.
  - exists (lastOr prev s), es, ep, ns. now apply scan_text_none.
  - apply andb_prop in Hwf as [Hq Hp].
    exists (Some q), es, (Some q), PS_none.
    simpl unparsePiece. rewrite !append_cons. simpl scan. rewrite Hq.
    rewrite append_assoc, append_cons, append_nil_l.
    rewrite scan_path by exact Hp. rewrite append_nil_l, <- app_assoc. reflexivity.
  - apply andb_prop in Hwf as [Hwf Hbang]. apply andb_prop in Hwf as [Hq Hbody].
    apply negb_true_iff in Hbang.
    simpl unparsePiece. rewrite append_cons, append_assoc.
    assert (Hopen : scan (String q (unparseBody body +:+ String q EmptyString +:+ rest)) prev
                      (Lexer frs t es ep ns PS_none)
                    = scan (unparseBody body +:+ String q EmptyString +:+ rest) (Some q)
                        (Lexer frs (snoc t q) (Some q) ep ns PS_string)).
    { simpl scan. rewrite Hq.
      destruct (unparseBody body) as [|c b] eqn:Eb.
      - rewrite append_nil_l, append_cons.
        destruct (isQuote_cases q Hq) as [-> | ->]; reflexivity.
      - rewrite append_cons. simpl in Hbang. now rewrite Hbang. }
    rewrite Hopen.
    destruct (isQuote_cases q Hq) as [Eq | Eq].
    all: destruct (scan_body q body (String q EmptyString +:+ rest) (Some q) frs (snoc t q)
                     ep ns Hbody) as (prev' & ep' & ns' & Hprev' & ->);
      [subst q; discriminate |].
    all: exists (Some q), (Some q), ep', ns'.
    all: rewrite append_cons, append_nil_l; simpl scan.
    all: rewrite (bool_decide_eq_true_2 (Some q = Some q) eq_refl).
    all: rewrite (bool_decide_eq_false_2 (prev' = Some "\"%char) Hprev'); simpl.
    all: subst q; destruct rest; reflexivity.
Qed.

Lemma scan_pieces ps : forall prev frs t es ep ns,
  forallb wfPiece ps = true ->
  exists es' ep' ns',
    scan (unparse ps) prev (Lexer frs t es ep ns PS_none)
    = Lexer (foldl stepPiece (frs, t) ps).1 (foldl stepPiece (frs, t) ps).2
            es' ep' ns' PS_none.
Proof.
  induction ps as [|p ps IH]; intros prev frs t es ep ns Hwf.
  - exists es, ep, ns. reflexivity.
  - simpl in Hwf. apply andb_prop in Hwf as [Hp Hwf]. simpl unparse.
    destruct (scan_piece p (unparse ps) prev frs t es ep ns Hp)
      as (prev' & es' & ep' & ns' & ->).
    simpl foldl.
    destruct (stepPiece (frs, t) p) as [frs' t'] eqn:E. simpl.
    apply IH, Hwf.
Qed.

Lemma parse_fragmentsOf (ps : list piece) :
  forallb wfPiece ps = true -> parse (unparse ps) = fragmentsOf ps.
Proof.
  intros Hwf. unfold parse, fragmentsOf.
  destruct (scan_pieces ps None [] EmptyString None None PS_none Hwf)
    as (es' & ep' & ns' & ->).
  simpl. unfold flush.
  destruct (foldl stepPiece ([], EmptyString) ps) as [frs t]. simpl.
  destruct t; reflexivity.
Qed.

(** X5: a template made of well-formed pieces parses to the fragments the
    pieces call for: the text met since the last expression is pushed as a
    text fragment before each expression, the expression is closed by
    [closePath], whichever of the two forms it is written in, and the text
    left at the end is pushed if there is any. *)
Theorem parse_unparse (ps : list piece) :
  forallb wfPiece ps = true -> parse (unparse ps) = fragmentsOf ps.
Proof.
  exact (parse_fragmentsOf ps).
Qed.

Lemma parse_unparse_witness :
  parse "{'title':'Hi ${user.name}!','items':'!row(items)'}"
  = [appendText "{'title':'Hi "; appendProperty "user.name";
     appendText "!','items':"; appendFunction "row" "items"; appendText "}"].
Proof.
  exact (parse_unparse
           [PText "{"; PString "'" [SText "title"]; PText ":";
            PString "'" [SText "Hi "; SExpr "user.name"; SText "!"]; PText ",";
            PString "'" [SText "items"]; PText ":"; PWhole "'" "row(items)"; PText "}"]
           eq_refl).
Defined.

(** ** Rendering well-formed templates *)

Lemma runState_expr call data frs t path :
  runState call data (frs ++ [appendText t; closePath path], EmptyString)
  = runState call data (frs, t) ≫= evalExpr call data path.
Proof.
  unfold runState, evalExpr. simpl. rewrite forEachFragment_app.
  destruct (forEachFragment call frs data EmptyString) as [obj|e]; simpl; [| reflexivity].
  destruct (fragmentFn call (closePath path) data) as [r|e]; simpl; [| reflexivity].
  now rewrite append_nil_r.
Qed.

Lemma runState_text call data frs t s :
  runState call data (frs, t +:+ s)
  = (obj ← runState call data (frs, t); Ok (obj +:+ s)).
Proof.
  unfold runState. simpl.
  destruct (forEachFragment call frs data EmptyString) as [obj|e]; simpl; [| reflexivity].
  now rewrite append_assoc.
Qed.

Lemma runState_body call data body : forall frs t,
  runState call data (foldl stepPart (frs, t) body)
  = runState call data (frs, t) ≫= evalBody call data body.
Proof.
  induction body as [|p body IH]; intros frs t.
  - simpl. destruct (runState call data (frs, t)); reflexivity.
  - simpl foldl. destruct p as [s|path]; simpl stepPart.
    + rewrite IH, runState_text.
      destruct (runState call data (frs, t)); reflexivity.
    + rewrite IH, runState_expr.
      destruct (runState call data (frs, t)); reflexivity.
Qed.

Lemma runState_piece call data p frs t :
  runState call data (stepPiece (frs, t) p)
  = (obj ← runState call data (frs, t); evalPiece call data obj p).
Proof.
  destruct p as [s|q path|q body]; simpl stepPiece.
  - apply runState_text.
  - apply runState_expr.
  - simpl. destruct (foldl stepPart (frs, snoc t q) body) as [frs' t'] eqn:E.
    simpl. unfold snoc at 1. rewrite runState_text.
    rewrite <- E, runState_body. unfold snoc at 1. rewrite runState_text.
    destruct (runState call data (frs, t)) as [obj|e]; simpl; [| reflexivity].
    reflexivity.
Qed.

Lemma runState_pieces call data ps : forall frs t,
  runState call data (foldl stepPiece (frs, t) ps)
  = runState call data (frs, t) ≫= evalPieces call data ps.
Proof.
  induction ps as [|p ps IH]; intros frs t.
  - simpl. destruct (runState call data (frs, t)); reflexivity.
  - simpl foldl. destruct (stepPiece (frs, t) p) as [frs' t'] eqn:E.
    rewrite IH, <- E, runState_piece.
    destruct (runState call data (frs, t)); reflexivity.
Qed.

Lemma runState_flush call data st :
  forEachFragment call (flush st) data EmptyString = runState call data st.
Proof.
  destruct st as [frs t]. unfold flush, runState. simpl. destruct t as [|c t].
  - destruct (forEachFragment call frs data EmptyString) as [obj|e]; simpl;
      [now rewrite append_nil_r | reflexivity].
  - rewrite forEachFragment_app.
    destruct (forEachFragment call frs data EmptyString); reflexivity.
Qed.

(** X6: rendering a template made of well-formed pieces leaves its text as
    it stands and puts in the place of each expression what the fragment of
    that expression returns; the first expression that throws ends the
    rendering. *)
Theorem render_pieces (call : string -> value -> string -> res value)
    (data : value) (ps : list piece) :
  forallb wfPiece ps = true ->
  compiled call (parse (unparse ps)) data None
  = evalPieces call data ps EmptyString.
Proof.
  intros Hwf. rewrite (parse_fragmentsOf ps Hwf). unfold compiled, fragmentsOf.
  rewrite runState_flush, runState_pieces. reflexivity.
Qed.

Lemma render_pieces_witness :
  compiled noTemplates (parse "{'title':'Hi ${user.name}!','n':'!count'}")
    (VObj [("user", VObj [("name", VStr "Ann")]); ("count", VNum 3)]) None
  = Ok "{'title':'Hi Ann!','n':3}".
Proof.
  exact (render_pieces noTemplates
           (VObj [("user", VObj [("name", VStr "Ann")]); ("count", VNum 3)])
           [PText "{"; PString "'" [SText "title"]; PText ":";
            PString "'" [SText "Hi "; SExpr "user.name"; SText "!"]; PText ",";
            PString "'" [SText "n"]; PText ":"; PWhole "'" "count"; PText "}"]
           eq_refl).
Defined.

(** ** What post-processing may do to a tree *)

Lemma processArray_pruned rec prune xs : forall xs',
  Forall (fun x => forall p ok x', rec x p = Ok (ok, x') -> prunedOf x' x) xs ->
  processArray rec prune xs = Ok xs' -> prunedElements xs' xs.
Proof.
  induction xs as [|x rest IH]; intros xs' Hall H; simpl in H.
  - injection H as <-. constructor.
  - apply Forall_cons_1 in Hall as [Hx Hall].
    inv_bind H. rename a into rest'. specialize (IH _ Hall Hm).
    destruct (flag prune "nullMembers" && isNullish x).
    + injection H as <-. now constructor.
    + inv_bind H. destruct a as [ok x']. injection H as <-.
      destruct ok; [| now constructor].
      apply elements_keep; [exact (Hx _ _ _ Hm0) | exact IH].
Qed.

Lemma processMembers_pruned rec ms : forall prune conditions ms',
  Forall (fun kv : string * value =>
            forall p ok x', rec kv.2 p = Ok (ok, x') -> prunedOf x' kv.2) ms ->
  processMembers rec ms prune = Ok (conditions, ms') -> prunedMembers ms' ms.
Proof.
  induction ms as [|[key val] rest IH]; intros prune conditions ms' Hall H.
  - simpl in H. injection H as <- <-. constructor.
  - apply Forall_cons_1 in Hall as [Hx Hall]. rewrite processMembers_cons in H.
    destruct (String.eqb key "@prune");
      [apply members_drop; exact (IH _ _ _ Hall H) |].
    destruct (String.eqb key "@if").
    { inv_bind H. destruct a as [cs out]. injection H as <- <-.
      apply members_drop. exact (IH _ _ _ Hall Hm). }
    destruct (flag prune "nullMembers" && isNullish val);
      [apply members_drop; exact (IH _ _ _ Hall H) |].
    destruct (flag prune "emptyStrings" && isEmptyString val);
      [apply members_drop; exact (IH _ _ _ Hall H) |].
    destruct (flag prune "emptyArrays" && isEmptyArray val);
      [apply members_drop; exact (IH _ _ _ Hall H) |].
    inv_bind H. destruct a as [ok val']. inv_bind H. destruct a as [cs out].
    injection H as <- <-. specialize (IH _ _ _ Hall Hm0).
    destruct ok; [| now apply members_drop].
    apply members_keep; [exact (Hx _ _ _ Hm) | exact IH].
Qed.

Lemma processNode_pruned (v : value) :
  forall prune ok v', processNode v prune = Ok (ok, v') -> prunedOf v' v.
Proof.
  induction v as [| | b | n | s | xs IH | ms IH] using value_members_ind;
    intros prune ok v' H; simpl in H; try (injection H as <- <-; constructor).
  - inv_bind H. rename a into xs'.
    assert (Hp : prunedElements xs' xs) by (eapply processArray_pruned; eauto).
    destruct (flag prune "emptyArrays" && (length xs' =? 0)%nat);
      injection H as <- <-; now constructor.
  - inv_bind H. destruct a as [conditions ms']. inv_bind H. injection H as <- <-.
    apply pruned_object. eapply processMembers_pruned; eauto.
Qed.

(** X7: post-processing only removes. What [postProcess] returns is
    [undefined] or the tree it was given with some members and elements
    removed, at any depth: it adds no key and no element, changes no scalar
    and keeps the order; the same holds for the tree [processNode] leaves,
    whatever flag it returns. *)
Theorem postProcess_only_removes (v v' : value) :
  JsonTemplates.postProcess v = Ok v' ->
  (v' = VUndefined \/ prunedOf v' v)
  /\ (forall prune ok w, processNode v prune = Ok (ok, w) -> prunedOf w v).
Proof.
  intros H. split; [| intros prune ok w; apply processNode_pruned].
  unfold JsonTemplates.postProcess in H.
  inv_bind H. destruct a as [ok w]. injection H as <-.
  destruct ok; [right; exact (processNode_pruned _ _ _ _ Hm) | now left].
Qed.

Lemma postProcess_only_removes_witness :
  VObj [("keep", VArr [VNum 1])] = VUndefined
  \/ prunedOf (VObj [("keep", VArr [VNum 1])])
       (VObj [("@prune", VObj [("nullMembers", VBool true)]);
              ("drop", VNull); ("keep", VArr [VNum 1; VNull])]).
Proof.
  refine (proj1 (postProcess_only_removes
            (VObj [("@prune", VObj [("nullMembers", VBool true)]);
                   ("drop", VNull); ("keep", VArr [VNum 1; VNull])])
            (VObj [("keep", VArr [VNum 1])]) _)).
  vm_compute. reflexivity.
Defined.

Lemma processNode_isNullish v prune ok v' :
  processNode v prune = Ok (ok, v') -> isNullish v' = isNullish v.
Proof.
  intros H. destruct v; simpl in H; try (injection H as <- <-; reflexivity).
  - inv_bind H. destruct (flag prune "emptyArrays" && (length a =? 0)%nat);
      injection H as <- <-; reflexivity.
  - inv_bind H. destruct a as [c m]. inv_bind H. injection H as <- <-. reflexivity.
Qed.

(** X8: under a config with [nullMembers] set, a tree that holds no
    [@prune] key of its own comes out with no [null] and no [undefined]
    member or element at any depth. *)
Theorem nullMembers_leaves_no_null (v : value) :
  forall prune ok v',
    flag prune "nullMembers" = true -> noPruneKey v = true ->
    processNode v prune = Ok (ok, v') -> noNullishInside v' = true.
Proof.
  induction v as [| | b | n | s | xs IH | ms IH] using value_members_ind;
    intros prune ok v' Hflag Hkeys H; simpl in H;
    try (injection H as <- <-; reflexivity).
  - inv_bind H. rename a into xs'.
    assert (Hall : forallb (fun x => negb (isNullish x) && noNullishInside x) xs' = true).
    { clear H. simpl in Hkeys. revert xs' Hm.
      induction IH as [|x rest Hx _ IHrest]; intros xs' Hm; simpl in Hm.
      - now injection Hm as <-.
      - simpl in Hkeys. apply andb_prop in Hkeys as [Hkx Hkrest].
        inv_bind Hm. rename a into rest'. specialize (IHrest Hkrest _ Hm0).
        rewrite Hflag in Hm. simpl in Hm.
        destruct (isNullish x) eqn:En; [now injection Hm as <- |].
        inv_bind Hm. destruct a as [okx x']. injection Hm as <-.
        destruct okx; [| exact IHrest]. simpl.
        rewrite (processNode_isNullish _ _ _ _ Hm1), En,
          (Hx _ _ _ Hflag Hkx Hm1), IHrest. reflexivity. }
    destruct (flag prune "emptyArrays" && (length xs' =? 0)%nat);
      injection H as <- <-; exact Hall.
  - inv_bind H. destruct a as [conditions ms']. inv_bind H. injection H as <- <-.
    rename a into passed.
    simpl. clear Hm0. simpl in Hkeys. revert conditions ms' Hm.
    induction IH as [|[key x] rest Hx _ IHrest]; intros conditions ms' Hm.
    + simpl in Hm. now injection Hm as <- <-.
    + simpl in Hkeys. apply andb_prop in Hkeys as [Hkx Hkrest].
      apply andb_prop in Hkx as [Hkey Hkx]. apply negb_true_iff in Hkey.
      simpl in Hkey, Hkx, Hx.
      rewrite processMembers_cons, Hkey, Hflag in Hm. simpl in Hm.
      destruct (String.eqb key "@if").
      { inv_bind Hm. destruct a as [cs out]. injection Hm as <- <-.
        exact (IHrest Hkrest _ _ Hm0). }
      destruct (isNullish x) eqn:En; [exact (IHrest Hkrest _ _ Hm) |].
      destruct (flag prune "emptyStrings" && isEmptyString x);
        [exact (IHrest Hkrest _ _ Hm) |].
      destruct (flag prune "emptyArrays" && isEmptyArray x);
        [exact (IHrest Hkrest _ _ Hm) |].
      inv_bind Hm. destruct a as [okx x']. inv_bind Hm. destruct a as [cs out].
      injection Hm as <- <-. specialize (IHrest Hkrest _ _ Hm1).
      destruct okx; [| exact IHrest]. simpl.
      rewrite (processNode_isNullish _ _ _ _ Hm0), En,
        (Hx _ _ _ Hflag Hkx Hm0), IHrest. reflexivity.
Qed.

Lemma nullMembers_leaves_no_null_witness :
  noNullishInside (VObj [("a", VArr [VObj []; VNum 0])]) = true.
Proof.
  apply (nullMembers_leaves_no_null
           (VObj [("a", VArr [VNull; VObj [("b", VNull)]; VNum 0]); ("c", VUndefined)])
           (<["nullMembers" := VBool true]> ∅) true
           (VObj [("a", VArr [VObj []; VNum 0])])); vm_compute; reflexivity.
Defined.

(** X9: in an array, strings, the empty ones included, numbers and booleans
    are never removed, whatever the config: the array comes out as it went
    in, and fails only when it is empty under [emptyArrays]. The pruning of
    empty strings applies to the members of objects only, where a member
    holding a blank string is dropped under [emptyStrings]. *)
Theorem array_scalars_kept (xs : list value) (prune : gmap string value) :
  forallb isPlainScalar xs = true ->
  processNode (VArr xs) prune
  = Ok (negb (flag prune "emptyArrays" && (length xs =? 0)%nat), VArr xs)
  /\ (forall key s rest,
        isDirective key = false -> flag prune "emptyStrings" = true ->
        trim s = EmptyString ->
        processMembers processNode ((key, VStr s) :: rest) prune
        = processMembers processNode rest prune).
Proof.
  intros Hxs. split.
  - assert (Hloop : processArray processNode prune xs = Ok xs).
    { induction xs as [|x rest IH]; [reflexivity |].
      simpl in Hxs. apply andb_prop in Hxs as [Hx Hrest].
      rewrite processArray_cons, (IH Hrest). simpl. unfold arrayStep.
      destruct x; try discriminate; simpl; now rewrite andb_false_r. }
    simpl. rewrite Hloop. simpl.
    now destruct (flag prune "emptyArrays" && (length xs =? 0)%nat).
  - intros key s rest Hd Hflag Hs. unfold isDirective in Hd.
    apply orb_false_elim in Hd as [Hp Hi].
    rewrite processMembers_cons, Hp, Hi, Hflag. simpl.
    rewrite andb_false_r, Hs. reflexivity.
Qed.

Lemma array_scalars_kept_witness :
  processNode (VArr [VStr ""; VStr "  "; VNum 0; VBool false])
    (<["emptyStrings" := VBool true]> (<["nullMembers" := VBool true]> ∅))
  = Ok (true, VArr [VStr ""; VStr "  "; VNum 0; VBool false]).
Proof.
  refine (eq_trans
            (proj1 (array_scalars_kept [VStr ""; VStr "  "; VNum 0; VBool false]
                      (<["emptyStrings" := VBool true]> (<["nullMembers" := VBool true]> ∅))
                      eq_refl)) _).
  vm_compute. reflexivity.
Defined.

(** X10: when the rendered text parses to a tree that holds no [@prune]
    and no [@if] key, [renderAsJSON] returns that tree whether it is asked
    to post-process or not. *)
Theorem renderAsJSON_directive_free (JSON_parse : value -> res value) (depth : nat)
    (this : gmap string template) (name : string) (data json obj : value)
    (postProcessArg : option bool) :
  JsonTemplates.render depth this name data = Ok json -> truthy json = true ->
  JSON_parse json = Ok obj -> directiveFree obj = true ->
  JsonTemplates.renderAsJSON JSON_parse depth this name data postProcessArg = Ok obj.
Proof.
  intros Hr Ht Hp Hfree. unfold JsonTemplates.renderAsJSON.
  rewrite Hr. simpl. rewrite Ht. simpl. rewrite Hp. simpl.
  assert (Hpost : JsonTemplates.postProcess obj = Ok obj).
  { unfold JsonTemplates.postProcess.
    now rewrite (processNode_directiveFree_fixed _ Hfree). }
  destruct postProcessArg as [[]|]; [exact Hpost | reflexivity | exact Hpost].
Qed.

Lemma renderAsJSON_directive_free_witness :
  JsonTemplates.renderAsJSON
    (parserOf "{'text':'Ann'}" (VObj [("text", VStr "Ann")]))
    8 oneTemplate "greeting" (VObj [("name", VStr "Ann")]) None
  = Ok (VObj [("text", VStr "Ann")]).
Proof.
  apply (renderAsJSON_directive_free _ 8 oneTemplate "greeting"
           (VObj [("name", VStr "Ann")]) (VStr "{'text':'Ann'}"));
    vm_compute; reflexivity.
Defined.

(** Calling a registered function takes no frame of the model's stack. *)
Lemma apply_Fn depth templates fn data path :
  apply depth templates (Fn fn) data path = fn data path.
Proof. destruct depth; reflexivity. Qed.

Lemma resultText_default r :
  default "undefined" (match r with VStr s => Some s | _ => stringify r end)
  = resultText r.
Proof. destruct r; reflexivity. Qed.

(** X11: a function-call expression is bound when the template is rendered,
    not when it is added. With a template [q!f(args)q] added first and the
    function [f] registered afterwards, [render] calls that function with
    the data and the text [args] as written and returns its result, a string
    as it is and anything else as its JSON text; a later registration under
    the same name replaces the function that is called. *)
Theorem function_late_binding (depth : nat) (this added : gmap string template)
    (name f args : string) (q : ascii) (data : value)
    (fn fn' : value -> option string -> res value) :
  isQuote q = true -> f <> EmptyString -> indexOf "(" f = -1 ->
  noChar q (f +:+ String "("%char (args +:+ String ")"%char EmptyString)) = true ->
  name <> f ->
  JsonTemplates.add name
    (VStr (String q (String "!"%char
       ((f +:+ String "("%char (args +:+ String ")"%char EmptyString))
        +:+ String q EmptyString)))) this = Ok added ->
  JsonTemplates.render (S depth) (JsonTemplates.addFunction f fn added) name data
  = (r ← fn data (Some args); Ok (VStr (resultText r)))
  /\ JsonTemplates.render (S depth)
       (JsonTemplates.addFunction f fn' (JsonTemplates.addFunction f fn added)) name data
     = (r ← fn' data (Some args); Ok (VStr (resultText r))).
Proof.
  intros Hq Hf Hopen Hpath Hne Hadd.
  set (path := f +:+ String "("%char (args +:+ String ")"%char EmptyString)) in *.
  assert (Hparse : parse (String q (String "!"%char (path +:+ String q EmptyString)))
                   = [appendText EmptyString; appendFunction f args]).
  { pose proof (parse_fragmentsOf [PWhole q path]) as H. simpl in H.
    rewrite append_nil_r in H. rewrite H by (now rewrite Hq, Hpath).
    unfold fragmentsOf, flush. simpl. f_equal. f_equal.
    unfold path. now apply closePath_name_args. }
  unfold JsonTemplates.add in Hadd. simpl in Hadd. injection Hadd as <-.
  rewrite Hparse.
  assert (Hrun : forall fn0 store,
            store !! name = Some (Compiled [appendText EmptyString; appendFunction f args]) ->
            store !! f = Some (Fn fn0) ->
            JsonTemplates.render (S depth) store name data
            = (r ← fn0 data (Some args); Ok (VStr (resultText r)))).
  { intros fn0 store Hn Hfn. unfold JsonTemplates.render. rewrite Hn. simpl.
    unfold callIn. rewrite Hfn, apply_Fn.
    destruct (fn0 data (Some args)) as [r|e]; simpl; [| reflexivity].
    unfold plusAssign. simpl. now rewrite resultText_default. }
  unfold JsonTemplates.addFunction. split; apply Hrun.
  - rewrite lookup_insert_ne by congruence. apply lookup_insert_eq.
  - apply lookup_insert_eq.
  - rewrite !lookup_insert_ne by congruence. apply lookup_insert_eq.
  - apply lookup_insert_eq.
Qed.

Lemma function_late_binding_witness :
  JsonTemplates.render 1
    (JsonTemplates.addFunction "upper" (fun data args => Ok (VStr "ANN"))
       (<["t" := Compiled (parse "'!upper(user.name)'")]> ∅))
    "t" (VObj [])
  = Ok (VStr "ANN").
Proof.
  refine (proj1 (function_late_binding 0 ∅ _ "t" "upper" "user.name" "'" (VObj [])
                   (fun data args => Ok (VStr "ANN")) (fun data args => Ok VNull)
                   eq_refl _ eq_refl eq_refl _ eq_refl)); discriminate.
Defined.

(** ** The depth of the call stack *)

Section Deeper.
Variables call call' : string -> value -> string -> res value.
Hypothesis call_stable : forall name data args r,
  call name data args = r -> r <> Throw RangeError_stack -> call' name data args = r.

Lemma fragmentFn_deeper fn data r :
  fragmentFn call fn data = r -> r <> Throw RangeError_stack ->
  fragmentFn call' fn data = r.
Proof.
  destruct fn as [text|name args|path]; simpl; intros H Hr; [exact H | | exact H].
  destruct (call name data args) as [v|e] eqn:E.
  - now rewrite (call_stable _ _ _ _ E).
  - simpl in H. subst r.
    rewrite (call_stable _ _ _ _ E); [reflexivity | intros [= ->]; now apply Hr].
Qed.

Lemma forEachFragment_deeper parsed child : forall obj r,
  forEachFragment call parsed child obj = r -> r <> Throw RangeError_stack ->
  forEachFragment call' parsed child obj = r.
Proof.
  induction parsed as [|fn rest IH]; intros obj r H Hr; simpl in *; [exact H |].
  destruct (fragmentFn call fn child) as [x|e] eqn:E.
  - rewrite (fragmentFn_deeper _ _ _ E) by discriminate. simpl in *. now apply IH.
  - simpl in H. subst r.
    rewrite (fragmentFn_deeper _ _ _ E) by (intros [= ->]; now apply Hr). reflexivity.
Qed.

Lemma forEachChild_deeper parsed children : forall obj connector r,
  forEachChild call parsed children obj connector = r -> r <> Throw RangeError_stack ->
  forEachChild call' parsed children obj connector = r.
Proof.
  induction children as [|c rest IH]; intros obj connector r H Hr; simpl in *;
    [exact H |].
  destruct (forEachFragment call parsed c (obj +:+ connector)) as [x|e] eqn:E.
  - rewrite (forEachFragment_deeper _ _ _ _ E) by discriminate. simpl in *. now apply IH.
  - simpl in H. subst r.
    rewrite (forEachFragment_deeper _ _ _ _ E) by (intros [= ->]; now apply Hr).
    reflexivity.
Qed.

Lemma compiled_deeper parsed data path r :
  compiled call parsed data path = r -> r <> Throw RangeError_stack ->
  compiled call' parsed data path = r.
Proof.
  unfold compiled. intros H Hr.
  destruct path as [p|]; [| now apply forEachFragment_deeper].
  destruct (negb (String.eqb p "")); [| now apply forEachFragment_deeper].
  destruct (getValue data p) as [val|e]; simpl in *; [| exact H].
  destruct val; simpl in *; try exact H; try now apply forEachFragment_deeper.
  destruct (forEachChild call parsed xs "[" "") as [x|e] eqn:E.
  - now rewrite (forEachChild_deeper _ _ _ _ _ E) by discriminate.
  - simpl in H. subst r.
    rewrite (forEachChild_deeper _ _ _ _ _ E) by (intros [= ->]; now apply Hr).
    reflexivity.
Qed.
End Deeper.

Lemma apply_deeper depth templates : forall t data path r,
  apply depth templates t data path = r -> r <> Throw RangeError_stack ->
  apply (S depth) templates t data path = r.
Proof.
  induction depth as [|d IH]; intros t data path r H Hr.
  - destruct t as [parsed|fn]; simpl in H; [congruence | exact H].
  - destruct t as [parsed|fn]; [| exact H].
    simpl in H. change (apply (S (S d)) templates (Compiled parsed) data path)
      with (VStr <$> compiled (callIn (apply (S d) templates) templates) parsed data path).
    destruct (compiled (callIn (apply d templates) templates) parsed data path)
      as [s|e] eqn:E.
    + rewrite (compiled_deeper (callIn (apply d templates) templates)
                 (callIn (apply (S d) templates) templates)) with (r := Ok s);
        [exact H | | exact E | discriminate].
      intros name data0 args r0 Hc Hr0. unfold callIn in *.
      destruct (templates !! name); [now apply IH | exact Hc].
    + simpl in H. subst r.
      rewrite (compiled_deeper (callIn (apply d templates) templates)
                 (callIn (apply (S d) templates) templates)) with (r := Throw e);
        [reflexivity | | exact E | intros [= ->]; now apply Hr].
      intros name data0 args r0 Hc Hr0. unfold callIn in *.
      destruct (templates !! name); [now apply IH | exact Hc].
Qed.

(** X12: a deeper call stack never changes what a render returns or
    throws; it can only turn the overflow of the stack into a result. *)
Theorem render_deeper (depth more : nat) (this : gmap string template)
    (name : string) (data : value) (r : res value) :
  JsonTemplates.render depth this name data = r -> r <> Throw RangeError_stack ->
  JsonTemplates.render (depth + more) this name data = r.
Proof.
  intros H Hr. unfold JsonTemplates.render in *.
  destruct (this !! name) as [t|]; [| exact H].
  induction more as [|m IH].
  - now rewrite Nat.add_0_r.
  - rewrite Nat.add_succ_r. now apply apply_deeper.
Qed.

Lemma render_deeper_witness :
  JsonTemplates.render (2 + 5) rowsStore "table"
    (VObj [("rows", VArr [VObj [("n", VNum 1)]])])
  = Ok (VStr "{'rows':[{'n':'1'}]}").
Proof.
  apply (render_deeper 2 5 rowsStore "table"
           (VObj [("rows", VArr [VObj [("n", VNum 1)]])]));
    [vm_compute; reflexivity | discriminate].
Defined.

(** ** Middleware sets *)

Section MiddlewareChains.
Context {Context Activities R : Type}.
Implicit Types (set before inner after : list (Middleware Context Activities R)).

Lemma callMiddleware_contextCreated_app before after (context : Context) next :
  MiddlewareSet.callMiddleware_contextCreated context next (before ++ after)
  = MiddlewareSet.callMiddleware_contextCreated context
      (fun _ => MiddlewareSet.callMiddleware_contextCreated context next after) before.
Proof.
  induction before as [|plugin before IH]; [reflexivity |].
  simpl. rewrite IH. reflexivity.
Qed.




(** X14: a plugin that does not define the handler of a method is passed
    over by that method: the set runs as the set of the plugins that define
    it, and a set none of whose plugins defines it, the empty set included,
    just calls [next]. *)
Theorem middleware_undefined_handlers set (context : Context) (next : unit -> R) :
  MiddlewareSet.contextCreated set context next
  = MiddlewareSet.contextCreated
      (List.filter (fun p => bool_decide (is_Some (contextCreated p))) set) context next
  /\ MiddlewareSet.receiveActivity set context next
     = MiddlewareSet.receiveActivity
         (List.filter (fun p => bool_decide (is_Some (receiveActivity p))) set) context next
  /\ (Forall (fun p => contextCreated p = None) set ->
      MiddlewareSet.contextCreated set context next = next tt).
Proof.
  unfold MiddlewareSet.contextCreated, MiddlewareSet.receiveActivity.
  split; [| split].
  - induction set as [|p set IH]; [reflexivity |].
    cbn [List.filter]. destruct (contextCreated p) as [h|] eqn:E.
    + rewrite bool_decide_eq_true_2 by eauto. simpl. rewrite E, IH. reflexivity.
    + rewrite bool_decide_eq_false_2 by (intros [x Hx]; discriminate).
      simpl. rewrite E. exact IH.
  - induction set as [|p set IH]; [reflexivity |].
    cbn [List.filter]. destruct (receiveActivity p) as [h|] eqn:E.
    + rewrite bool_decide_eq_true_2 by eauto. simpl. rewrite E, IH. reflexivity.
    + rewrite bool_decide_eq_false_2 by (intros [x Hx]; discriminate).
      simpl. rewrite E. exact IH.
  - induction 1 as [|p set Hp _ IH]; [reflexivity |].
    simpl. now rewrite Hp.
Qed.

(** X15: a plugin whose handler does not use [next] intercepts the chain:
    what the set returns does not depend on the plugins registered after it
    nor on the caller's [next]. *)
Theorem middleware_interception before after after'
    (plugin : Middleware Context Activities R) handler
    (context : Context) (next next' : unit -> R) :
  contextCreated plugin = Some handler ->
  (forall c n n', handler c n = handler c n') ->
  MiddlewareSet.contextCreated (before ++ plugin :: after) context next
  = MiddlewareSet.contextCreated (before ++ plugin :: after') context next'.
Proof.
  intros Hh Hignore. unfold MiddlewareSet.contextCreated.
  rewrite !callMiddleware_contextCreated_app. simpl. rewrite Hh.
  rewrite (Hignore context _
             (fun _ => MiddlewareSet.callMiddleware_contextCreated context next' after')).
  reflexivity.
Qed.
End MiddlewareChains.

Lemma middleware_interception_witness :
  let stop := Build_Middleware unit unit nat (Some (fun _ _ => 7%nat)) None None in
  let pass := Build_Middleware unit unit nat (Some (fun _ next => S (next tt))) None None in
  MiddlewareSet.contextCreated ([pass] ++ stop :: [pass; pass]) tt (fun _ => 0%nat)
  = MiddlewareSet.contextCreated ([pass] ++ stop :: []) tt (fun _ => 5%nat).
Proof.
  intros stop pass.
  apply (middleware_interception [pass] [pass; pass] [] stop (fun _ _ => 7%nat));
    reflexivity.
Defined.

(** ** Services *)

Section Services.
Context {V Activities A : Type}.
Variable log : string -> gmap string V -> res (gmap string V).
Variable ownHasOwnProperty :
  V -> string -> gmap string V -> res (bool * gmap string V).
Implicit Types (services : list (@BotService.t V)) (s : @BotService.t V).

Lemma registerAll_lookup_other services c key :
  key ∉ map BotService.name services ->
  BotService.registerAll services c !! key = c !! key.
Proof.
  revert c. induction services as [|s services IH]; intros c Hkey; [reflexivity |].
  simpl in *. apply not_elem_of_cons in Hkey as [Hne Hkey].
  unfold BotService.registerAll in *. simpl. rewrite IH by exact Hkey.
  now rewrite lookup_insert_ne.
Qed.

Lemma registerAll_lookup services c s :
  NoDup (map BotService.name services) ->
  s ∈ services ->
  BotService.registerAll services c !! BotService.name s = Some (BotService.instance s).
Proof.
  revert c. induction services as [|s' services IH]; intros c Hnd Hin.
  - now apply elem_of_nil in Hin.
  - simpl in Hnd. apply NoDup_cons in Hnd as [Hfresh Hnd].
    apply elem_of_cons in Hin as [-> | Hin].
    + unfold BotService.registerAll. simpl.
      fold (BotService.registerAll services (<[BotService.name s' := BotService.instance s']> c)).
      rewrite registerAll_lookup_other by exact Hfresh.
      now rewrite lookup_insert_eq.
    + unfold BotService.registerAll. simpl. now apply IH.
Qed.

(** X16: on a context that is a plain object and has no own property
    [hasOwnProperty], services
    whose names are pairwise different, are not yet properties of the
    context and are neither [hasOwnProperty] nor [__proto__], registered in a
    middleware set: [contextCreated] of the set runs [next] on the context
    to which every service was added under its name, the other properties
    being as they were; the logger is not called. *)
Theorem services_registered services (c : gmap string V)
    (next : unit -> gmap string V -> res (A * gmap string V)) :
  NoDup (map BotService.name services) ->
  Forall (fun s => c !! BotService.name s = None
                   /\ BotService.name s <> "hasOwnProperty"
                   /\ BotService.name s <> "__proto__") services ->
  c !! "hasOwnProperty" = None ->
  MiddlewareSet.contextCreated (map (@BotService.asMiddleware V Activities A log ownHasOwnProperty) services) tt next c
  = next tt (BotService.registerAll services c)
  /\ (forall s, s ∈ services ->
        BotService.registerAll services c !! BotService.name s
        = Some (BotService.instance s))
  /\ (forall key, key ∉ map BotService.name services ->
        BotService.registerAll services c !! key = c !! key).
Proof.
  intros Hnd Hfresh Hown. split; [| split].
  - unfold MiddlewareSet.contextCreated. revert c Hfresh Hown.
    induction services as [|s services IH]; intros c Hfresh Hown; [reflexivity |].
    simpl in Hnd. apply NoDup_cons in Hnd as [Hs Hnd].
    apply Forall_cons_1 in Hfresh as [(Hnone & Hname & _) Hfresh].
    simpl. unfold BotService.contextCreated at 1, BotService.hasOwnProperty.
    rewrite Hown, Hnone. simpl.
    unfold BotService.getService. rewrite (IH Hnd).
    + reflexivity.
    + apply Forall_forall. intros s' Hin.
      pose proof (proj1 (Forall_forall _ _) Hfresh s' Hin) as (Hnone' & Hname').
      split; [| exact Hname'].
      rewrite lookup_insert_ne; [exact Hnone' |].
      intros Heq. apply Hs. rewrite Heq. apply list_elem_of_In.
      apply in_map. now apply list_elem_of_In.
    + rewrite lookup_insert_ne; [exact Hown | exact Hname].
  - intros s Hin. now apply registerAll_lookup.
  - intros key Hkey. now apply registerAll_lookup_other.
Qed.
End Services.

Lemma services_registered_witness :
  let storage := {| BotService.name := "storage"; BotService.instance := 1%nat |} in
  let state := {| BotService.name := "state"; BotService.instance := 2%nat |} in
  let failing := fun (_ : string) (_ : gmap string nat) => Throw (TypeError_call "log") in
  let shadowed := fun (_ : nat) (_ : string) (_ : gmap string nat) =>
                    Throw (TypeError_call "hasOwnProperty") in
  let next := fun (_ : unit) (c : gmap string nat) => Ok (c !! "state", c) in
  MiddlewareSet.contextCreated
    (map (@BotService.asMiddleware nat unit (option nat) failing shadowed)
         [storage; state]) tt next {["logger" := 0%nat]}
  = next tt (BotService.registerAll [storage; state] {["logger" := 0%nat]}).
Proof.
  intros storage state failing shadowed next.
  apply (@services_registered nat unit (option nat) failing shadowed
           [storage; state] {["logger" := 0%nat]} next).
  - repeat constructor; intros H;
      repeat (apply elem_of_cons in H as [H | H]; [discriminate |]);
      now apply elem_of_nil in H.
  - repeat constructor; try discriminate; vm_compute; reflexivity.
  - vm_compute; reflexivity.
Defined.

(** ** The adapter *)

Section AdapterSend.
Import BotFrameworkAdapter.
Context {E W : Type}.
Variable connector : call -> W -> (E + value) * W.

(** The responses pushed so far are carried along unchanged. *)
Lemma next_responses (activities : list value) (rs : list value) (t : turn W) :
  next connector activities rs t
  = match next connector activities [] t with
    | (t', Resolved rs') => (t', Resolved (rs ++ rs'))
    | (t', Rejected err) => (t', Rejected err)
    end.
Proof.
  revert rs t. induction activities as [|activity rest IH]; intros rs t.
  - simpl. now rewrite app_nil_r.
  - simpl. destruct (prop activity "type") as [type|e]; [| reflexivity].
    destruct (isText type "delay").
    { destruct (prop activity "value") as [v|e]; [| reflexivity].
      rewrite (IH (rs ++ [VObj []])), (IH ([] ++ [VObj []])).
      destruct (next connector rest [] _) as [t' [rs'|err]]; [| reflexivity].
      now rewrite <- app_assoc. }
    destruct (isText type "invokeResponse").
    { rewrite (IH (rs ++ [VObj []])), (IH ([] ++ [VObj []])).
      destruct (next connector rest [] _) as [t' [rs'|err]]; [| reflexivity].
      now rewrite <- app_assoc. }
    destruct (outgoing activity) as [[message|c]|e]; try reflexivity.
    destruct (callConnector connector c t) as [t1 [response|err]]; [| reflexivity].
    rewrite (IH (rs ++ [response])), (IH ([] ++ [response])).
    destruct (next connector rest [] _) as [t' [rs'|err]]; [| reflexivity].
    now rewrite <- app_assoc.
Qed.

Lemma next_app (xs ys : list value) (rs : list value) (t : turn W) :
  next connector (xs ++ ys) rs t
  = match next connector xs rs t with
    | (t', Resolved rs') => next connector ys rs' t'
    | (t', Rejected err) => (t', Rejected err)
    end.
Proof.
  revert rs t. induction xs as [|activity rest IH]; intros rs t; [reflexivity |].
  simpl. destruct (prop activity "type") as [type|e]; [| reflexivity].
  destruct (isText type "delay").
  { destruct (prop activity "value") as [v|e]; [| reflexivity]. apply IH. }
  destruct (isText type "invokeResponse"); [apply IH |].
  destruct (outgoing activity) as [[message|c]|e]; try reflexivity.
  destruct (callConnector connector c t) as [t1 [response|err]]; [| reflexivity].
  apply IH.
Qed.

(** X17: sending a list of activities is sending a first part of it and
    then, if that went through, the rest, in the turn the first part left:
    the responses are those of the two parts one after the other, and when
    an activity fails nothing is done for the activities after it. *)
Theorem sendActivities_app (xs ys : list value) (t : turn W) :
  sendActivities connector (xs ++ ys) t
  = match sendActivities connector xs t with
    | (t1, Resolved rs1) =>
        match sendActivities connector ys t1 with
        | (t2, Resolved rs2) => (t2, Resolved (rs1 ++ rs2))
        | (t2, Rejected err) => (t2, Rejected err)
        end
    | (t1, Rejected err) => (t1, Rejected err)
    end.
Proof.
  unfold sendActivities. rewrite next_app.
  destruct (next connector xs [] t) as [t1 [rs1|err]]; [| reflexivity].
  apply next_responses.
Qed.

Lemma outgoing_sends (activity : value) (c : call) :
  outgoing activity = Ok (inr c) ->
  sends activity c /\ sentActivity (Connector c) = Some activity.
Proof.
  unfold outgoing. intros H.
  destruct (prop activity "serviceUrl") as [serviceUrl|e] eqn:Hurl; [| discriminate].
  simpl in H. destruct (truthy serviceUrl) eqn:Turl; [| discriminate]. simpl in H.
  destruct (prop activity "conversation") as [conversation|e] eqn:Hconv; [| discriminate].
  simpl in H. destruct (truthy conversation) eqn:Tconv; simpl in H.
  - destruct (prop conversation "id") as [id|e] eqn:Hid; [| discriminate]. simpl in H.
    destruct (truthy id) eqn:Tid; [| discriminate]. simpl in H.
    destruct (prop activity "replyToId") as [replyToId|e] eqn:Hreply; [| discriminate].
    simpl in H. injection H as <-.
    assert (Hc : conversationIdOf activity = Ok id).
    { unfold conversationIdOf. rewrite Hconv. exact Hid. }
    destruct (truthy replyToId) eqn:Treply; simpl; unfold hasAddress;
      repeat split; eauto.
  - discriminate.
Qed.

Lemma callConnector_events (c : call) (t t' : turn W) p :
  callConnector connector c t = (t', p) ->
  events t' = events t ++ [Connector c] /\ invokeResponse t' = invokeResponse t.
Proof.
  unfold callConnector. destruct (connector c (world t)) as [answer w].
  intros [= <- _]. split; reflexivity.
Qed.

Lemma next_resolved (activities : list value) (rs0 : list value) (t t' : turn W) rs :
  next connector activities rs0 t = (t', Resolved rs) ->
  exists rs1 new,
    rs = rs0 ++ rs1 /\ Forall2 answers activities rs1
    /\ events t' = events t ++ new
    /\ omap sentActivity new = List.filter (fun a => negb (isLocal a)) activities
    /\ omap (fun e => match e with SetTimeout ms => Some ms | _ => None end) new
       = omap timeoutOf activities
    /\ invokeResponse t' = lastInvokeResponse (invokeResponse t) activities.
Proof.
  revert rs0 t. induction activities as [|activity rest IH]; intros rs0 t H.
  - simpl in H. injection H as <- <-. exists [], [].
    rewrite !app_nil_r. repeat split. constructor.
  - simpl in H. unfold lastInvokeResponse, isLocal, timeoutOf, answers. simpl.
    unfold isLocal, timeoutOf.
    destruct (prop activity "type") as [type|e] eqn:Htype; [| discriminate].
    destruct (isText type "delay") eqn:Hdelay.
    { assert (Hinv : isText type "invokeResponse" = false).
      { destruct type; try discriminate. simpl in *.
        apply String.eqb_eq in Hdelay as ->. reflexivity. }
      rewrite Hinv.
      destruct (prop activity "value") as [v|e] eqn:Hv; [| discriminate].
      apply IH in H as (rs1 & new & -> & Hans & Hev & Hsent & Htime & Hinvoke).
      exists (VObj [] :: rs1), (SetTimeout (match v with VNum n => n | _ => 1000 end) :: new).
      rewrite <- app_assoc. simpl in *. repeat split; try assumption.
      - constructor; [intros _; reflexivity | exact Hans].
      - rewrite Hev, <- app_assoc. reflexivity.
      - f_equal. exact Htime. }
    destruct (isText type "invokeResponse") eqn:Hinv.
    { apply IH in H as (rs1 & new & -> & Hans & Hev & Hsent & Htime & Hinvoke).
      exists (VObj [] :: rs1), new.
      rewrite <- app_assoc. simpl in *. repeat split; try assumption.
      constructor; [intros _; reflexivity | exact Hans]. }
    destruct (outgoing activity) as [[message|c]|e] eqn:Hout; try discriminate.
    destruct (callConnector connector c t) as [t1 [response|err]] eqn:Hcall;
      [| discriminate].
    apply callConnector_events in Hcall as [Hev1 Hinv1].
    apply outgoing_sends in Hout as [_ Hsent1].
    apply IH in H as (rs1 & new & -> & Hans & Hev & Hsent & Htime & Hinvoke).
    exists (response :: rs1), (Connector c :: new).
    rewrite <- app_assoc. simpl in *. rewrite Hsent1. simpl.
    repeat split; try assumption.
    + constructor; [| exact Hans].
      intros Hlocal. rewrite Htype, Hdelay, Hinv in Hlocal. discriminate.
    + rewrite Hev, Hev1, <- app_assoc. reflexivity.
    + f_equal. exact Hsent.
    + rewrite Hinvoke, Hinv1. reflexivity.
Qed.

(** X18: when [sendActivities] resolves there is one response for each
    activity, in the order of the activities, and it is [{}] for a delay and
    for an invoke response; the connector was called once for each other
    activity, with that activity and in the same order; a timer was set for
    each delay, with the number the activity holds as [value] or 1000; and
    the invoke response kept for the turn is the last one of the list. *)
Theorem sendActivities_resolved (activities : list value) (t t' : turn W)
    (rs : list value) :
  sendActivities connector activities t = (t', Resolved rs) ->
  Forall2 answers activities rs
  /\ exists new,
       events t' = events t ++ new
       /\ omap sentActivity new = List.filter (fun a => negb (isLocal a)) activities
       /\ omap (fun e => match e with SetTimeout ms => Some ms | _ => None end) new
          = omap timeoutOf activities
       /\ invokeResponse t' = lastInvokeResponse (invokeResponse t) activities.
Proof.
  intros H. apply next_resolved in H as (rs1 & new & -> & Hans & Hrest).
  split; [exact Hans |]. exists new. exact Hrest.
Qed.
Lemma next_local (activities : list value) (rs0 : list value) (t : turn W) :
  Forall (fun a => isLocal a = true) activities ->
  next connector activities rs0 t
  = ({| invokeResponse := lastInvokeResponse (invokeResponse t) activities;
        events := events t ++ map SetTimeout (omap timeoutOf activities);
        world := world t |},
     Resolved (rs0 ++ replicate (length activities) (VObj []))).
Proof.
  intros Hlocal. revert rs0 t.
  induction Hlocal as [|activity rest Hactivity _ IH]; intros rs0 t.
  - destruct t. simpl. now rewrite !app_nil_r.
  - simpl. unfold lastInvokeResponse, timeoutOf. simpl. unfold isLocal in Hactivity.
    destruct (prop activity "type") as [type|e] eqn:Htype; [| discriminate].
    destruct (isText type "delay") eqn:Hdelay.
    + assert (Hinv : isText type "invokeResponse" = false).
      { destruct type; try discriminate. simpl in *.
        apply String.eqb_eq in Hdelay as ->. reflexivity. }
      rewrite Hinv.
      assert (Hv : exists v, prop activity "value" = Ok v).
      { destruct activity; try discriminate; simpl; eauto. }
      destruct Hv as [v Hv]. rewrite Hv, IH. simpl.
      rewrite <- !app_assoc. reflexivity.
    + simpl in Hactivity. rewrite Hactivity, IH. simpl.
      rewrite <- !app_assoc. reflexivity.
Qed.

(** X19: a list of delays and invoke responses only is handled by the
    adapter alone, whatever the connector: the promise resolves, with [{}]
    for each activity; the connector is not called and the world outside is
    as it was; a timer is set for each delay, in order; the last invoke
    response is the one kept for the turn. *)
Theorem sendActivities_local (activities : list value) (t : turn W) :
  Forall (fun a => isLocal a = true) activities ->
  sendActivities connector activities t
  = ({| invokeResponse := lastInvokeResponse (invokeResponse t) activities;
        events := events t ++ map SetTimeout (omap timeoutOf activities);
        world := world t |},
     Resolved (replicate (length activities) (VObj []))).
Proof.
  intros Hlocal. unfold sendActivities. now rewrite next_local.
Qed.

Lemma doneFor_later (activity : value) (rest : list value) (new : list event) :
  Forall (doneFor rest) new -> Forall (doneFor (activity :: rest)) new.
Proof.
  intros H. eapply Forall_impl; [exact H |].
  intros e (a & Hin & He). exists a. split; [now right | exact He].
Qed.

Lemma next_events (activities : list value) (rs0 : list value) (t t' : turn W) p :
  next connector activities rs0 t = (t', p) ->
  exists new, events t' = events t ++ new /\ Forall (doneFor activities) new.
Proof.
  revert rs0 t. induction activities as [|activity rest IH]; intros rs0 t H.
  - simpl in H. injection H as <- _. exists []. now rewrite app_nil_r.
  - simpl in H.
    assert (Hstay : forall q, (t, q) = (t', p) ->
              exists new, events t' = events t ++ new
                          /\ Forall (doneFor (activity :: rest)) new).
    { intros q [= <- _]. exists []. now rewrite app_nil_r. }
    destruct (prop activity "type") as [type|e] eqn:Htype; [| now apply (Hstay _ H)].
    destruct (isText type "delay") eqn:Hdelay.
    { destruct (prop activity "value") as [v|e] eqn:Hv; [| now apply (Hstay _ H)].
      apply IH in H as (new & Hev & Hnew). simpl in Hev.
      exists (SetTimeout (match v with VNum n => n | _ => 1000 end) :: new).
      rewrite Hev, <- app_assoc. split; [reflexivity |].
      constructor; [| now apply doneFor_later].
      exists activity. split; [now left |].
      unfold timeoutOf. rewrite Htype, Hdelay, Hv. now destruct v. }
    destruct (isText type "invokeResponse") eqn:Hinvoke.
    { apply IH in H as (new & Hev & Hnew). exists new.
      split; [exact Hev | now apply doneFor_later]. }
    destruct (outgoing activity) as [[message|c]|e] eqn:Hout;
      try now apply (Hstay _ H).
    apply outgoing_sends in Hout as [Hc _].
    assert (Hdone : doneFor (activity :: rest) (Connector c)).
    { exists activity. split; [now left |]. split; [| exact Hc].
      unfold isLocal. now rewrite Htype, Hdelay, Hinvoke. }
    destruct (callConnector connector c t) as [t1 q] eqn:Hcall.
    apply callConnector_events in Hcall as [Hev1 _].
    destruct q as [response|err].
    + apply IH in H as (new & Hev & Hnew). exists (Connector c :: new).
      rewrite Hev, Hev1, <- app_assoc. split; [reflexivity |].
      constructor; [exact Hdone | now apply doneFor_later].
    + injection H as <- _. exists [Connector c]. split; [exact Hev1 |].
      constructor; [exact Hdone | constructor].
Qed.

Lemma updating_updates (activity : value) (c : call) :
  updating activity = Ok (inr c) -> updates activity c.
Proof.
  unfold updating. intros H.
  destruct (prop activity "serviceUrl") as [serviceUrl|e] eqn:Hurl; [| discriminate].
  simpl in H. destruct (truthy serviceUrl) eqn:Turl; [| discriminate]. simpl in H.
  destruct (prop activity "conversation") as [conversation|e] eqn:Hconv; [| discriminate].
  simpl in H. destruct (truthy conversation) eqn:Tconv; simpl in H; [| discriminate].
  destruct (prop conversation "id") as [id|e] eqn:Hid; [| discriminate]. simpl in H.
  destruct (truthy id) eqn:Tid; [| discriminate]. simpl in H.
  destruct (prop activity "id") as [activityId|e] eqn:Hactivity; [| discriminate].
  simpl in H. destruct (truthy activityId) eqn:Tactivity; [| discriminate].
  simpl in H. injection H as <-.
  assert (Hc : conversationIdOf activity = Ok id).
  { unfold conversationIdOf. rewrite Hconv. exact Hid. }
  simpl. unfold hasAddress. repeat split; assumption.
Qed.

Lemma deleting_deletes (reference : value) (c : call) :
  deleting reference = Ok (inr c) -> deletes reference c.
Proof.
  unfold deleting. intros H.
  destruct (prop reference "serviceUrl") as [serviceUrl|e] eqn:Hurl; [| discriminate].
  simpl in H. destruct (truthy serviceUrl) eqn:Turl; [| discriminate]. simpl in H.
  destruct (prop reference "conversation") as [conversation|e] eqn:Hconv; [| discriminate].
  simpl in H. destruct (truthy conversation) eqn:Tconv; simpl in H; [| discriminate].
  destruct (prop conversation "id") as [id|e] eqn:Hid; [| discriminate]. simpl in H.
  destruct (truthy id) eqn:Tid; [| discriminate]. simpl in H.
  destruct (prop reference "activityId") as [activityId|e] eqn:Hactivity; [| discriminate].
  simpl in H. destruct (truthy activityId) eqn:Tactivity; [| discriminate].
  simpl in H. injection H as <-.
  assert (Hc : conversationIdOf reference = Ok id).
  { unfold conversationIdOf. rewrite Hconv. exact Hid. }
  simpl. unfold hasAddress. repeat split; assumption.
Qed.

(** X20: the connector is only called for the activity at hand and with
    its address. Whatever [sendActivities] settles to, each thing it did is
    the timer of one of its delays or a call that carries one of its
    activities, one it does not handle itself, with the service url and the
    conversation id that activity holds, both there (truthy), as a reply to
    the id the activity holds when it holds one. [updateActivity] and
    [deleteActivity] either reject with an error of their own and leave the
    turn as it was, or make exactly one call: the update of the activity
    given, at its address and under its id, or the deletion at the address
    and the activity id the reference given holds, all of them there; the
    promise then settles to what the connector answers, the update to
    [undefined] when it succeeds. *)
Theorem connector_calls_addressed :
  (forall activities (t t' : turn W) p,
      sendActivities connector activities t = (t', p) ->
      exists new, events t' = events t ++ new /\ Forall (doneFor activities) new)
  /\ (forall activity (t t' : turn W) p,
        updateActivity connector activity t = (t', p) ->
        (t' = t /\ exists err, p = Rejected err /\ forall e, err <> External e)
        \/ exists c answer,
             updates activity c
             /\ connector c (world t) = (answer, world t')
             /\ events t' = events t ++ [Connector c]
             /\ invokeResponse t' = invokeResponse t
             /\ p = match answer with
                    | inl e => Rejected (External e)
                    | inr _ => Resolved VUndefined
                    end)
  /\ (forall reference (t t' : turn W) p,
        deleteActivity connector reference t = (t', p) ->
        (t' = t /\ exists err, p = Rejected err /\ forall e, err <> External e)
        \/ exists c answer,
             deletes reference c
             /\ connector c (world t) = (answer, world t')
             /\ events t' = events t ++ [Connector c]
             /\ invokeResponse t' = invokeResponse t
             /\ p = match answer with
                    | inl e => Rejected (External e)
                    | inr response => Resolved response
                    end).
Proof.
  split; [| split].
  - intros activities t t' p H. exact (next_events _ _ _ _ _ H).
  - intros activity t t' p. unfold updateActivity.
    destruct (updating activity) as [[message|c]|e] eqn:Hup.
    + intros [= <- <-]. left. split; [reflexivity |]. eexists. split; [reflexivity |].
      discriminate.
    + apply updating_updates in Hup. unfold callConnector.
      destruct (connector c (world t)) as [answer w] eqn:Hanswer.
      intros H. right. exists c, answer.
      destruct answer as [e|response]; injection H as <- <-; repeat split; assumption.
    + intros [= <- <-]. left. split; [reflexivity |]. eexists. split; [reflexivity |].
      discriminate.
  - intros reference t t' p. unfold deleteActivity.
    destruct (deleting reference) as [[message|c]|e] eqn:Hdel.
    + intros [= <- <-]. left. split; [reflexivity |]. eexists. split; [reflexivity |].
      discriminate.
    + apply deleting_deletes in Hdel. unfold callConnector.
      destruct (connector c (world t)) as [answer w] eqn:Hanswer.
      intros [= <- <-]. right. exists c, answer. repeat split; assumption.
    + intros [= <- <-]. left. split; [reflexivity |]. eexists. split; [reflexivity |].
      discriminate.
Qed.

Lemma next_rejected (activities : list value) (rs0 : list value) (t t' : turn W) err :
  next connector activities rs0 t = (t', Rejected err) ->
  exists done failing rest t1 rs1,
    activities = done ++ failing :: rest
    /\ next connector done rs0 t = (t1, Resolved rs1)
    /\ next connector [failing] rs1 t1 = (t', Rejected err).
Proof.
  revert rs0 t. induction activities as [|activity rest IH]; intros rs0 t H;
    [discriminate |].
  assert (Hhere : next connector [activity] rs0 t = (t', Rejected err) ->
            exists done failing rest' t1 rs1,
              activity :: rest = done ++ failing :: rest'
              /\ next connector done rs0 t = (t1, Resolved rs1)
              /\ next connector [failing] rs1 t1 = (t', Rejected err)).
  { intros Hone. exists [], activity, rest, t, rs0. repeat split. exact Hone. }
  assert (Hlater : forall r t0,
            next connector [activity] rs0 t = (t0, Resolved (rs0 ++ [r])) ->
            next connector rest (rs0 ++ [r]) t0 = (t', Rejected err) ->
            exists done failing rest' t1 rs1,
              activity :: rest = done ++ failing :: rest'
              /\ next connector done rs0 t = (t1, Resolved rs1)
              /\ next connector [failing] rs1 t1 = (t', Rejected err)).
  { intros r t0 Hone Hrest.
    apply IH in Hrest as (done & failing & rest' & t1 & rs1 & -> & Hdone & Hfail).
    exists (activity :: done), failing, rest', t1, rs1. repeat split; [| exact Hfail].
    change (activity :: done) with ([activity] ++ done).
    now rewrite next_app, Hone. }
  simpl in H, Hhere, Hlater.
  destruct (prop activity "type") as [type|e]; [| now apply Hhere].
  destruct (isText type "delay").
  { destruct (prop activity "value") as [v|e]; [| now apply Hhere].
    now apply (Hlater (VObj []) _ eq_refl). }
  destruct (isText type "invokeResponse"); [now apply (Hlater (VObj []) _ eq_refl) |].
  destruct (outgoing activity) as [[message|c]|e]; try now apply Hhere.
  destruct (callConnector connector c t) as [t0 [response|err0]];
    [now apply (Hlater response _ eq_refl) | now apply Hhere].
Qed.

(** X24: when [sendActivities] rejects, one activity failed: the
    activities before it were sent as they are when sent alone, the
    rejection is what sending the failing activity by itself gives in the
    turn they left, that activity is neither a delay nor an invoke
    response, and the turn is left as it was then: nothing is done for the
    activities after it. *)
Theorem sendActivities_rejected (activities : list value) (t t' : turn W)
    (err : reason E) :
  sendActivities connector activities t = (t', Rejected err) ->
  exists done failing rest t1 rs1,
    activities = done ++ failing :: rest
    /\ sendActivities connector done t = (t1, Resolved rs1)
    /\ sendActivities connector [failing] t1 = (t', Rejected err)
    /\ isLocal failing = false.
Proof.
  intros H. apply next_rejected in H
    as (done & failing & rest & t1 & rs1 & -> & Hdone & Hfail).
  exists done, failing, rest, t1, rs1. unfold sendActivities.
  rewrite next_responses in Hfail.
  destruct (next connector [failing] [] t1) as [t2 [rs2|err2]] eqn:Hone;
    [discriminate |].
  repeat split; [exact Hdone | exact Hfail |].
  destruct (isLocal failing) eqn:Hlocal; [| reflexivity].
  rewrite (next_local [failing] [] t1) in Hone by (now repeat constructor).
  discriminate.
Qed.
End AdapterSend.

Lemma sendActivities_rejected_witness :
  let connector := fun (c : BotFrameworkAdapter.call) (w : nat) =>
                     (inr (VObj []) : string + value, S w) in
  let delay := VObj [("type", VStr "delay")] in
  let unaddressed := VObj [("type", VStr "message")] in
  let t := {| BotFrameworkAdapter.invokeResponse := None;
              BotFrameworkAdapter.events := [];
              BotFrameworkAdapter.world := 0%nat |} in
  let t' := {| BotFrameworkAdapter.invokeResponse := None;
               BotFrameworkAdapter.events := [BotFrameworkAdapter.SetTimeout 1000];
               BotFrameworkAdapter.world := 0%nat |} in
  let err := BotFrameworkAdapter.JsError
               "BotFrameworkAdapter.sendActivity(): missing serviceUrl." in
  exists done failing rest t1 rs1,
    [delay; unaddressed; delay] = done ++ failing :: rest
    /\ BotFrameworkAdapter.sendActivities connector done t
       = (t1, BotFrameworkAdapter.Resolved rs1)
    /\ BotFrameworkAdapter.sendActivities connector [failing] t1
       = (t', BotFrameworkAdapter.Rejected err)
    /\ BotFrameworkAdapter.isLocal failing = false.
Proof.
  intros connector delay unaddressed t t' err.
  apply (sendActivities_rejected connector [delay; unaddressed; delay] t t' err).
  reflexivity.
Defined.

Lemma sendActivities_resolved_witness :
  let connector := fun (c : BotFrameworkAdapter.call) (w : nat) =>
                     (inr (VObj [("id", VNum (Z.of_nat w))]) : string + value, S w) in
  let delay := VObj [("type", VStr "delay"); ("value", VNum 250)] in
  let message := VObj [("type", VStr "message"); ("serviceUrl", VStr "https://example");
                       ("conversation", VObj [("id", VStr "c1")])] in
  let t := {| BotFrameworkAdapter.invokeResponse := None;
              BotFrameworkAdapter.events := [];
              BotFrameworkAdapter.world := 0%nat |} in
  let t' := {| BotFrameworkAdapter.invokeResponse := None;
               BotFrameworkAdapter.events :=
                 [BotFrameworkAdapter.SetTimeout 250;
                  BotFrameworkAdapter.Connector
                    (BotFrameworkAdapter.SendToConversation
                       (VStr "https://example") (VStr "c1") message)];
               BotFrameworkAdapter.world := 1%nat |} in
  Forall2 BotFrameworkAdapter.answers [delay; message] [VObj []; VObj [("id", VNum 0)]]
  /\ exists new,
       BotFrameworkAdapter.events t' = BotFrameworkAdapter.events t ++ new
       /\ omap BotFrameworkAdapter.sentActivity new
          = List.filter (fun a => negb (BotFrameworkAdapter.isLocal a)) [delay; message]
       /\ omap (fun e => match e with
                         | BotFrameworkAdapter.SetTimeout ms => Some ms
                         | _ => None
                         end) new
          = omap BotFrameworkAdapter.timeoutOf [delay; message]
       /\ BotFrameworkAdapter.invokeResponse t'
          = BotFrameworkAdapter.lastInvokeResponse
              (BotFrameworkAdapter.invokeResponse t) [delay; message].
Proof.
  intros connector delay message t t'.
  apply (sendActivities_resolved connector [delay; message] t t'
           [VObj []; VObj [("id", VNum 0)]]).
  reflexivity.
Defined.

Lemma sendActivities_local_witness :
  let connector := fun (c : BotFrameworkAdapter.call) (w : nat) =>
                     (inl "unreachable" : string + value, S w) in
  let delay := VObj [("type", VStr "delay")] in
  let invoke := VObj [("type", VStr "invokeResponse");
                      ("value", VObj [("status", VNum 200)])] in
  let t := {| BotFrameworkAdapter.invokeResponse := None;
              BotFrameworkAdapter.events := [];
              BotFrameworkAdapter.world := 0%nat |} in
  BotFrameworkAdapter.sendActivities connector [invoke; delay] t
  = ({| BotFrameworkAdapter.invokeResponse :=
          BotFrameworkAdapter.lastInvokeResponse None [invoke; delay];
        BotFrameworkAdapter.events :=
          [] ++ map BotFrameworkAdapter.SetTimeout
                  (omap BotFrameworkAdapter.timeoutOf [invoke; delay]);
        BotFrameworkAdapter.world := 0%nat |},
     BotFrameworkAdapter.Resolved (replicate 2 (VObj []))).
Proof.
  intros connector delay invoke t.
  apply (sendActivities_local connector [invoke; delay] t).
  repeat constructor.
Defined.

Section AdapterReceive.
Import BotFrameworkAdapter.
Context {E W : Type}.
Variable JSON_parse : value -> res value.
Variable authenticateRequest : value -> value -> W -> (E + unit) * W.
Variable ActivityTypes_Invoke : string.
Variable engineText : error -> string.
Variable describe : E -> reason E + string.

Lemma foldl_append (chunks : list string) (data : string) :
  foldl (fun data chunk => data +:+ chunk) data chunks
  = data +:+ foldr String.append EmptyString chunks.
Proof.
  revert data. induction chunks as [|chunk rest IH]; intros data; simpl.
  - now rewrite append_nil_r.
  - rewrite IH. now rewrite append_assoc.
Qed.

Lemma returnActivity_resolved (activity a : value) :
  returnActivity (E:=E) activity = Resolved a ->
  a = activity /\ isObjectType a = true /\ a <> VNull
  /\ exists type, prop a "type" = Ok (VStr type).
Proof.
  unfold returnActivity. destruct (isObjectType activity) eqn:Hobj; [| discriminate].
  simpl. destruct (prop activity "type") as [type|e] eqn:Htype; [| discriminate].
  destruct type; try discriminate. intros [= <-].
  repeat split; [exact Hobj | | eauto].
  intros ->. discriminate.
Qed.

(** X21: the activity [parseRequest] resolves with is an object, not
    [null], that has a string as its [type]; it is the body of the request
    when a body parser has set one, and otherwise what [JSON.parse] makes of
    the text of the chunks put together, however the stream cut the text
    into chunks; it is the body of the request afterwards, and the headers
    are untouched. *)
Theorem parseRequest_activity (req req' : WebRequest) (activity : value) :
  parseRequest (E:=E) JSON_parse req = (req', Resolved activity) ->
  isObjectType activity = true /\ activity <> VNull
  /\ (exists type, prop activity "type" = Ok (VStr type))
  /\ body req' = activity /\ headers req' = headers req
  /\ (if truthy (body req) then req' = req
      else JSON_parse (VStr (foldr String.append EmptyString (chunks req)))
           = Ok activity).
Proof.
  unfold parseRequest. destruct (truthy (body req)) eqn:Hbody.
  - intros [= <- H]. apply returnActivity_resolved in H as (-> & Hobj & Hnull & Htype).
    repeat split; assumption.
  - rewrite foldl_append, append_nil_l.
    destruct (JSON_parse _) as [parsed|e]; [| discriminate].
    intros [= <- H]. apply returnActivity_resolved in H as (-> & Hobj & Hnull & Htype).
    repeat split; assumption.
Qed.

Lemma respond_sent (request : value) (cached : option value) (sent : list output) :
  respond ActivityTypes_Invoke request cached = Ok (inr sent) ->
  exists status body,
    sent = [ResSend status body; ResEnd]
    /\ ((status = VNum 202 /\ body = VUndefined)
        \/ prop request "type" = Ok (VStr ActivityTypes_Invoke)).
Proof.
  unfold respond. destruct (prop request "type") as [type|e] eqn:Htype; [| discriminate].
  simpl. destruct (isText type ActivityTypes_Invoke) eqn:Hinvoke.
  - assert (type = VStr ActivityTypes_Invoke) as ->.
    { destruct type; try discriminate. simpl in Hinvoke.
      apply String.eqb_eq in Hinvoke as ->. reflexivity. }
    destruct (if truthy (default VUndefined cached) then _ else _) as [val|e];
      [| discriminate].
    simpl. destruct (truthy val); [| discriminate].
    destruct (prop val "status") as [status|e]; [| discriminate]. simpl.
    destruct (prop val "body") as [body|e]; [| discriminate]. simpl.
    intros [= <-]. exists status, body. split; [reflexivity | now right].
  - intros [= <-]. exists (VNum 202), VUndefined. split; [reflexivity | now left].
Qed.

Lemma returnActivity_rejected (activity : value) (err : reason E) :
  returnActivity (E:=E) activity = Rejected err -> forall e, err <> External e.
Proof.
  unfold returnActivity. destruct (isObjectType activity); simpl;
    [| intros [= <-]; discriminate].
  destruct (prop activity "type") as [type|e0]; [| intros [= <-]; discriminate].
  destruct type; intros [= <-]; discriminate.
Qed.

Lemma parseRequest_rejected (req req' : WebRequest) (err : reason E) :
  parseRequest (E:=E) JSON_parse req = (req', Rejected err) ->
  forall e, err <> External e.
Proof.
  unfold parseRequest. destruct (truthy (body req)).
  - intros [= _ H]. exact (returnActivity_rejected _ _ H).
  - destruct (JSON_parse _) as [parsed|e0]; [| intros [= _ <-]; discriminate].
    intros [= _ H]. exact (returnActivity_rejected _ _ H).
Qed.

(** What the handler given to [catch] leaves: the warning, the answer and
    the error thrown again, or, when the text of the error cannot be made,
    nothing but what making it threw. An error of the adapter or of the
    engine always has a text. *)
Lemma rejectWith_settled (errorCode : Z) (err : reason E) (w w' : W)
    (out : list output) (p : promise E unit) :
  rejectWith engineText describe errorCode err w = (out, p, w') ->
  w' = w
  /\ exists thrown,
       p = Rejected thrown
       /\ match toString engineText describe err with
          | inr text =>
              thrown = err
              /\ out = [ConsoleWarn ("BotFrameworkAdapter.processActivity(): "
                                     +:+ pretty errorCode +:+ " ERROR - " +:+ text);
                        ResSend (VNum errorCode) (VStr text); ResEnd]
          | inl raised => thrown = raised /\ out = [] /\ exists e, err = External e
          end.
Proof.
  unfold rejectWith, rejectResponse. intros [= <- <- <-]. split; [reflexivity |].
  eexists. split; [reflexivity |].
  destruct (toString engineText describe err) as [raised|text] eqn:Htext; simpl.
  - repeat split. destruct err as [message|e0|e]; try discriminate. now exists e.
  - split; reflexivity.
Qed.

Lemma processActivity_settled
    (runMiddleware : value -> W -> promise E (option value) * W)
    (req : WebRequest) (w w' : W) (out : list output) (p : promise E unit) :
  processActivity JSON_parse authenticateRequest runMiddleware ActivityTypes_Invoke
    engineText describe req w = (out, p, w') ->
  (out = [] \/ exists status body, responses out = [ResSend status body; ResEnd])
  /\ match p with
     | Resolved _ =>
         exists status body,
           out = [ResSend status body; ResEnd]
           /\ ((status = VNum 202 /\ body = VUndefined)
               \/ exists request,
                    snd (parseRequest (E:=E) JSON_parse req) = Resolved request
                    /\ prop request "type" = Ok (VStr ActivityTypes_Invoke))
     | Rejected thrown =>
         exists errorCode err,
           (errorCode = 401 \/ errorCode = 500)
           /\ match toString engineText describe err with
              | inr text =>
                  thrown = err
                  /\ out = [ConsoleWarn ("BotFrameworkAdapter.processActivity(): "
                                         +:+ pretty errorCode +:+ " ERROR - " +:+ text);
                            ResSend (VNum errorCode) (VStr text); ResEnd]
              | inl raised =>
                  thrown = raised /\ out = [] /\ exists e, err = External e
              end
           /\ (errorCode = 401 ->
               (exists request,
                   snd (parseRequest (E:=E) JSON_parse req) = Resolved request)
               /\ forall runMiddleware',
                    processActivity JSON_parse authenticateRequest runMiddleware'
                      ActivityTypes_Invoke engineText describe req w = (out, p, w'))
     end
  /\ (forall err,
        snd (parseRequest (E:=E) JSON_parse req) = Rejected err ->
        p = Rejected err /\ w' = w
        /\ exists text,
             toString engineText describe err = inr text
             /\ responses out = [ResSend (VNum 500) (VStr text); ResEnd]).
Proof.
  assert (Hrejected : forall errorCode err w0,
            errorCode = 401 \/ errorCode = 500 ->
            rejectWith engineText describe errorCode err w0 = (out, p, w') ->
            (out = [] \/ exists status body, responses out = [ResSend status body; ResEnd])
            /\ exists thrown,
                 p = Rejected thrown
                 /\ match toString engineText describe err with
                    | inr text =>
                        thrown = err
                        /\ out = [ConsoleWarn ("BotFrameworkAdapter.processActivity(): "
                                               +:+ pretty errorCode +:+ " ERROR - " +:+ text);
                                  ResSend (VNum errorCode) (VStr text); ResEnd]
                    | inl raised =>
                        thrown = raised /\ out = [] /\ exists e, err = External e
                    end).
  { intros errorCode err w0 _ H.
    apply rejectWith_settled in H as (_ & thrown & Hp & Hout).
    split; [| now exists thrown].
    destruct (toString engineText describe err) as [raised|text].
    - left. apply Hout.
    - right. destruct Hout as [_ ->]. eexists _, _. reflexivity. }
  intros H. unfold processActivity in H.
  destruct (parseRequest JSON_parse req) as [req1 [request|err]] eqn:Hparse; simpl.
  2:{ pose proof (parseRequest_rejected _ _ _ Hparse) as Hown.
      destruct (Hrejected 500 err w (or_intror eq_refl) H) as (Honce & thrown & -> & Hout).
      apply rejectWith_settled in H as (-> & _).
      destruct (toString engineText describe err) as [raised|text] eqn:Htext.
      { destruct Hout as (_ & _ & e & ->). now destruct (Hown e). }
      destruct Hout as [-> ->]. split; [exact Honce |]. split.
      - exists 500, err. rewrite Htext. repeat split; [now right | lia ..].
      - intros err' [= <-]. repeat split. exists text. split; [exact Htext | reflexivity]. }
  assert (Hgoal : forall errorCode err w0,
            errorCode = 401 \/ errorCode = 500 ->
            rejectWith engineText describe errorCode err w0 = (out, p, w') ->
            (errorCode = 401 ->
             forall runMiddleware',
               processActivity JSON_parse authenticateRequest runMiddleware'
                 ActivityTypes_Invoke engineText describe req w = (out, p, w')) ->
            (out = [] \/ exists status body, responses out = [ResSend status body; ResEnd])
            /\ match p with
               | Resolved _ =>
                   exists status body,
                     out = [ResSend status body; ResEnd]
                     /\ ((status = VNum 202 /\ body = VUndefined)
                         \/ exists request0,
                              Resolved (E:=E) request = Resolved request0
                              /\ prop request0 "type" = Ok (VStr ActivityTypes_Invoke))
               | Rejected thrown =>
                   exists errorCode0 err0,
                     (errorCode0 = 401 \/ errorCode0 = 500)
                     /\ match toString engineText describe err0 with
                        | inr text =>
                            thrown = err0
                            /\ out = [ConsoleWarn ("BotFrameworkAdapter.processActivity(): "
                                                   +:+ pretty errorCode0 +:+ " ERROR - " +:+ text);
                                      ResSend (VNum errorCode0) (VStr text); ResEnd]
                        | inl raised =>
                            thrown = raised /\ out = [] /\ exists e, err0 = External e
                        end
                     /\ (errorCode0 = 401 ->
                         (exists request0, Resolved (E:=E) request = Resolved request0)
                         /\ forall runMiddleware',
                              processActivity JSON_parse authenticateRequest runMiddleware'
                                ActivityTypes_Invoke engineText describe req w = (out, p, w'))
               end
            /\ (forall err0 : reason E,
                  Resolved request = Rejected err0 ->
                  p = Rejected err0 /\ w' = w
                  /\ exists text,
                       toString engineText describe err0 = inr text
                       /\ responses out = [ResSend (VNum 500) (VStr text); ResEnd])).
  { intros errorCode err w0 Hcode Hrej Hlogic.
    destruct (Hrejected errorCode err w0 Hcode Hrej) as (Honce & thrown & -> & Hout).
    split; [exact Honce |]. split; [| discriminate].
    exists errorCode, err. split; [exact Hcode |]. split; [exact Hout |].
    intros H401. split; [eauto | now apply Hlogic]. }
  assert (Hsame : forall runMiddleware',
            processActivity JSON_parse authenticateRequest runMiddleware'
              ActivityTypes_Invoke engineText describe req w
            = match prop (headers req1) "authorization" with
              | Ok header =>
                  let authHeader := if truthy header then header else VStr EmptyString in
                  match authenticateRequest request authHeader w with
                  | (inl e, w0) => rejectWith engineText describe 401 (External e) w0
                  | (inr _, w0) =>
                      match runMiddleware' request w0 with
                      | (Resolved cached, w1) =>
                          match respond ActivityTypes_Invoke request cached with
                          | Ok (inl message) =>
                              rejectWith engineText describe 500 (JsError message) w1
                          | Ok (inr sent) => (sent, Resolved tt, w1)
                          | Throw e => rejectWith engineText describe 500 (Uncaught e) w1
                          end
                      | (Rejected err, w1) => rejectWith engineText describe 500 err w1
                      end
                  end
              | Throw e => rejectWith engineText describe 401 (Uncaught e) w
              end).
  { intros runMiddleware'. unfold processActivity. now rewrite Hparse. }
  destruct (prop (headers req1) "authorization") as [header|e] eqn:Hheader.
  2:{ apply (Hgoal 401 (Uncaught e) w (or_introl eq_refl) H).
      intros _ runMiddleware'. now rewrite Hsame. }
  simpl in Hsame.
  destruct (authenticateRequest request _ w) as [[e|ok] w1] eqn:Hauth.
  { apply (Hgoal 401 (External e) w1 (or_introl eq_refl) H).
    intros _ runMiddleware'. now rewrite Hsame. }
  destruct (runMiddleware request w1) as [[cached|err] w2].
  2:{ apply (Hgoal 500 err w2 (or_intror eq_refl) H). lia. }
  destruct (respond ActivityTypes_Invoke request cached) as [[message|sent]|e] eqn:Hrespond.
  - apply (Hgoal 500 (JsError message) w2 (or_intror eq_refl) H). lia.
  - injection H as <- <- <-.
    apply respond_sent in Hrespond as (status & body & -> & Hstatus).
    split; [right; now exists status, body |]. split; [| discriminate].
    exists status, body. split; [reflexivity |].
    destruct Hstatus as [Hstatus | Htype]; [now left | right; eauto].
  - apply (Hgoal 500 (Uncaught e) w2 (or_intror eq_refl) H). lia.
Qed.
(** X22: a request is answered at most once, and once unless the text of
    the error cannot be made. When the promise of [processActivity]
    resolves, one [send] and then one [end] were made on the response and
    nothing was logged; the status is 202 with no body unless the activity
    is an invoke. When the chain is rejected with an error whose text can be
    made, the error was logged, sent as text with the status 401 or 500,
    the response ended, and the promise rejects with that error. When
    making the text throws, as it does for a rejection with [undefined] or
    [null], which only the code outside the adapter can produce, nothing is
    logged and nothing is sent, and the promise rejects with what was
    thrown. The status 401 is for a request that was parsed, and then the
    middleware and the bot's logic were not run; it is the status of a
    request whose authentication fails. A request that cannot be
    parsed is answered with 500 before anything else is done. *)
Theorem processActivity_response
    (runMiddleware : value -> W -> promise E (option value) * W)
    (req : WebRequest) (w w' : W) (out : list output) (p : promise E unit) :
  processActivity JSON_parse authenticateRequest runMiddleware ActivityTypes_Invoke
    engineText describe req w = (out, p, w') ->
  (out = [] \/ exists status body, responses out = [ResSend status body; ResEnd])
  /\ match p with
     | Resolved _ =>
         exists status body,
           out = [ResSend status body; ResEnd]
           /\ ((status = VNum 202 /\ body = VUndefined)
               \/ exists request,
                    snd (parseRequest (E:=E) JSON_parse req) = Resolved request
                    /\ prop request "type" = Ok (VStr ActivityTypes_Invoke))
     | Rejected thrown =>
         exists errorCode err,
           (errorCode = 401 \/ errorCode = 500)
           /\ match toString engineText describe err with
              | inr text =>
                  thrown = err
                  /\ out = [ConsoleWarn ("BotFrameworkAdapter.processActivity(): "
                                         +:+ pretty errorCode +:+ " ERROR - " +:+ text);
                            ResSend (VNum errorCode) (VStr text); ResEnd]
              | inl raised =>
                  thrown = raised /\ out = [] /\ exists e, err = External e
              end
           /\ (errorCode = 401 ->
               (exists request,
                   snd (parseRequest (E:=E) JSON_parse req) = Resolved request)
               /\ forall runMiddleware',
                    processActivity JSON_parse authenticateRequest runMiddleware'
                      ActivityTypes_Invoke engineText describe req w = (out, p, w'))
     end
  /\ (forall err,
        snd (parseRequest (E:=E) JSON_parse req) = Rejected err ->
        p = Rejected err /\ w' = w
        /\ exists text,
             toString engineText describe err = inr text
             /\ responses out = [ResSend (VNum 500) (VStr text); ResEnd])
  /\ (forall request header e w1,
        snd (parseRequest (E:=E) JSON_parse req) = Resolved request ->
        prop (headers (fst (parseRequest (E:=E) JSON_parse req))) "authorization"
        = Ok header ->
        authenticateRequest request (if truthy header then header else VStr EmptyString) w
        = (inl e, w1) ->
        w' = w1
        /\ exists thrown,
             p = Rejected thrown
             /\ match describe e with
                | inr text =>
                    thrown = External e
                    /\ responses out = [ResSend (VNum 401) (VStr text); ResEnd]
                | inl raised => thrown = raised /\ out = []
                end).
Proof.
  intros H. split; [| split; [| split]];
    try exact (proj1 (processActivity_settled runMiddleware req w w' out p H));
    try exact (proj1 (proj2 (processActivity_settled runMiddleware req w w' out p H)));
    try exact (proj2 (proj2 (processActivity_settled runMiddleware req w w' out p H))).
  intros request header e w1 Hresolved Hheader Hauth.
  unfold processActivity in H.
  destruct (parseRequest JSON_parse req) as [req1 parsed]. simpl in *. subst parsed.
  rewrite Hheader in H. simpl in H. rewrite Hauth in H.
  apply rejectWith_settled in H as (-> & thrown & -> & Hout).
  split; [reflexivity |]. exists thrown. split; [reflexivity |].
  simpl in Hout. destruct (describe e) as [raised|text].
  - destruct Hout as (-> & -> & _). split; reflexivity.
  - destruct Hout as [-> ->]. split; reflexivity.
Qed.
End AdapterReceive.

Lemma parseRequest_activity_witness :
  let parser := fun v : value =>
                  match v with
                  | VStr "{'type':'message'}" => Ok (VObj [("type", VStr "message")])
                  | _ => Throw SyntaxError_json
                  end in
  let req := {| BotFrameworkAdapter.body := VUndefined;
                BotFrameworkAdapter.headers := VObj [];
                BotFrameworkAdapter.chunks := ["{'type':"; "'message'}"] |} in
  let req' := {| BotFrameworkAdapter.body := VObj [("type", VStr "message")];
                 BotFrameworkAdapter.headers := VObj [];
                 BotFrameworkAdapter.chunks := ["{'type':"; "'message'}"] |} in
  let activity := VObj [("type", VStr "message")] in
  isObjectType activity = true /\ activity <> VNull
  /\ (exists type, BotFrameworkAdapter.prop activity "type" = Ok (VStr type))
  /\ BotFrameworkAdapter.body req' = activity
  /\ BotFrameworkAdapter.headers req' = BotFrameworkAdapter.headers req
  /\ (if truthy (BotFrameworkAdapter.body req) then req' = req
      else parser (VStr (foldr String.append EmptyString
                           (BotFrameworkAdapter.chunks req))) = Ok activity).
Proof.
  intros parser req req' activity.
  apply (@parseRequest_activity string parser req req' activity).
  reflexivity.
Defined.

Lemma processActivity_response_witness :
  let parser := fun _ : value => Throw SyntaxError_json in
  let authenticate := fun (_ _ : value) (w : nat) => (inl None : option string + unit, w) in
  let logic := fun (_ : value) (w : nat) =>
                 (BotFrameworkAdapter.Resolved None
                    : BotFrameworkAdapter.promise (option string) (option value), S w) in
  let engineText := fun _ : error => "TypeError" in
  let describe := fun e : option string =>
                    match e with
                    | Some text => inr text
                    | None => inl (BotFrameworkAdapter.Uncaught (TypeError_member "toString"))
                    end in
  let req := {| BotFrameworkAdapter.body := VObj [("type", VStr "message")];
                BotFrameworkAdapter.headers := VObj [];
                BotFrameworkAdapter.chunks := [] |} in
  let thrown := BotFrameworkAdapter.Uncaught (TypeError_member "toString") in
  BotFrameworkAdapter.processActivity parser authenticate logic "invoke" engineText
    describe req 0%nat
  = ([], BotFrameworkAdapter.Rejected thrown, 0%nat)
  /\ exists errorCode err,
       (errorCode = 401 \/ errorCode = 500)
       /\ match BotFrameworkAdapter.toString engineText describe err with
          | inr text =>
              thrown = err
              /\ [] = [BotFrameworkAdapter.ConsoleWarn
                         ("BotFrameworkAdapter.processActivity(): "
                          +:+ pretty errorCode +:+ " ERROR - " +:+ text);
                       BotFrameworkAdapter.ResSend (VNum errorCode) (VStr text);
                       BotFrameworkAdapter.ResEnd]
          | inl raised =>
              thrown = raised /\ ([] : list BotFrameworkAdapter.output) = []
              /\ exists e, err = BotFrameworkAdapter.External e
          end
       /\ (errorCode = 401 ->
           (exists request,
               snd (BotFrameworkAdapter.parseRequest (E:=option string) parser req)
               = BotFrameworkAdapter.Resolved request)
           /\ forall logic',
                BotFrameworkAdapter.processActivity parser authenticate logic' "invoke"
                  engineText describe req 0%nat
                = ([], BotFrameworkAdapter.Rejected thrown, 0%nat)).
Proof.
  intros parser authenticate logic engineText describe req thrown.
  assert (H : BotFrameworkAdapter.processActivity parser authenticate logic "invoke"
                engineText describe req 0%nat
              = ([], BotFrameworkAdapter.Rejected thrown, 0%nat)) by reflexivity.
  split; [exact H |].
  exact (proj1 (proj2 (processActivity_response parser authenticate "invoke" engineText
                         describe logic req 0%nat 0%nat []
                         (BotFrameworkAdapter.Rejected thrown) H))).
Defined.

(** A rejection that has a text is logged and answered: here the
    authentication rejects with a message, and the answer is 401. *)
Example processActivity_unauthorized :
  BotFrameworkAdapter.processActivity (E:=string) (fun _ => Throw SyntaxError_json)
    (fun _ _ (w : nat) => (inl "unauthorized", w))
    (fun _ w => (BotFrameworkAdapter.Resolved None, S w)) "invoke"
    (fun _ => "TypeError") (fun e => inr e)
    {| BotFrameworkAdapter.body := VObj [("type", VStr "message")];
       BotFrameworkAdapter.headers := VObj [];
       BotFrameworkAdapter.chunks := [] |} 0%nat
  = ([BotFrameworkAdapter.ConsoleWarn
        "BotFrameworkAdapter.processActivity(): 401 ERROR - unauthorized";
      BotFrameworkAdapter.ResSend (VNum 401) (VStr "unauthorized");
      BotFrameworkAdapter.ResEnd],
     BotFrameworkAdapter.Rejected (BotFrameworkAdapter.External "unauthorized"), 0%nat).
Proof. reflexivity. Qed.

(** ** renderTemplate *)

(** X23: [renderTemplate] does not post-process. It renders the template
    registered as [language-templateId] and, when the text is not empty,
    resolves to what [renderAsJSON] returns for that name when it is told
    not to post-process, directive keys included; when the name is not
    registered or the text is empty it resolves to [undefined] where
    [renderAsJSON] returns [null]; what the rendering throws is thrown by
    both. *)
Theorem renderTemplate_unprocessed (JSON_parse : value -> res value) (depth : nat)
    (this : gmap string template) (language templateId : string) (data : value) :
  let name := language +:+ "-" +:+ templateId in
  match JsonTemplates.render depth this name data with
  | Ok json =>
      if truthy json
      then JsonTemplates.renderTemplate JSON_parse depth this language templateId data
           = JsonTemplates.renderAsJSON JSON_parse depth this name data (Some false)
           /\ JsonTemplates.renderTemplate JSON_parse depth this language templateId data
              = JSON_parse json
      else JsonTemplates.renderTemplate JSON_parse depth this language templateId data
           = Ok VUndefined
           /\ forall postProcessArg,
                JsonTemplates.renderAsJSON JSON_parse depth this name data postProcessArg
                = Ok VNull
  | Throw e =>
      JsonTemplates.renderTemplate JSON_parse depth this language templateId data = Throw e
      /\ forall postProcessArg,
           JsonTemplates.renderAsJSON JSON_parse depth this name data postProcessArg
           = Throw e
  end.
Proof.
  intros name. unfold JsonTemplates.renderTemplate, JsonTemplates.renderAsJSON.
  fold name. destruct (JsonTemplates.render depth this name data) as [json|e]; simpl.
  - destruct (truthy json); simpl.
    + split; [| reflexivity]. now destruct (JSON_parse json).
    + split; [reflexivity | intros; reflexivity].
  - split; [reflexivity | intros; reflexivity].
Qed.
